(** * wacom-area: the active-area calculator of [src/main.py]

    A shallow embedding of the script and the properties its specification
    states about it.  The script is one Python module: a rounding helper, four
    wrappers around the external [xsetwacom] tool, two string converters and
    [main].  The embedding keeps that shape:

    - [Py]: the fragments of the Python runtime the script calls
      ([str.split], [str.strip], slicing, [int(str)], [float(str)],
      exceptions and [sys.exit]);
    - [PyFloat]: the operations the script applies to Python's [float], with
      the instance [B64], IEEE binary64 on the primitive floats, which is what
      the interpreter runs;
    - the value of a float as a rational number and the rounding to the
      nearest float, against which the operations of [B64] are proved to be
      correctly rounded;
    - [Script]: the functions of [src/main.py], written over [PyFloat] and
      over an arbitrary external tool;
    - [Sim]: a small stand-in for [xsetwacom], used to run [main] on concrete
      command lines. *)

From Stdlib Require Import ZArith QArith Qround Qabs Qpower Lqa Floats.
From Stdlib Require Import String Ascii List Bool Lia.
From Stdlib Require Import DecimalString DecimalPos DecimalZ.
Import ListNotations.

Set Warnings "-inexact-float".

Open Scope string_scope.
Open Scope Z_scope.

(* ================================================================== *)
(** * Fragments of the Python runtime *)
(* ================================================================== *)

Module Py.

(** ** Exceptions and process exit *)

(** The exception classes the script can raise. *)
Inductive exn : Type :=
| ValueError
| ZeroDivisionError
| OverflowError
| IndexError
| TypeError
| UnboundLocalError.

(** How a computation ends: with a value, with [sys.exit] (the exit status
    and the message written to stderr; [sys.exit(str)] exits with status 1,
    an [argparse] error with status 2), or with an exception nobody caught
    (a traceback, status 1). *)
Inductive outcome (A : Type) : Type :=
| Ret (a : A)
| Exit (code : Z) (msg : string)
| Uncaught (e : exn).
Arguments Ret {A} a.
Arguments Exit {A} code msg.
Arguments Uncaught {A} e.

Definition obind {A B} (o : outcome A) (k : A -> outcome B) : outcome B :=
  match o with
  | Ret a => k a
  | Exit c m => Exit c m
  | Uncaught e => Uncaught e
  end.

(** [sys.exit(msg)] with a string argument. *)
Definition sys_exit {A} (msg : string) : outcome A := Exit 1 msg.

(** ** Strings

    A Python [str] is a [string]; the model covers ASCII text. *)

(** [str.isspace] on one ASCII character: TAB, LF, VT, FF, CR, the four
    separators FS, GS, RS, US, and the space. *)
Definition is_space (c : ascii) : bool :=
  let n := N_of_ascii c in
  ((9 <=? n) && (n <=? 13) || (28 <=? n) && (n <=? 32))%N.

(** [s.split(sep)] for a separator of one character. *)
Fixpoint split_on (sep : ascii) (s : string) : list string :=
  match s with
  | EmptyString => [EmptyString]
  | String c s' =>
      if Ascii.eqb c sep then EmptyString :: split_on sep s'
      else match split_on sep s' with
           | [] => [String c EmptyString]
           | p :: ps => String c p :: ps
           end
  end.

(** [s.split()]: the maximal runs of non-whitespace characters. *)
Fixpoint split_ws (s : string) : list string :=
  match s with
  | EmptyString => []
  | String c s' =>
      if is_space c then split_ws s'
      else match s' with
           | EmptyString => [String c EmptyString]
           | String c' _ =>
               if is_space c' then String c EmptyString :: split_ws s'
               else match split_ws s' with
                    | [] => [String c EmptyString]
                    | p :: ps => String c p :: ps
                    end
           end
  end.

Fixpoint lstrip (s : string) : string :=
  match s with
  | EmptyString => EmptyString
  | String c s' => if is_space c then lstrip s' else s
  end.

Fixpoint rstrip (s : string) : string :=
  match s with
  | EmptyString => EmptyString
  | String c s' =>
      match rstrip s' with
      | EmptyString => if is_space c then EmptyString else String c EmptyString
      | r => String c r
      end
  end.

(** [s.strip()]. *)
Definition strip (s : string) : string := rstrip (lstrip s).

(** [s[n:]]. *)
Fixpoint drop (n : nat) (s : string) : string :=
  match n, s with
  | O, _ => s
  | S _, EmptyString => EmptyString
  | S n', String _ s' => drop n' s'
  end.

(** [s[:-1]]. *)
Fixpoint drop_last (s : string) : string :=
  match s with
  | EmptyString => EmptyString
  | String c EmptyString => EmptyString
  | String c s' => String c (drop_last s')
  end.

(** [s.endswith(suffix)]. *)
Definition endswith (s suffix : string) : bool :=
  (String.length suffix <=? String.length s)%nat
  && String.eqb (drop (String.length s - String.length suffix) s) suffix.

(** [sep.join(parts)]. *)
Definition join (sep : string) (parts : list string) : string :=
  String.concat sep parts.

(** [str(n)] for an [int]. *)
Definition str_of_int (n : Z) : string :=
  NilZero.string_of_int (Z.to_int n).

(** ** Numerals: [int(str)] and [float(str)] *)

Definition digit_of (c : ascii) : option Z :=
  let n := N_of_ascii c in
  if ((48 <=? n) && (n <=? 57))%N then Some (Z.of_N n - 48) else None.

Definition is_underscore (c : ascii) : bool := Ascii.eqb c "_"%char.

(** A run of decimal digits in which single underscores may separate digits
    (PEP 515): [digits acc n s] reads the longest such run at the head of
    [s], started with the digits already counted in [n] and valued [acc], and
    returns its value, how many digits it has, and the rest.  An underscore
    belongs to the run only between two digits. *)
Fixpoint digits (acc : Z) (n : nat) (s : string) : Z * nat * string :=
  match s with
  | String c s' =>
      match digit_of c with
      | Some d => digits (10 * acc + d) (S n) s'
      | None =>
          if is_underscore c then
            match n, s' with
            | S _, String c' _ =>
                match digit_of c' with
                | Some _ => digits acc n s'
                | None => (acc, n, s)
                end
            | _, _ => (acc, n, s)
            end
          else (acc, n, s)
      end
  | EmptyString => (acc, n, s)
  end.

(** The whitespace that [int] and [float] skip around a numeral in an ASCII
    string: TAB, LF, VT, FF, CR and the space.  The separators FS, GS, RS
    and US, which [str.strip] removes, are not among them: [int] of a
    numeral with FS before it raises [ValueError]. *)
Definition is_blank (c : ascii) : bool :=
  let n := N_of_ascii c in
  ((9 <=? n) && (n <=? 13) || (n =? 32))%N.

Fixpoint lskip (s : string) : string :=
  match s with
  | EmptyString => EmptyString
  | String c s' => if is_blank c then lskip s' else s
  end.

Fixpoint rskip (s : string) : string :=
  match s with
  | EmptyString => EmptyString
  | String c s' =>
      match rskip s' with
      | EmptyString => if is_blank c then EmptyString else String c EmptyString
      | r => String c r
      end
  end.

Definition trim (s : string) : string := rskip (lskip s).

(** An optional sign: [true] for a minus. *)
Definition sign (s : string) : bool * string :=
  match s with
  | String "-"%char s' => (true, s')
  | String "+"%char s' => (false, s')
  | _ => (false, s)
  end.

(** [int(s)] as sign and magnitude: blanks around, an optional sign, and
    one run of digits, nothing else.  [None] is Python's [ValueError]. *)
Definition int_parts (s : string) : option (bool * Z) :=
  let (neg, body) := sign (trim s) in
  match digits 0 0 body with
  | (m, S _, EmptyString) => Some (neg, m)
  | _ => None
  end.

Definition py_int (s : string) : option Z :=
  match int_parts s with
  | Some (neg, m) => Some (if neg then - m else m)
  | None => None
  end.

Definition lower (c : ascii) : ascii :=
  let n := N_of_ascii c in
  if ((65 <=? n) && (n <=? 90))%N then ascii_of_N (n + 32) else c.

Fixpoint lower_string (s : string) : string :=
  match s with
  | EmptyString => EmptyString
  | String c s' => String (lower c) (lower_string s')
  end.

(** What a [float] literal denotes before rounding. *)
Inductive numeral : Type :=
| Decimal (neg : bool) (m : Z) (e10 : Z)   (* (-1)^neg * m * 10^e10 *)
| Infinity (neg : bool)
| NotANumber (neg : bool).

(** The exponent part: nothing, or [e]/[E], an optional sign and a run of
    digits.  Returns the exponent, or [None] when text is left over. *)
Definition exponent (s : string) : option Z :=
  match s with
  | EmptyString => Some 0
  | String c s' =>
      if Ascii.eqb (lower c) "e"%char then
        let (eneg, body) := sign s' in
        match digits 0 0 body with
        | (e, S _, EmptyString) => Some (if eneg then - e else e)
        | _ => None
        end
      else None
  end.

(** [float(s)] up to rounding: blanks around, an optional sign, then
    [inf], [infinity] or [nan] in any case, or digits with an optional
    fraction and exponent, at least one digit before the exponent. *)
Definition float_numeral (s : string) : option numeral :=
  let (neg, body) := sign (trim s) in
  let low := lower_string body in
  if String.eqb low "inf" || String.eqb low "infinity" then Some (Infinity neg)
  else if String.eqb low "nan" then Some (NotANumber neg)
  else
    let '(ip, ni, rest) := digits 0 0 body in
    match rest with
    | String "."%char rest' =>
        let '(m, nf, rest'') := digits ip 0 rest' in
        match (ni + nf)%nat with
        | O => None
        | S _ =>
            match exponent rest'' with
            | Some e => Some (Decimal neg m (e - Z.of_nat nf))
            | None => None
            end
        end
    | _ =>
        match ni with
        | O => None
        | S _ =>
            match exponent rest with
            | Some e => Some (Decimal neg ip e)
            | None => None
            end
        end
    end.

End Py.
Export Py.

(* ================================================================== *)
(** * The arithmetic of [float] *)
(* ================================================================== *)

(** The operations the script applies to Python floats.  [fquot] is the
    quotient by a divisor that is not zero; Python raises
    [ZeroDivisionError] on a zero divisor, see [fdiv].  [fround] is the
    builtin [round] with one argument, [of_int] the conversion of an [int]
    operand in mixed arithmetic, [of_decimal] the rounding of the decimal
    [(-1)^neg * m * 10^e] that a literal or [float(str)] denotes, and
    [of_special] the values of [inf] and [nan] spellings. *)
Class PyFloat (F : Type) : Type := {
  fadd : F -> F -> F;
  fsub : F -> F -> F;
  fmul : F -> F -> F;
  fquot : F -> F -> F;
  fzero : F -> bool;
  flt : F -> F -> bool;
  fround : F -> outcome Z;
  of_int : Z -> outcome F;
  of_decimal : bool -> Z -> Z -> F;
  of_special : bool -> bool -> option F
}.

(** [round(x)] rounds to the nearest integer and a tie to the even one. *)
Definition round_half_even (q : Q) : Z :=
  let f := Qfloor q in
  match (q - inject_Z f ?= 1 # 2)%Q with
  | Lt => f
  | Gt => f + 1
  | Eq => if Z.even f then f else f + 1
  end.

(** ** IEEE binary64: the primitive floats *)

Module B64.

(** The exact value of a finite float. *)
Definition to_Q (x : float) : option Q :=
  match Prim2SF x with
  | S754_zero _ => Some 0%Q
  | S754_finite s m e =>
      let a := if 0 <=? e then inject_Z (Zpos m * 2 ^ e)
               else (Zpos m # Z.to_pos (2 ^ (- e))) in
      Some (if s then (- a)%Q else a)
  | _ => None
  end.

(** [round(x)]: [OverflowError] on an infinity, [ValueError] on a NaN. *)
Definition round (x : float) : outcome Z :=
  match Prim2SF x with
  | S754_infinity _ => Uncaught OverflowError
  | S754_nan => Uncaught ValueError
  | _ => match to_Q x with
         | Some q => Ret (round_half_even q)
         | None => Uncaught ValueError
         end
  end.

(** The float nearest to [(-1)^neg * m * 10^e], ties to even.  For a
    negative exponent the quotient is first cut to at least 64 bits with a
    sticky last bit, which rounds as the exact quotient does. *)
Definition of_decimal (neg : bool) (m e : Z) : float :=
  if m <=? 0 then (if neg then (-0)%float else 0%float)
  else if 0 <=? e then
    SF2Prim (binary_round prec emax neg (Z.to_pos (m * 10 ^ e)) 0)
  else
    let d := 10 ^ (- e) in
    let k := Z.max 0 (Z.log2 d - Z.log2 m + 64) in
    let n := m * 2 ^ k in
    let mant := 2 * (n / d) + (if n mod d =? 0 then 0 else 1) in
    SF2Prim (binary_round prec emax neg (Z.to_pos mant) (- k - 1)).

(** An [int] operand is converted to the nearest float; an [int] beyond the
    range of [float] raises [OverflowError]. *)
Definition of_int (z : Z) : outcome float :=
  let f := of_decimal (z <? 0) (Z.abs z) 0 in
  if PrimFloat.is_infinity f then Uncaught OverflowError else Ret f.

Definition of_special (is_nan neg : bool) : option float :=
  Some (if is_nan then PrimFloat.nan
        else if neg then PrimFloat.neg_infinity else PrimFloat.infinity).

#[global] Instance arith : PyFloat float := {
  fadd := PrimFloat.add;
  fsub := PrimFloat.sub;
  fmul := PrimFloat.mul;
  fquot := PrimFloat.div;
  fzero := fun x => PrimFloat.eqb x 0%float;
  flt := PrimFloat.ltb;
  fround := round;
  of_int := of_int;
  of_decimal := of_decimal;
  of_special := of_special
}.

End B64.

(* ================================================================== *)
(** * Floats as numbers *)
(* ================================================================== *)

(** A finite binary64 float is [m * 2^e] with [|m| < 2^53] and
    [-1074 <= e <= 971]; IEEE 754 defines each operation as the exact
    result rounded to the nearest such number, a tie going to the even
    mantissa.  The definitions below say this in rationals. *)

Definition pow2 (e : Z) : Q := (2 ^ e)%Q.

(** The binade of a rational: [2^(mag q - 1) <= |q| < 2^(mag q)]. *)
Definition mag (q : Q) : Z :=
  if Qeq_bool q 0 then 0
  else
    let k := Z.log2 (Z.abs (Qnum q)) - Z.log2 (Zpos (Qden q)) in
    if Qle_bool (pow2 k) (Qabs q) then k + 1 else k.

(** The exponent of the floats of a binade. *)
Definition fexp64 (k : Z) : Z := fexp prec emax k.

(** Rounding to nearest, ties to even, with an unbounded exponent range
    above: the multiple of [2^(fexp64 (mag q))] nearest to [q]. *)
Definition rnd (q : Q) : Q :=
  let E := fexp64 (mag q) in
  (inject_Z (round_half_even (q * pow2 (- E))) * pow2 E)%Q.

Definition representable (f : Q) : Prop :=
  exists m e : Z, -1074 <= e /\ Z.abs m < 2 ^ 53 /\ (f == inject_Z m * pow2 e)%Q.

Definition SFfinite (x : spec_float) : bool :=
  match x with
  | S754_zero _ | S754_finite _ _ _ => true
  | _ => false
  end.

Definition SFval (x : spec_float) : Q :=
  match x with
  | S754_finite s m e =>
      if s then (- (inject_Z (Zpos m) * pow2 e))%Q
      else (inject_Z (Zpos m) * pow2 e)%Q
  | _ => 0%Q
  end.

(** Whether a float is a number, and which: the value of an infinity or a
    NaN is left at 0 and never used. *)
Definition finite (x : float) : bool := SFfinite (Prim2SF x).
Definition val (x : float) : Q := SFval (Prim2SF x).

(** [r] is what rounding [v] to binary64 gives: the float of value
    [rnd v], or an infinity when [rnd v] is beyond the largest float. *)
Definition rounded (v : Q) (r : spec_float) : Prop :=
  valid_binary r = true /\
  match r with
  | S754_nan => False
  | S754_infinity s => (pow2 1024 <= Qabs (rnd v))%Q /\ (s = true <-> (v < 0)%Q)
  | _ => (SFval r == rnd v)%Q
  end.

(** Where [x] lies after the integer [m]: on it, or before, at or after
    the middle of [m] and [m + 1]; and the records that the library's
    shifting procedure keeps of it. *)
Definition loc_of (m : Z) (x : Q) : location :=
  if Qeq_bool x (inject_Z m) then loc_Exact
  else loc_Inexact (x - inject_Z m ?= 1 # 2)%Q.

Definition located (mrs : shr_record) (x : Q) : Prop :=
  0 <= shr_m mrs
  /\ (inject_Z (shr_m mrs) <= x)%Q /\ (x < inject_Z (shr_m mrs) + 1)%Q
  /\ loc_of_shr_record mrs = loc_of (shr_m mrs) x.

(** A positive float between [2^lo] and [2^hi]. *)
Definition within (lo hi : Z) (x : float) : bool :=
  finite x && Qle_bool (pow2 lo) (val x) && Qle_bool (val x) (pow2 hi).

(** A float that is zero or of magnitude between [2^-1021] and [2^1022]:
    halving it is exact and the sum of two of them does not overflow. *)
Definition ordinary (x : float) : bool :=
  finite x
  && (Qeq_bool (val x) 0 || Qle_bool (pow2 (-1021)) (Qabs (val x)))
  && Qle_bool (Qabs (val x)) (pow2 1022).

(** The literal [0.1] of line 16. *)
Definition tenth : float := of_decimal false 1 (-1).

(** The fractional part of a number. *)
Definition frac (x : Q) : Q := (x - inject_Z (Qfloor x))%Q.

(** What the script computes for one axis against the entry [X] of the
    table of section 4.3: a float, the nearest to [X], within [2^-53] of it
    in relative terms, and [X] itself when [X] is a float. *)
Definition agrees (o : float) (X : Q) : Prop :=
  finite o = true
  /\ (val o == rnd X)%Q
  /\ (Qabs (val o - X) <= pow2 (-53) * Qabs X)%Q
  /\ (representable X -> (val o == X)%Q).

(** The alignments that push the area to the right edge, and those that
    push it to the bottom edge. *)
Definition right_column : list string := ["topright"; "right"; "bottomright"].
Definition bottom_row : list string := ["bottomleft"; "bottom"; "bottomright"].

(* ================================================================== *)
(** * The script *)
(* ================================================================== *)

(** The namespace [argparse] returns.  [--width] and [--height] are
    converted by [type=float], [--device-resolution] by [type=int]; an option
    that was not given is [None]. *)
Record Args (F : Type) : Type := {
  args_device : option string;
  args_aspect : string;
  args_device_area : option string;
  args_device_resolution : Z;
  args_width : option F;
  args_height : option F;
  args_unit : string;
  args_full : bool;
  args_align : string;
  args_v : bool;
  args_dry_run : bool
}.
Arguments args_device {F} _.
Arguments args_aspect {F} _.
Arguments args_device_area {F} _.
Arguments args_device_resolution {F} _.
Arguments args_width {F} _.
Arguments args_height {F} _.
Arguments args_unit {F} _.
Arguments args_full {F} _.
Arguments args_align {F} _.
Arguments args_v {F} _.
Arguments args_dry_run {F} _.

(** What the process has done so far: the state of the world outside it,
    the command lines it has run, in order, and the lines it has printed. *)
Record pstate (W : Type) : Type := {
  world : W;
  trace : list (list string);
  printed : list string
}.
Arguments world {W} _.
Arguments trace {W} _.
Arguments printed {W} _.

(** One entry of the dictionary [get_devices] builds. *)
Record device_info : Type := { dev_name : string; dev_type : string }.

Definition is_some {A} (o : option A) : bool :=
  match o with Some _ => true | None => false end.

(** [d[k] = v] on a dictionary kept in insertion order. *)
Fixpoint dict_set {V} (k : string) (v : V) (d : list (string * V))
  : list (string * V) :=
  match d with
  | [] => [(k, v)]
  | (k', v') :: d' =>
      if String.eqb k' k then (k, v) :: d' else (k', v') :: dict_set k v d'
  end.

(** [parts[i]]. *)
Definition item (parts : list string) (i : nat) : outcome string :=
  match nth_error parts i with
  | Some p => Ret p
  | None => Uncaught IndexError
  end.

Definition LF : ascii := "010"%char.
Definition TAB : ascii := "009"%char.

Definition xsetwacom : string := "/usr/bin/xsetwacom".

Definition unit_choices : list string := ["in"; "cm"; "mm"; "lines"].

Definition align_choices : list string :=
  ["topleft"; "top"; "topright"; "left"; "center"; "right";
   "bottomleft"; "bottom"; "bottomright"].

Definition member (s : string) (l : list string) : bool :=
  existsb (String.eqb s) l.

Declare Scope script_scope.
Delimit Scope script_scope with script.

Section Script.

Context {F : Type} {arith : PyFloat F}.

(** An [int] constant of the source used as a [float] operand ([0], [1],
    [2]): its conversion is exact. *)
Definition int_const (z : Z) : F := of_decimal (z <? 0) (Z.abs z) 0.

(** [a / b]. *)
Definition fdiv (a b : F) : outcome F :=
  if fzero b then Uncaught ZeroDivisionError else Ret (fquot a b).

(** [a > b]. *)
Definition fgt (a b : F) : bool := flt b a.

(** [float(s)]. *)
Definition py_float (s : string) : outcome F :=
  match float_numeral s with
  | Some (Decimal neg m e) => Ret (of_decimal neg m e)
  | Some (Infinity neg) =>
      match of_special false neg with
      | Some x => Ret x
      | None => Uncaught ValueError
      end
  | Some (NotANumber neg) =>
      match of_special true neg with
      | Some x => Ret x
      | None => Uncaught ValueError
      end
  | None => Uncaught ValueError
  end.

(** Lines 15-16. *)
Definition round2 (num : F) : outcome Z :=
  fround (fadd num (of_decimal false 1 (-1))).

(** Lines 99-101. *)
Definition convert_aspect (aspect : string) : outcome (F * F) :=
  match split_on ":" aspect with
  | [width; height] =>
      obind (py_float width) (fun w =>
      obind (py_float height) (fun h => Ret (w, h)))
  | _ => Uncaught ValueError
  end.

(** Lines 103-105. *)
Definition convert_size (size : string) : outcome (F * F) :=
  match split_on "x" size with
  | [width; height] =>
      obind (py_float width) (fun w =>
      obind (py_float height) (fun h => Ret (w, h)))
  | _ => Uncaught ValueError
  end.

(** Line 133: [parse_args] refuses a [--unit] or [--align] outside its
    [choices] with status 2 (the usage text is not reproduced). *)
Definition parse_args (args : Args F) : outcome unit :=
  if negb (member (args_unit args) unit_choices) then
    Exit 2 "argument --unit: invalid choice"
  else if negb (member (args_align args) align_choices) then
    Exit 2 "argument --align: invalid choice"
  else Ret tt.

(** Line 145: whether [args_dict[arg]] counts as given. *)
Definition arg_found (args : Args F) (arg : string) : bool :=
  if String.eqb arg "width" then is_some (args_width args)
  else if String.eqb arg "height" then is_some (args_height args)
  else if String.eqb arg "full" then args_full args
  else false.

(** Lines 144-148: the inner loop over one group. *)
Fixpoint scan_group (args : Args F) (group found_args : list string)
  : outcome (list string) :=
  match group with
  | [] => Ret found_args
  | arg :: rest =>
      let found_args' :=
        if arg_found args arg then (found_args ++ [arg])%list else found_args in
      if (1 <? length found_args')%nat then
        sys_exit ("the following arguments may not be used together: "
                  ++ join ", " found_args')
      else scan_group args rest found_args'
  end.

(** Lines 140-150. *)
Definition verify_arguments (args : Args F) : outcome unit :=
  let incompatible_group := ["width"; "height"; "full"] in
  obind (scan_group args incompatible_group []) (fun found_args =>
  if (length found_args =? 0)%nat then
    sys_exit ("exactly one of the following arguments must be specified: "
              ++ join ", " incompatible_group)
  else Ret tt).

(** Lines 161-166: the [try] succeeds when the string splits in two at
    [":"] and [int] accepts both parts. *)
Definition aspect_valid (aspect : string) : bool :=
  match split_on ":" aspect with
  | [width; height] => is_some (py_int width) && is_some (py_int height)
  | _ => false
  end.

(** Lines 170-174: the [try] succeeds when [int] accepts every part
    between ["x"]. *)
Definition device_area_valid (device_area : string) : bool :=
  forallb (fun size => is_some (py_int size)) (split_on "x" device_area).

(** Lines 181-196: width or height in lines.  [divisor] is bound for the
    units [in], [cm] and [mm] only. *)
Definition convert_units (args : Args F) : outcome (option F * option F) :=
  if args_full args then Ret (args_width args, args_height args)
  else if String.eqb (args_unit args) "lines" then
    Ret (args_width args, args_height args)
  else
    let divisor : outcome F :=
      if String.eqb (args_unit args) "in" then Ret (int_const 1)
      else if String.eqb (args_unit args) "cm" then Ret (of_decimal false 254 (-2))
      else if String.eqb (args_unit args) "mm" then Ret (of_decimal false 254 (-1))
      else Uncaught UnboundLocalError in
    let to_lines (x : F) : outcome F :=
      obind divisor (fun d =>
      obind (fdiv x d) (fun q =>
      obind (of_int (args_device_resolution args)) (fun r =>
      Ret (fmul q r)))) in
    match args_width args with
    | Some w => obind (to_lines w) (fun w' => Ret (Some w', args_height args))
    | None =>
        match args_height args with
        | Some h => obind (to_lines h) (fun h' => Ret (None, Some h'))
        | None => obind divisor (fun _ => Uncaught TypeError)
        end
    end.

(** Lines 201-210: the full area at the screen's aspect. *)
Definition full_size (screen_width screen_height tablet_width tablet_height : F)
  : outcome (F * F) :=
  obind (fdiv screen_width screen_height) (fun screen =>
  obind (fdiv tablet_width tablet_height) (fun tablet =>
  if fgt screen tablet then
    obind (fdiv screen_height screen_width) (fun r =>
    Ret (tablet_width, fmul tablet_width r))
  else if flt screen tablet then
    obind (fdiv screen_width screen_height) (fun r =>
    Ret (fmul tablet_height r, tablet_height))
  else Ret (tablet_width, tablet_height))).

(** Lines 212-215: the side that was not given, from the one that was. *)
Definition explicit_size (screen_width screen_height : F)
    (width height : option F) : outcome (F * F) :=
  match width, height with
  | None, Some h =>
      obind (fdiv screen_width screen_height) (fun r => Ret (fmul h r, h))
  | None, None =>
      obind (fdiv screen_width screen_height) (fun _ => Uncaught TypeError)
  | Some w, None =>
      obind (fdiv screen_height screen_width) (fun r => Ret (w, fmul w r))
  | Some w, Some h => Ret (w, h)
  end.

(** Lines 218-244: the offset of the area's top left corner. *)
Definition calculate_offset (align : string)
    (tablet_width tablet_height width height : F) : F * F :=
  let zero := int_const 0 in
  if String.eqb align "topleft" then (zero, zero)
  else
    let two := int_const 2 in
    let x_center_offset := fsub (fquot tablet_width two) (fquot width two) in
    let x_full_offset := fsub tablet_width width in
    let y_center_offset := fsub (fquot tablet_height two) (fquot height two) in
    let y_full_offset := fsub tablet_height height in
    if String.eqb align "top" then (x_center_offset, zero)
    else if String.eqb align "topright" then (x_full_offset, zero)
    else if String.eqb align "left" then (zero, y_center_offset)
    else if String.eqb align "center" then (x_center_offset, y_center_offset)
    else if String.eqb align "right" then (x_full_offset, y_center_offset)
    else if String.eqb align "bottomleft" then (zero, y_full_offset)
    else if String.eqb align "bottom" then (x_center_offset, y_full_offset)
    else if String.eqb align "bottomright" then (x_full_offset, y_full_offset)
    else (zero, zero).

(** Lines 247-252 and the arguments of the call on line 255: the far
    corner, the two bounds checks, and the four rounded coordinates. *)
Definition checked_area (tablet_width tablet_height width height
    offset_x offset_y : F) : outcome (Z * Z * Z * Z) :=
  let x2 := fadd offset_x width in
  let y2 := fadd offset_y height in
  obind (round2 x2) (fun rx2 =>
  obind (round2 tablet_width) (fun rtw =>
  if rtw <? rx2 then sys_exit "area width is greater than tablet size!"
  else
    obind (round2 y2) (fun ry2 =>
    obind (round2 tablet_height) (fun rth =>
    if rth <? ry2 then sys_exit "area height is greater than tablet size!"
    else
      obind (round2 offset_x) (fun x1 =>
      obind (round2 offset_y) (fun y1 =>
      obind (round2 x2) (fun x2' =>
      obind (round2 y2) (fun y2' => Ret (x1, y1, x2', y2'))))))))).

(** Lines 199-252: from the two strings and the request to the area. *)
Definition calculate_area (aspect device_area : string) (full : bool)
    (width height : option F) (align : string) : outcome (Z * Z * Z * Z) :=
  obind (convert_aspect aspect) (fun '(screen_width, screen_height) =>
  obind (convert_size device_area) (fun '(tablet_width, tablet_height) =>
  obind (if full
         then full_size screen_width screen_height tablet_width tablet_height
         else explicit_size screen_width screen_height width height)
    (fun '(w, h) =>
  let '(offset_x, offset_y) :=
    calculate_offset align tablet_width tablet_height w h in
  checked_area tablet_width tablet_height w h offset_x offset_y))).

(** ** The part that talks to the tool *)

Variable W : Type.

(** [os.path.exists(xsetwacom)], and [subprocess.run]: the tool's standard
    output and the world after it ran. *)
Variable tool_exists : W -> bool.
Variable tool_run : list string -> W -> string * W.

Definition M (A : Type) : Type := pstate W -> outcome A * pstate W.

Definition ret {A} (a : A) : M A := fun s => (Ret a, s).

Definition bind {A B} (c : M A) (k : A -> M B) : M B :=
  fun s =>
    match c s with
    | (Ret a, s') => k a s'
    | (Exit code msg, s') => (Exit code msg, s')
    | (Uncaught e, s') => (Uncaught e, s')
    end.

Definition lift {A} (o : outcome A) : M A := fun s => (o, s).

Local Notation "x <- c ;; k" := (bind c (fun x => k))
  (at level 61, c at next level, right associativity) : script_scope.
Local Notation "c ;;; k" := (bind c (fun _ => k))
  (at level 61, right associativity) : script_scope.
Local Open Scope script_scope.

Definition print (line : string) : M unit :=
  fun s => (Ret tt, {| world := world s; trace := trace s;
                       printed := (printed s ++ [line])%list |}).

Definition subprocess_run (command : list string) : M string :=
  fun s =>
    let (out, w') := tool_run command (world s) in
    (Ret out, {| world := w'; trace := (trace s ++ [command])%list;
                 printed := printed s |}).

(** Lines 31-38: one line of the device list into the dictionary. *)
Definition add_device (devices : list (string * device_info)) (device : string)
  : outcome (list (string * device_info)) :=
  let parts := split_on TAB device in
  obind (item parts 0) (fun p0 =>
  let device_name := strip p0 in
  obind (item parts 1) (fun p1 =>
  let device_id := strip (drop 4 p1) in
  obind (item parts 2) (fun p2 =>
  let device_type := strip (drop 6 p2) in
  Ret (dict_set device_id
         {| dev_name := device_name; dev_type := device_type |} devices)))).

(** Lines 18-40. *)
Definition get_devices : M (option (list (string * device_info))) :=
  stdout <- subprocess_run [xsetwacom; "--list"; "devices"] ;;
  let output := removelast (split_on LF stdout) in
  if (length output <? 1)%nat then ret None
  else
    devices <- lift (fold_left
                       (fun acc device => obind acc (fun d => add_device d device))
                       output (Ret [])) ;;
    ret (Some devices).

(** Lines 42-58. *)
Definition device_has_area (device : string) : M bool :=
  stdout <- subprocess_run [xsetwacom; "--get"; device; "Area"] ;;
  if endswith stdout ("does not exist on device." ++ String LF "") then ret false
  else
    let area := split_on " " (drop_last stdout) in
    ret (forallb (fun coord => is_some (py_int coord)) area).

(** One of the two loops of [find_first_tablet]. *)
Fixpoint first_of_type (type : string) (devices : list (string * device_info))
  : M (option string) :=
  match devices with
  | [] => ret None
  | (device, info) :: rest =>
      if String.eqb (dev_type info) type then
        has <- device_has_area device ;;
        if has then ret (Some device) else first_of_type type rest
      else first_of_type type rest
  end.

(** Lines 60-70.  Iterating over the [None] that [get_devices] returns
    for an empty list raises [TypeError]. *)
Definition find_first_tablet : M (option string) :=
  devices <- get_devices ;;
  match devices with
  | None => lift (Uncaught TypeError)
  | Some devices =>
      stylus <- first_of_type "STYLUS" devices ;;
      match stylus with
      | Some device => ret (Some device)
      | None => first_of_type "PAD" devices
      end
  end.

Definition reset_area : string := "-1 -1 -1 -1".

(** Lines 72-97.  In a dry run [x1 == 0] compares a string with an [int]
    and is false, so both error lines are always printed. *)
Definition get_tablet_max_area (device : string) (dry_run : bool)
  : M (string * string) :=
  (if negb dry_run then
     subprocess_run [xsetwacom; "--set"; device; "Area"; reset_area] ;;; ret tt
   else
     print "WARNING: area calculations may be invalid -- dry run mode is enabled, could not set tablet to default area" ;;;
     print "WARNING: use --device-area to manually specify the tablet area") ;;;
  stdout <- subprocess_run [xsetwacom; "--get"; device; "Area"] ;;
  match split_ws (drop_last stdout) with
  | [x1; y1; x2; y2] =>
      (if dry_run then
         print "ERROR: DETECTED INVALID DEVICE AREA, CALCULATIONS WILL NOT BE CORRECT!" ;;;
         print "ERROR: USE --device-area TO MANUALLY SPECIFY THE DEVICE AREA"
       else ret tt) ;;;
      ret (x2, y2)
  | _ => lift (Uncaught ValueError)
  end.

(** Lines 107-118. *)
Definition set_area (device : string) (x1 y1 x2 y2 : Z)
    (verbose dry_run : bool) : M unit :=
  let command :=
    [xsetwacom; "--set"; device; "Area";
     str_of_int x1 ++ " " ++ str_of_int y1 ++ " "
       ++ str_of_int x2 ++ " " ++ str_of_int y2] in
  (if verbose then print (join " " command) else ret tt) ;;;
  if negb dry_run then subprocess_run command ;;; ret tt else ret tt.

(** Lines 153-158. *)
Definition select_device (args : Args F) : M string :=
  found <- match args_device args with
           | Some device => ret (Some device)
           | None => find_first_tablet
           end ;;
  match found with
  | None => lift (sys_exit "could not find tablet")
  | Some device =>
      has <- device_has_area device ;;
      if negb has then lift (sys_exit ("invalid tablet device id: " ++ device))
      else ret device
  end.

(** Lines 169-176. *)
Definition select_device_area (args : Args F) (device : string) : M string :=
  match args_device_area args with
  | Some device_area =>
      if device_area_valid device_area then ret device_area
      else lift (sys_exit ("invalid device area: " ++ device_area))
  | None =>
      xy <- get_tablet_max_area device (args_dry_run args) ;;
      ret (join "x" [fst xy; snd xy])
  end.

(** Lines 133-252: everything [main] does before the call of [set_area]:
    the device and the area to give it. *)
Definition prepare (args : Args F) : M (string * (Z * Z * Z * Z)) :=
  lift (parse_args args) ;;;
  exists_ <- (fun s => (Ret (tool_exists (world s)), s)) ;;
  if negb exists_ then lift (sys_exit (xsetwacom ++ " not found"))
  else
    lift (verify_arguments args) ;;;
    device <- select_device args ;;
    (if aspect_valid (args_aspect args) then ret tt
     else lift (sys_exit ("invalid screen aspect ratio: " ++ args_aspect args))) ;;;
    device_area <- select_device_area args device ;;
    size <- lift (convert_units args) ;;
    area <- lift (calculate_area (args_aspect args) device_area (args_full args)
                    (fst size) (snd size) (args_align args)) ;;
    ret (device, area).

(** Lines 120-255. *)
Definition main (args : Args F) : M unit :=
  prepared <- prepare args ;;
  let '(device, (x1, y1, x2, y2)) := prepared in
  set_area device x1 y1 x2 y2 (args_v args) (args_dry_run args).

End Script.

(* ================================================================== *)
(** * A stand-in for the tool *)
(* ================================================================== *)

(** One tablet with one stylus, device id [10], behind a tool that answers
    the three commands the script sends: the device list, the area query,
    and the area assignment, where [-1 -1 -1 -1] restores the full area. *)
Module Sim.

Record tablet : Type := {
  installed : bool;
  full_area : Z * Z;
  area : Z * Z * Z * Z
}.

Definition stylus_id : string := "10".

Definition listing : string :=
  "Wacom Intuos S Pen stylus" ++ String TAB "id: 10"
    ++ String TAB "type: STYLUS" ++ String LF "".

Definition show_area (a : Z * Z * Z * Z) : string :=
  let '(x1, y1, x2, y2) := a in
  str_of_int x1 ++ " " ++ str_of_int y1 ++ " "
    ++ str_of_int x2 ++ " " ++ str_of_int y2 ++ String LF "".

Definition run (command : list string) (t : tablet) : string * tablet :=
  match command with
  | [_; verb; what] =>
      if String.eqb verb "--list" && String.eqb what "devices"
      then (listing, t) else ("", t)
  | [_; verb; device; prop] =>
      if String.eqb verb "--get" && String.eqb device stylus_id
         && String.eqb prop "Area"
      then (show_area (area t), t) else ("", t)
  | [_; verb; device; prop; value] =>
      if String.eqb verb "--set" && String.eqb device stylus_id
         && String.eqb prop "Area"
      then
        match map py_int (split_ws value) with
        | [Some x1; Some y1; Some x2; Some y2] =>
            if (x1 =? -1) && (y1 =? -1) && (x2 =? -1) && (y2 =? -1)
            then ("", {| installed := installed t; full_area := full_area t;
                         area := (0, 0, fst (full_area t), snd (full_area t)) |})
            else ("", {| installed := installed t; full_area := full_area t;
                         area := (x1, y1, x2, y2) |})
        | _ => ("", t)
        end
      else ("", t)
  | _ => ("", t)
  end.

(** A tablet of 15200 by 9500 lines whose area was narrowed before. *)
Definition intuos : tablet :=
  {| installed := true; full_area := (15200, 9500);
     area := (0, 0, 7600, 4275) |}.

Definition start (t : tablet) : pstate tablet :=
  {| world := t; trace := []; printed := [] |}.

(** [main] in binary64 against the stand-in. *)
Definition run_main (args : Args float) (t : tablet)
  : outcome unit * pstate tablet :=
  main tablet installed run args (start t).

(** The defaults of the command line ([--aspect 16:9], [--device-resolution
    2540], [--unit mm], [--align center]) with nothing else given. *)
Definition defaults : Args float :=
  {| args_device := None; args_aspect := "16:9"; args_device_area := None;
     args_device_resolution := 2540; args_width := None; args_height := None;
     args_unit := "mm"; args_full := false; args_align := "center";
     args_v := false; args_dry_run := false |}.

(** A command line: the defaults with [--device-area], [--aspect],
    [--width], [--unit], [--full] and [--align] as given. *)
Definition request (device_area : option string) (aspect : string)
    (width : option float) (unit : string) (full : bool) (align : string)
  : Args float :=
  {| args_device := None; args_aspect := aspect;
     args_device_area := device_area; args_device_resolution := 2540;
     args_width := width; args_height := None; args_unit := unit;
     args_full := full; args_align := align;
     args_v := false; args_dry_run := false |}.

(** [--device-area 10000x6000 --width 5000 --unit lines] *)
Definition spec_example : Args float :=
  request (Some "10000x6000") "16:9" (Some 5000%float) "lines" false "center".

(** [--width 100]: 100 mm on the tablet as the device reports it. *)
Definition hundred_mm : Args float :=
  request None "16:9" (Some 100%float) "mm" false "center".

(** [--width 20000 --unit lines --align topleft]: wider than the tablet. *)
Definition too_wide : Args float :=
  request None "16:9" (Some 20000%float) "lines" false "topleft".

(** [--device-area 10000x6000 --width 20000 --unit lines --align bottomright] *)
Definition wide_right : Args float :=
  request (Some "10000x6000") "16:9" (Some 20000%float) "lines" false
    "bottomright".

(** [--device-area 10000x0 --full] and [--device-area 0x6000 --full] *)
Definition zero_height : Args float :=
  request (Some "10000x0") "16:9" None "mm" true "center".
Definition zero_width : Args float :=
  request (Some "0x6000") "16:9" None "mm" true "center".

(** [--device-area 4503599627370499x6000 --width 1.5 --unit lines
    --align topright]: the tablet width is [2^52 + 3]. *)
Definition odd_tablet : Args float :=
  request (Some "4503599627370499x6000") "16:9" (Some 1.5%float) "lines" false
    "topright".

(** [--device-area 10000x6000 --aspect -16:9 --full] and [--aspect 16:0] *)
Definition negative_aspect : Args float :=
  request (Some "10000x6000") "-16:9" None "mm" true "center".
Definition zero_aspect : Args float :=
  request (Some "10000x6000") "16:0" None "mm" true "center".

(** [--device-area 8000 --full] and [--device-area 1x2x3 --full] *)
Definition one_number : Args float :=
  request (Some "8000") "16:9" None "mm" true "center".
Definition three_numbers : Args float :=
  request (Some "1x2x3") "16:9" None "mm" true "center".

(** [--width 100 --height 50] *)
Definition both_sides : Args float :=
  {| args_device := None; args_aspect := "16:9"; args_device_area := None;
     args_device_resolution := 2540; args_width := Some 100%float;
     args_height := Some 50%float; args_unit := "mm"; args_full := false;
     args_align := "center"; args_v := false; args_dry_run := false |}.

End Sim.

(* ================================================================== *)
(** * What the specification says, in its own words *)
(* ================================================================== *)

Module Spec.

Local Open Scope Q_scope.

(** Section 4.4: round to the nearest integer, an exact half upward:
    [floor(x + 0.5)]. *)
Definition quantize (x : Q) : Z := Qfloor (x + (1 # 2)).

(** Section 4.3: the table of the nine alignments, with
    [centerOffsetX = (tabletArea.width - size.width)/2] and
    [fullOffsetX = tabletArea.width - size.width], and the same for Y. *)
Definition alignment_table (alignment : string)
    (tabletWidth tabletHeight width height : Q) : option (Q * Q) :=
  let centerX := (tabletWidth - width) / 2 in
  let fullX := tabletWidth - width in
  let centerY := (tabletHeight - height) / 2 in
  let fullY := tabletHeight - height in
  if String.eqb alignment "topleft" then Some (0, 0)
  else if String.eqb alignment "top" then Some (centerX, 0)
  else if String.eqb alignment "topright" then Some (fullX, 0)
  else if String.eqb alignment "left" then Some (0, centerY)
  else if String.eqb alignment "center" then Some (centerX, centerY)
  else if String.eqb alignment "right" then Some (fullX, centerY)
  else if String.eqb alignment "bottomleft" then Some (0, fullY)
  else if String.eqb alignment "bottom" then Some (centerX, fullY)
  else if String.eqb alignment "bottomright" then Some (fullX, fullY)
  else None.

End Spec.

(** ** Reading a trace *)

(** A command line that changes the device: [xsetwacom --set ...]. *)
Definition is_write (command : list string) : bool :=
  match command with
  | _ :: verb :: _ => String.eqb verb "--set"
  | _ => false
  end.

(** The device writes of a trace, in order. *)
Definition writes (commands : list (list string)) : list (list string) :=
  filter is_write commands.

(** The command of line 79, which restores the full area. *)
Definition reset_command (device : string) : list string :=
  [xsetwacom; "--set"; device; "Area"; reset_area].

(** The command of line 113, which assigns the computed area. *)
Definition area_command (device : string) (area : Z * Z * Z * Z) : list string :=
  let '(x1, y1, x2, y2) := area in
  [xsetwacom; "--set"; device; "Area";
   str_of_int x1 ++ " " ++ str_of_int y1 ++ " "
     ++ str_of_int x2 ++ " " ++ str_of_int y2].

(** ** Properties of a run *)

(** A computation that leaves the device as it is: whatever it runs, it
    adds no write to the trace. *)
Definition quiet {W A : Type} (c : M W A) : Prop :=
  forall s, writes (trace (snd (c s))) = writes (trace s).

(** What [prepare] may write: nothing, or the reset of line 79, and the
    reset only when the area is asked from the device outside a dry run. *)
Definition reset_only {F : Type} (args : Args F) (l : list (list string)) : Prop :=
  l = [] \/
  exists device, l = [reset_command device]
    /\ args_device_area args = None /\ args_dry_run args = false.

(** The two messages of lines 148 and 150 for the group
    [width, height, full]. *)
Definition used_together : string :=
  "the following arguments may not be used together: width, height".

Definition exactly_one : string :=
  "exactly one of the following arguments must be specified: width, height, full".

(** ** Further notions for the properties below *)

(** [c in s]. *)
Fixpoint occurs (c : ascii) (s : string) : bool :=
  match s with
  | EmptyString => false
  | String c' s' => Ascii.eqb c' c || occurs c s'
  end.

(** [d[k]] (lines 63 and 67), [None] for Python's [KeyError]. *)
Fixpoint dict_get {V} (k : string) (d : list (string * V)) : option V :=
  match d with
  | [] => None
  | (k', v) :: d' => if String.eqb k' k then Some v else dict_get k d'
  end.

(** A computation that never returns and leaves the device as it is. *)
Definition aborts_quietly {W A : Type} (c : M W A) : Prop :=
  forall s, (forall a, fst (c s) <> Ret a)
            /\ writes (trace (snd (c s))) = writes (trace s).

(** The four lines a dry run prints around the area query (lines 83-84 and
    95-96). *)
Definition dry_run_lines : list string :=
  ["WARNING: area calculations may be invalid -- dry run mode is enabled, could not set tablet to default area";
   "WARNING: use --device-area to manually specify the tablet area";
   "ERROR: DETECTED INVALID DEVICE AREA, CALCULATIONS WILL NOT BE CORRECT!";
   "ERROR: USE --device-area TO MANUALLY SPECIFY THE DEVICE AREA"].

(** ** Further command lines and tools *)

Module Cases.

(** [--device 11 --full]: a device the stand-in does not have. *)
Definition unknown_device : Args float :=
  {| args_device := Some "11"; args_aspect := "16:9"; args_device_area := None;
     args_device_resolution := 2540; args_width := None; args_height := None;
     args_unit := "mm"; args_full := true; args_align := "center";
     args_v := false; args_dry_run := false |}.

(** [--aspect 16/9 --full] *)
Definition slash_aspect : Args float :=
  Sim.request None "16/9" None "mm" true "center".

(** [--full --dry-run -v] *)
Definition dry_run_full : Args float :=
  {| args_device := None; args_aspect := "16:9"; args_device_area := None;
     args_device_resolution := 2540; args_width := None; args_height := None;
     args_unit := "mm"; args_full := true; args_align := "center";
     args_v := true; args_dry_run := true |}.

(** The stand-in on a machine without the tool. *)
Definition no_tool : Sim.tablet :=
  {| Sim.installed := false; Sim.full_area := (15200, 9500);
     Sim.area := (0, 0, 7600, 4275) |}.

(** A tool that prints nothing, whatever it is asked. *)
Definition silent (command : list string) (w : unit) : string * unit := ("", w).

(** [1] followed by 400 zeros: an [int] that Python accepts and that is
    beyond the range of [float]. *)
Definition huge : string :=
  String "1" (string_of_list_ascii (repeat "0"%char 400)).

(** [--device-area 10000x6000 --aspect 1000...0:1 --full] *)
Definition huge_aspect : Args float :=
  Sim.request (Some "10000x6000") (huge ++ ":1") None "mm" true "center".

(** A listing that names the id 10 twice, and a tool that prints it
    whatever it is asked. *)
Definition listing_twice : string :=
  "Pen stylus" ++ String TAB "id: 10" ++ String TAB "type: STYLUS"
    ++ String LF
         ("Pad" ++ String TAB "id: 11" ++ String TAB "type: PAD"
            ++ String LF
                 ("Pen eraser" ++ String TAB "id: 10" ++ String TAB "type: ERASER"
                    ++ String LF "")).

Definition relisting (command : list string) (w : unit) : string * unit :=
  (listing_twice, w).

End Cases.

(* ================================================================== *)
(** * Numerals: what [int] accepts, [float] reads as the same integer *)
(* ================================================================== *)

Lemma digit_of_range (c : ascii) (d : Z) : digit_of c = Some d -> 0 <= d <= 9.
Proof.
  unfold digit_of. destruct (_ && _)%bool eqn:E; [|discriminate].
  intros [= <-]. apply andb_true_iff in E. destruct E as [L U].
  apply N.leb_le in L, U. lia.
Qed.

Lemma digit_is_lower (c : ascii) (d : Z) : digit_of c = Some d -> lower c = c.
Proof.
  unfold digit_of, lower. destruct (_ && _)%bool eqn:E; [|discriminate].
  intros _. apply andb_true_iff in E. destruct E as [_ U]. apply N.leb_le in U.
  destruct ((65 <=? N_of_ascii c)%N && _)%bool eqn:E'; [|reflexivity].
  apply andb_true_iff in E'. destruct E' as [L' _]. apply N.leb_le in L'. lia.
Qed.

Lemma digits_nonneg (s : string) :
  forall acc n m k rest, 0 <= acc -> digits acc n s = (m, k, rest) -> 0 <= m.
Proof.
  induction s as [|c s IH]; intros acc n m k rest Hacc; cbn [digits].
  - intros [= <- _ _]. exact Hacc.
  - destruct (digit_of c) as [d|] eqn:D.
    + apply IH. pose proof (digit_of_range c d D). lia.
    + destruct (is_underscore c); [|intros [= <- _ _]; exact Hacc].
      destruct n; [intros [= <- _ _]; exact Hacc|].
      destruct s as [|c' s']; [intros [= <- _ _]; exact Hacc|].
      destruct (digit_of c'); [apply IH; exact Hacc | intros [= <- _ _]; exact Hacc].
Qed.

(** A run that has a digit starts with one. *)
Lemma digits_head (acc m : Z) (k : nat) (s rest : string) :
  digits acc 0 s = (m, S k, rest) ->
  exists c s' d, s = String c s' /\ digit_of c = Some d.
Proof.
  destruct s as [|c s']; cbn [digits]; [discriminate|].
  destruct (digit_of c) as [d|] eqn:D; [intros _; eauto|].
  destruct (is_underscore c); discriminate.
Qed.

(** A string that starts with a digit is none of [inf], [infinity], [nan]. *)
Lemma digit_head_not_special (c : ascii) (s : string) (d : Z) :
  digit_of c = Some d ->
  (String.eqb (lower_string (String c s)) "inf"
   || String.eqb (lower_string (String c s)) "infinity")%bool = false
  /\ String.eqb (lower_string (String c s)) "nan" = false.
Proof.
  intros D. cbn [lower_string]. rewrite (digit_is_lower c d D).
  cbn [String.eqb].
  assert (I : Ascii.eqb c "i" = false).
  { destruct (Ascii.eqb_spec c "i"); [subst; discriminate | reflexivity]. }
  assert (N : Ascii.eqb c "n" = false).
  { destruct (Ascii.eqb_spec c "n"); [subst; discriminate | reflexivity]. }
  rewrite I, N. split; reflexivity.
Qed.

Lemma float_numeral_of_int (s : string) (neg : bool) (m : Z) :
  int_parts s = Some (neg, m) -> float_numeral s = Some (Decimal neg m 0).
Proof.
  unfold int_parts, float_numeral.
  destruct (sign (trim s)) as [sg body].
  destruct (digits 0 0 body) as [[ip ni] rest] eqn:Dg.
  destruct ni as [|k]; [discriminate|].
  destruct rest; [|discriminate]. intros [= <- <-].
  destruct (digits_head _ _ _ _ _ Dg) as [c [s' [d [-> D]]]].
  destruct (digit_head_not_special c s' d D) as [-> ->].
  reflexivity.
Qed.

Lemma int_parts_nonneg (s : string) (neg : bool) (m : Z) :
  int_parts s = Some (neg, m) -> 0 <= m.
Proof.
  unfold int_parts. destruct (sign (trim s)) as [sg body].
  destruct (digits 0 0 body) as [[ip ni] rest] eqn:Dg.
  destruct ni; [discriminate|]. destruct rest; [|discriminate].
  intros [= _ <-]. apply (digits_nonneg _ _ _ _ _ _ (Z.le_refl 0) Dg).
Qed.

Lemma py_float_of_int {F} {arith : PyFloat F} (s : string) (neg : bool) (m : Z) :
  int_parts s = Some (neg, m) -> py_float s = Ret (of_decimal neg m 0).
Proof.
  intros H. unfold py_float. rewrite (float_numeral_of_int s neg m H). reflexivity.
Qed.

Lemma py_int_parts (s : string) :
  is_some (py_int s) = true ->
  exists neg m, int_parts s = Some (neg, m)
                /\ py_int s = Some (if neg then - m else m).
Proof.
  unfold py_int. destruct (int_parts s) as [[neg m]|]; [|discriminate].
  intros _. exists neg, m. split; reflexivity.
Qed.

(** X24: an aspect string passes the check of lines 161-166 exactly as
    a pair of integer numerals of either sign, zero included: it splits in
    two at the colon, [int] reads each part as plus or minus a magnitude
    that is not negative, and [convert_aspect] then returns the two floats
    nearest to those integers without raising.  Nothing checks that a
    component is positive. *)
Theorem valid_aspect_is_integer_pair {F} {arith : PyFloat F} (aspect : string) :
  aspect_valid aspect = true ->
  exists (width height : string) (nw nh : bool) (mw mh : Z),
    split_on ":" aspect = [width; height]
    /\ 0 <= mw /\ 0 <= mh
    /\ py_int width = Some (if nw then - mw else mw)
    /\ py_int height = Some (if nh then - mh else mh)
    /\ convert_aspect aspect = Ret (of_decimal nw mw 0, of_decimal nh mh 0).
Proof.
  unfold aspect_valid, convert_aspect.
  destruct (split_on ":" aspect) as [|width [|height [|]]]; try discriminate.
  intros H. apply andb_true_iff in H. destruct H as [Hw Hh].
  destruct (py_int_parts width Hw) as [nw [mw [Pw Iw]]].
  destruct (py_int_parts height Hh) as [nh [mh [Ph Ih]]].
  exists width, height, nw, nh, mw, mh.
  split; [reflexivity|].
  split; [exact (int_parts_nonneg _ _ _ Pw)|].
  split; [exact (int_parts_nonneg _ _ _ Ph)|].
  split; [exact Iw|]. split; [exact Ih|].
  rewrite (py_float_of_int width nw mw Pw), (py_float_of_int height nh mh Ph).
  reflexivity.
Qed.

Lemma valid_aspect_is_integer_pair_witness :
  aspect_valid "16:9" = true
  /\ exists (width height : string) (nw nh : bool) (mw mh : Z),
       split_on ":" "16:9" = [width; height]
       /\ 0 <= mw /\ 0 <= mh
       /\ py_int width = Some (if nw then - mw else mw)
       /\ py_int height = Some (if nh then - mh else mh)
       /\ convert_aspect (F := float) "16:9"
          = Ret (of_decimal nw mw 0, of_decimal nh mh 0).
Proof.
  split; [reflexivity|].
  apply (valid_aspect_is_integer_pair (F := float) "16:9"). reflexivity.
Defined.

(* ================================================================== *)
(** * Binary64 arithmetic is correctly rounded *)
(* ================================================================== *)

Section Binary64.

Local Open Scope Q_scope.

Lemma pow2_pos e : 0 < pow2 e.
Proof. apply Qpower_0_lt. reflexivity. Qed.

Lemma pow2_nonzero e : ~ pow2 e == 0.
Proof. intros H. pose proof (pow2_pos e) as P. rewrite H in P. discriminate. Qed.

Lemma pow2_add a b : pow2 (a + b) == pow2 a * pow2 b.
Proof. apply Qpower_plus. discriminate. Qed.

Lemma pow2_0 : pow2 0 == 1.
Proof. reflexivity. Qed.

Lemma pow2_succ e : pow2 (e + 1) == 2 * pow2 e.
Proof. rewrite pow2_add. change (pow2 1) with 2. ring. Qed.

Lemma pow2_opp e : pow2 (- e) * pow2 e == 1.
Proof. rewrite <- pow2_add. replace (- e + e)%Z with 0%Z by lia. reflexivity. Qed.

Lemma pow2_lt a b : (a < b)%Z -> pow2 a < pow2 b.
Proof. intros H. apply Qpower_lt_compat_l; [exact H | reflexivity]. Qed.

Lemma pow2_le a b : (a <= b)%Z -> pow2 a <= pow2 b.
Proof. intros H. apply Qpower_le_compat_l; [exact H | discriminate]. Qed.

Lemma pow2_lt_inv a b : pow2 a < pow2 b -> (a < b)%Z.
Proof. intros H. apply (Qpower_lt_compat_l_inv 2); [exact H | reflexivity]. Qed.

Lemma pow2_le_inv a b : pow2 a <= pow2 b -> (a <= b)%Z.
Proof. intros H. apply (Qpower_le_compat_l_inv 2); [exact H | reflexivity]. Qed.

Lemma pow2_Z e : (0 <= e)%Z -> pow2 e == inject_Z (2 ^ e).
Proof. intros H. rewrite Zpower_Qpower by exact H. reflexivity. Qed.

Lemma pow2_sub a b : pow2 (a - b) * pow2 b == pow2 a.
Proof. rewrite <- pow2_add. replace (a - b + b)%Z with a by lia. reflexivity. Qed.

(* inequalities scaled by a power of two *)
Lemma scale_le (x y : Q) (e : Z) : x <= y <-> x * pow2 e <= y * pow2 e.
Proof. symmetry. apply Qmult_le_r. apply pow2_pos. Qed.

Lemma scale_lt (x y : Q) (e : Z) : x < y <-> x * pow2 e < y * pow2 e.
Proof. symmetry. apply Qmult_lt_r. apply pow2_pos. Qed.

Lemma unscale (x : Q) (e : Z) : x * pow2 (- e) * pow2 e == x.
Proof. rewrite <- Qmult_assoc, pow2_opp. ring. Qed.

Lemma unscale' (x : Q) (e : Z) : x * pow2 e * pow2 (- e) == x.
Proof. rewrite <- Qmult_assoc, (Qmult_comm (pow2 e)), pow2_opp. ring. Qed.

(* ---------- Z <-> Q order *)
Lemma inj_le (a b : Z) : (a <= b)%Z -> inject_Z a <= inject_Z b.
Proof. rewrite Zle_Qle. auto. Qed.
Lemma inj_lt (a b : Z) : (a < b)%Z -> inject_Z a < inject_Z b.
Proof. rewrite Zlt_Qlt. auto. Qed.
Lemma inj_le_inv (a b : Z) : inject_Z a <= inject_Z b -> (a <= b)%Z.
Proof. rewrite Zle_Qle. auto. Qed.
Lemma inj_lt_inv (a b : Z) : inject_Z a < inject_Z b -> (a < b)%Z.
Proof. rewrite Zlt_Qlt. auto. Qed.

Lemma inject_Z_minus (a b : Z) : inject_Z (a - b) = inject_Z a - inject_Z b.
Proof. unfold Z.sub. rewrite inject_Z_plus, inject_Z_opp. reflexivity. Qed.

Lemma cmp_lt (p q : Q) : p < q -> (p ?= q) = Lt.
Proof. apply Qlt_alt. Qed.
Lemma cmp_gt (p q : Q) : q < p -> (p ?= q) = Gt.
Proof. apply Qgt_alt. Qed.
Lemma cmp_eq (p q : Q) : p == q -> (p ?= q) = Eq.
Proof. apply Qeq_alt. Qed.

(* ---------- round_half_even *)

Lemma Qfloor_unique (q : Q) (n : Z) :
  inject_Z n <= q -> q < inject_Z n + 1 -> Qfloor q = n.
Proof.
  intros L U. pose proof (Qfloor_le q) as F1. pose proof (Qlt_floor q) as F2.
  rewrite inject_Z_plus in F2. change (inject_Z 1) with 1 in F2.
  assert (inject_Z (Qfloor q) < inject_Z n + 1) by lra.
  assert (inject_Z n < inject_Z (Qfloor q) + 1) by lra.
  change 1 with (inject_Z 1) in H, H0. rewrite <- inject_Z_plus in H, H0.
  apply inj_lt_inv in H, H0. lia.
Qed.

Lemma rhe_cases (y : Q) (n : Z) (r : Q) :
  y == inject_Z n + r -> 0 <= r -> r < 1 ->
  round_half_even y =
  match r ?= 1 # 2 with
  | Lt => n
  | Gt => (n + 1)%Z
  | Eq => if Z.even n then n else (n + 1)%Z
  end.
Proof.
  intros E L U.
  assert (F : Qfloor y = n) by (apply Qfloor_unique; lra).
  unfold round_half_even. rewrite F.
  assert (R : y - inject_Z n == r) by lra.
  rewrite R. reflexivity.
Qed.

#[global] Instance rhe_comp : Proper (Qeq ==> eq) round_half_even.
Proof.
  intros p q E. unfold round_half_even. cbv zeta.
  rewrite (Qfloor_comp _ _ E).
  assert (C : (p - inject_Z (Qfloor q) ?= 1 # 2) = (q - inject_Z (Qfloor q) ?= 1 # 2)).
  { apply Qcompare_comp; [rewrite E; reflexivity | reflexivity]. }
  rewrite C. reflexivity.
Qed.

Lemma rhe_Z (n : Z) : round_half_even (inject_Z n) = n.
Proof.
  rewrite (rhe_cases (inject_Z n) n 0) by lra. reflexivity.
Qed.

Lemma rhe_floor (q : Q) :
  (Qfloor q <= round_half_even q <= Qfloor q + 1)%Z.
Proof.
  unfold round_half_even. destruct (_ ?= _); [destruct (Z.even _)|..]; lia.
Qed.

Lemma rhe_near (q : Q) :
  q - (1 # 2) <= inject_Z (round_half_even q)
  /\ inject_Z (round_half_even q) <= q + (1 # 2).
Proof.
  pose proof (Qfloor_le q) as F1. pose proof (Qlt_floor q) as F2.
  rewrite inject_Z_plus in F2. change (inject_Z 1) with 1 in F2.
  rewrite (rhe_cases q (Qfloor q) (q - inject_Z (Qfloor q))) by lra.
  destruct (q - inject_Z (Qfloor q) ?= 1 # 2) eqn:C.
  - apply Qeq_alt in C.
    destruct (Z.even (Qfloor q)); [|rewrite inject_Z_plus; change (inject_Z 1) with 1];
      split; lra.
  - apply Qlt_alt in C. split; lra.
  - apply Qgt_alt in C. rewrite inject_Z_plus. change (inject_Z 1) with 1. split; lra.
Qed.

Lemma rhe_mono (p q : Q) :
  p <= q -> (round_half_even p <= round_half_even q)%Z.
Proof.
  intros H. pose proof (Qfloor_resp_le p q H) as F.
  destruct (Z.eq_dec (Qfloor p) (Qfloor q)) as [E | N].
  - unfold round_half_even. rewrite E.
    assert (R : p - inject_Z (Qfloor q) <= q - inject_Z (Qfloor q)) by lra.
    destruct (Qcompare_spec (p - inject_Z (Qfloor q)) (1 # 2)) as [Cp | Cp | Cp];
      destruct (Qcompare_spec (q - inject_Z (Qfloor q)) (1 # 2)) as [Cq | Cq | Cq];
      try (destruct (Z.even (Qfloor q))); try lia; exfalso; lra.
  - pose proof (rhe_floor p). pose proof (rhe_floor q). lia.
Qed.

(* the nearest integer *)
Lemma rhe_nearest (q : Q) (j : Z) :
  Qabs (inject_Z (round_half_even q) - q) <= Qabs (inject_Z j - q).
Proof.
  destruct (rhe_near q) as [L U].
  set (n := round_half_even q) in *.
  destruct (Z.eq_dec j n) as [-> | N]; [apply Qle_refl|].
  apply Qabs_Qle_condition.
  assert (C : (j <= n - 1 \/ n + 1 <= j)%Z) by lia.
  destruct C as [C | C]; apply inj_le in C.
  - rewrite inject_Z_minus in C. change (inject_Z 1) with 1 in C.
    rewrite (Qabs_neg (inject_Z j - q)) by lra. split; lra.
  - rewrite inject_Z_plus in C. change (inject_Z 1) with 1 in C.
    rewrite (Qabs_pos (inject_Z j - q)) by lra. split; lra.
Qed.

Lemma rhe_opp (q : Q) : round_half_even (- q) = (- round_half_even q)%Z.
Proof.
  pose proof (Qfloor_le q) as F1. pose proof (Qlt_floor q) as F2.
  rewrite inject_Z_plus in F2. change (inject_Z 1) with 1 in F2.
  set (f := Qfloor q) in *.
  rewrite (rhe_cases q f (q - inject_Z f)) by lra.
  destruct (Qeq_dec q (inject_Z f)) as [E | N].
  - rewrite (rhe_cases (- q) (- f) 0); [| rewrite inject_Z_opp; lra | lra | lra].
    assert (C : (q - inject_Z f ?= 1 # 2) = Lt) by (apply cmp_lt; lra).
    rewrite C. reflexivity.
  - rewrite (rhe_cases (- q) (- f - 1) (1 - (q - inject_Z f)));
      [| rewrite inject_Z_minus, inject_Z_opp; change (inject_Z 1) with 1; lra
       | lra | lra].
    destruct (Qcompare_spec (q - inject_Z f) (1 # 2)) as [C | C | C].
    + assert (C' : (1 - (q - inject_Z f) ?= 1 # 2) = Eq) by (apply cmp_eq; lra).
      rewrite C'. replace (- f - 1)%Z with (- (f + 1))%Z by lia.
      rewrite Z.even_opp, Z.even_add. change (Z.even 1) with false.
      destruct (Z.even f); simpl; lia.
    + assert (C' : (1 - (q - inject_Z f) ?= 1 # 2) = Gt) by (apply cmp_gt; lra).
      rewrite C'. lia.
    + assert (C' : (1 - (q - inject_Z f) ?= 1 # 2) = Lt) by (apply cmp_lt; lra).
      rewrite C'. lia.
Qed.

Lemma rhe_nonneg (q : Q) : 0 <= q -> (0 <= round_half_even q)%Z.
Proof. intros H. rewrite <- (rhe_Z 0). apply rhe_mono. exact H. Qed.

(* ---------- mag *)

Lemma Zlog2_bounds (n : Z) :
  (0 < n)%Z -> pow2 (Z.log2 n) <= inject_Z n /\ inject_Z n < pow2 (Z.log2 n + 1).
Proof.
  intros H. destruct (Z.log2_spec n H) as [L U].
  pose proof (Z.log2_nonneg n) as N.
  rewrite !pow2_Z by lia. split; [apply inj_le; exact L | apply inj_lt].
  replace (Z.log2 n + 1)%Z with (Z.succ (Z.log2 n)) by lia. exact U.
Qed.

Lemma Qabs_num_den (q : Q) :
  Qabs q * inject_Z (Zpos (Qden q)) == inject_Z (Z.abs (Qnum q)).
Proof.
  destruct q as [n d]. unfold Qabs. cbn [Qnum Qden].
  unfold Qeq, Qmult, inject_Z. cbn [Qnum Qden]. 
  rewrite Pos2Z.inj_mul. ring.
Qed.

Lemma Qabs_zero_iff (q : Q) : Qabs q == 0 <-> q == 0.
Proof.
  split; intros H.
  - destruct (Qabs_Qle_condition q 0) as [A _]. 
    assert (L : Qabs q <= 0) by (rewrite H; apply Qle_refl).
    specialize (A L). lra.
  - rewrite H. reflexivity.
Qed.

Lemma mag_spec (q : Q) :
  ~ q == 0 -> pow2 (mag q - 1) <= Qabs q /\ Qabs q < pow2 (mag q).
Proof.
  intros N. unfold mag.
  destruct (Qeq_bool q 0) eqn:Z0; [apply Qeq_bool_iff in Z0; contradiction|].
  cbv zeta.
  set (n := Z.abs (Qnum q)). set (d := Zpos (Qden q)).
  assert (Hn : (0 < n)%Z).
  { subst n. assert (Qnum q <> 0)%Z; [|lia].
    intros E. apply N. destruct q as [x y]. cbn in E. subst x. reflexivity. }
  assert (Hd : (0 < d)%Z) by (subst d; lia).
  destruct (Zlog2_bounds n Hn) as [Ln Un]. destruct (Zlog2_bounds d Hd) as [Ld Ud].
  pose proof (Qabs_num_den q) as AD. fold n d in AD.
  set (a := Z.log2 n) in *. set (b := Z.log2 d) in *.
  set (A := Qabs q) in *. set (D := inject_Z d) in *. set (Nn := inject_Z n) in *.
  assert (Dpos : 0 < D) by (pose proof (pow2_pos b); lra).
  assert (U : A < pow2 (a - b + 1)).
  { apply (Qmult_lt_r _ _ D Dpos). rewrite AD.
    apply Qlt_le_trans with (pow2 (a + 1)); [exact Un|].
    replace (a + 1)%Z with ((a - b + 1) + b)%Z by lia. rewrite pow2_add.
    apply Qmult_le_l; [apply pow2_pos | exact Ld]. }
  assert (L : pow2 (a - b - 1) < A).
  { apply (Qmult_lt_r _ _ D Dpos). rewrite AD.
    apply Qlt_le_trans with (pow2 a); [|exact Ln].
    replace a with ((a - b - 1) + (b + 1))%Z at 2 by lia. rewrite pow2_add.
    apply Qmult_lt_l; [apply pow2_pos | exact Ud]. }
  destruct (Qle_bool (pow2 (a - b)) A) eqn:C.
  - apply Qle_bool_iff in C. replace (a - b + 1 - 1)%Z with (a - b)%Z by lia.
    split; assumption.
  - assert (C' : A < pow2 (a - b)).
    { apply Qnot_le_lt. intros H. apply Qle_bool_iff in H. congruence. }
    split; [apply Qlt_le_weak; exact L | exact C'].
Qed.

Lemma mag_unique (q : Q) (k : Z) :
  pow2 (k - 1) <= Qabs q -> Qabs q < pow2 k -> mag q = k.
Proof.
  intros L U.
  assert (N : ~ q == 0).
  { intros E. apply Qabs_zero_iff in E. pose proof (pow2_pos (k - 1)). lra. }
  destruct (mag_spec q N) as [L' U'].
  assert (pow2 (k - 1) < pow2 (mag q)) by lra.
  assert (pow2 (mag q - 1) < pow2 k) by lra.
  apply pow2_lt_inv in H, H0. lia.
Qed.

#[global] Instance mag_comp : Proper (Qeq ==> eq) mag.
Proof.
  intros p q E. destruct (Qeq_dec q 0) as [Z0 | N].
  - unfold mag. 
    assert (Qeq_bool p 0 = true) by (apply Qeq_bool_iff; rewrite E; exact Z0).
    assert (Qeq_bool q 0 = true) by (apply Qeq_bool_iff; exact Z0).
    rewrite H, H0. reflexivity.
  - destruct (mag_spec q N) as [L U]. apply mag_unique; rewrite E; assumption.
Qed.

Lemma mag_opp (q : Q) : mag (- q) = mag q.
Proof.
  destruct (Qeq_dec q 0) as [Z0 | N].
  - rewrite Z0. reflexivity.
  - destruct (mag_spec q N) as [L U]. apply mag_unique; rewrite Qabs_opp; assumption.
Qed.

Lemma mag_le (p q : Q) : 0 < p -> p <= q -> (mag p <= mag q)%Z.
Proof.
  intros P L.
  assert (Np : ~ p == 0) by lra. assert (Nq : ~ q == 0) by lra.
  destruct (mag_spec p Np) as [Lp Up]. destruct (mag_spec q Nq) as [Lq Uq].
  rewrite Qabs_pos in * by lra.
  assert (pow2 (mag p - 1) < pow2 (mag q)) by lra.
  apply pow2_lt_inv in H. lia.
Qed.

(** the magnitude of [m * 2^e] *)
Lemma mag_scaled (m e k : Z) :
  (0 < m)%Z -> (2 ^ (k - 1) <= m < 2 ^ k)%Z -> (1 <= k)%Z ->
  mag (inject_Z m * pow2 e) = (k + e)%Z.
Proof.
  intros P [L U] K. apply mag_unique.
  - rewrite Qabs_pos.
    + replace (k + e - 1)%Z with ((k - 1) + e)%Z by lia. rewrite pow2_add.
      apply Qmult_le_r; [apply pow2_pos|]. rewrite pow2_Z by lia. apply inj_le. exact L.
    + apply Qmult_le_0_compat; [apply (inj_le 0); lia | apply Qlt_le_weak, pow2_pos].
  - rewrite Qabs_pos.
    + rewrite pow2_add. apply Qmult_lt_r; [apply pow2_pos|].
      rewrite pow2_Z by lia. apply inj_lt. exact U.
    + apply Qmult_le_0_compat; [apply (inj_le 0); lia | apply Qlt_le_weak, pow2_pos].
Qed.

(* ---------- rnd *)

Lemma fexp64_eq (k : Z) : fexp64 k = Z.max (k - 53) (-1074).
Proof. reflexivity. Qed.

Lemma Qabs_scale (x : Q) (e : Z) : Qabs (x * pow2 e) == Qabs x * pow2 e.
Proof.
  rewrite Qabs_Qmult. rewrite (Qabs_pos (pow2 e)); [reflexivity|].
  apply Qlt_le_weak, pow2_pos.
Qed.

#[global] Instance rnd_comp : Proper (Qeq ==> Qeq) rnd.
Proof.
  intros p q E. unfold rnd. rewrite (mag_comp _ _ E).
  assert (R : round_half_even (p * pow2 (- fexp64 (mag q)))
              = round_half_even (q * pow2 (- fexp64 (mag q)))).
  { apply rhe_comp. rewrite E. reflexivity. }
  rewrite R. reflexivity.
Qed.

Lemma rnd_0 : rnd 0 == 0.
Proof. reflexivity. Qed.

Lemma rnd_opp (q : Q) : rnd (- q) == - rnd q.
Proof.
  unfold rnd. rewrite mag_opp.
  assert (R : round_half_even (- q * pow2 (- fexp64 (mag q)))
              = (- round_half_even (q * pow2 (- fexp64 (mag q))))%Z).
  { rewrite <- rhe_opp. apply rhe_comp. ring. }
  rewrite R, inject_Z_opp. ring.
Qed.

(** [rnd q] is the multiple of [2^E] nearest to [q]. *)
Lemma rnd_grid (q : Q) (j : Z) :
  Qabs (rnd q - q) <= Qabs (inject_Z j * pow2 (fexp64 (mag q)) - q).
Proof.
  unfold rnd. set (E := fexp64 (mag q)). set (t := q * pow2 (- E)).
  pose proof (rhe_nearest t j) as H.
  apply (Qmult_le_r _ _ (pow2 E) (pow2_pos E)) in H.
  rewrite <- !Qabs_scale in H.
  assert (T : t * pow2 E == q) by (unfold t; apply unscale).
  assert (E1 : (inject_Z (round_half_even t) - t) * pow2 E
               == inject_Z (round_half_even t) * pow2 E - q) by (rewrite <- T; ring).
  assert (E2 : (inject_Z j - t) * pow2 E == inject_Z j * pow2 E - q)
    by (rewrite <- T; ring).
  rewrite E1, E2 in H. exact H.
Qed.

Lemma rnd_err (q : Q) :
  Qabs (rnd q - q) <= pow2 (fexp64 (mag q) - 1).
Proof.
  unfold rnd. set (E := fexp64 (mag q)). set (t := q * pow2 (- E)).
  destruct (rhe_near t) as [L U].
  assert (T : t * pow2 E == q) by (unfold t; apply unscale).
  assert (P : pow2 E == 2 * pow2 (E - 1)).
  { rewrite <- pow2_succ. replace (E - 1 + 1)%Z with E by lia. reflexivity. }
  apply (Qmult_le_r _ _ (pow2 E) (pow2_pos E)) in L, U.
  apply Qabs_Qle_condition. split.
  - assert ((t - (1 # 2)) * pow2 E == q - pow2 (E - 1)) by (rewrite <- T, P; ring).
    lra.
  - assert ((t + (1 # 2)) * pow2 E == q + pow2 (E - 1)) by (rewrite <- T, P; ring).
    lra.
Qed.

Lemma Zlog2_digits (m : Z) :
  (0 < m)%Z -> (2 ^ (Z.log2 m + 1 - 1) <= m < 2 ^ (Z.log2 m + 1))%Z.
Proof.
  intros H. destruct (Z.log2_spec m H) as [L U].
  replace (Z.log2 m + 1 - 1)%Z with (Z.log2 m) by lia.
  replace (Z.log2 m + 1)%Z with (Z.succ (Z.log2 m)) by lia. lia.
Qed.

Lemma rnd_exact_pos (m e : Z) :
  (0 < m < 2 ^ 53)%Z -> (-1074 <= e)%Z ->
  rnd (inject_Z m * pow2 e) == inject_Z m * pow2 e.
Proof.
  intros [P B] He. unfold rnd.
  pose proof (Z.log2_nonneg m) as L0.
  assert (K : (Z.log2 m < 53)%Z) by (apply Z.log2_lt_pow2; lia).
  rewrite (mag_scaled m e (Z.log2 m + 1) P (Zlog2_digits m P)) by lia.
  rewrite fexp64_eq. set (E := Z.max (Z.log2 m + 1 + e - 53) (-1074)).
  assert (HE : (E <= e)%Z) by (subst E; lia).
  assert (S : inject_Z m * pow2 e * pow2 (- E) == inject_Z (m * 2 ^ (e - E))).
  { rewrite inject_Z_mult, <- (pow2_Z (e - E)) by lia.
    rewrite <- Qmult_assoc, <- pow2_add. replace (e + - E)%Z with (e - E)%Z by lia.
    reflexivity. }
  rewrite (rhe_comp _ _ S), rhe_Z, inject_Z_mult, <- (pow2_Z (e - E)) by lia.
  rewrite <- Qmult_assoc, pow2_sub. reflexivity.
Qed.

Lemma rnd_exact (f : Q) : representable f -> rnd f == f.
Proof.
  intros [m [e [He [Hm Hf]]]]. rewrite Hf.
  destruct (Z.lt_trichotomy m 0) as [N | [Z0 | P]].
  - assert (R : inject_Z m * pow2 e == - (inject_Z (- m) * pow2 e))
      by (rewrite inject_Z_opp; ring).
    rewrite R, rnd_opp, rnd_exact_pos by lia. reflexivity.
  - subst m. assert (R : inject_Z 0 * pow2 e == 0) by ring.
    rewrite R. reflexivity.
  - apply rnd_exact_pos; lia.
Qed.

(** No representable number lies closer to [q] than [rnd q]. *)
Lemma rnd_nearest (q f : Q) :
  representable f -> Qabs (rnd q - q) <= Qabs (f - q).
Proof.
  intros [m [e [He [Hm Hf]]]].
  destruct (Qeq_dec q 0) as [Z0 | N].
  - rewrite Z0, rnd_0. setoid_replace (0 - 0) with 0 by ring.
    apply Qabs_nonneg.
  - set (E := fexp64 (mag q)). destruct (Z_le_gt_dec E e) as [Le | Gt].
    + assert (G : f == inject_Z (m * 2 ^ (e - E)) * pow2 E).
      { rewrite Hf, inject_Z_mult, <- (pow2_Z (e - E)) by lia.
        rewrite <- Qmult_assoc, pow2_sub. reflexivity. }
      rewrite G. apply rnd_grid.
    + (* f is below the binade of q *)
      destruct (mag_spec q N) as [Lq Uq]. set (k := mag q) in *.
      assert (HE : E = (k - 53)%Z) by (subst E; rewrite fexp64_eq in *; fold k in Gt |- *; lia).
      assert (Fb : Qabs f < pow2 (k - 1)).
      { rewrite Hf, Qabs_scale.
        apply Qlt_le_trans with (pow2 53 * pow2 e).
        - apply Qmult_lt_r; [apply pow2_pos|].
          rewrite pow2_Z by lia.
          assert (A : Qabs (inject_Z m) == inject_Z (Z.abs m)) by reflexivity.
          rewrite A. apply inj_lt. exact Hm.
        - rewrite <- pow2_add. apply pow2_le. lia. }
      assert (G : pow2 (k - 1) == inject_Z (2 ^ 52) * pow2 E).
      { rewrite <- pow2_Z, <- pow2_add by lia. rewrite HE.
        replace (52 + (k - 53))%Z with (k - 1)%Z by lia. reflexivity. }
      destruct (Qlt_le_dec q 0) as [Neg | Pos].
      * rewrite (Qabs_neg q) in Lq by lra.
        apply Qle_trans with (Qabs (inject_Z (- 2 ^ 52) * pow2 E - q)); [apply rnd_grid|].
        rewrite inject_Z_opp.
        assert (F1 : - pow2 (k - 1) < f).
        { apply Qabs_Qlt_condition in Fb. lra. }
        rewrite (Qabs_pos (- inject_Z (2 ^ 52) * pow2 E - q)) by lra.
        rewrite (Qabs_pos (f - q)) by lra. lra.
      * rewrite (Qabs_pos q) in Lq by lra.
        apply Qle_trans with (Qabs (inject_Z (2 ^ 52) * pow2 E - q)); [apply rnd_grid|].
        assert (F1 : f < pow2 (k - 1)).
        { apply Qabs_Qlt_condition in Fb. lra. }
        rewrite (Qabs_neg (inject_Z (2 ^ 52) * pow2 E - q)) by lra.
        rewrite (Qabs_neg (f - q)) by lra. lra.
Qed.

Lemma rnd_nonneg (q : Q) : 0 <= q -> 0 <= rnd q.
Proof.
  intros H. unfold rnd.
  apply Qmult_le_0_compat; [|apply Qlt_le_weak, pow2_pos].
  apply (inj_le 0). apply rhe_nonneg.
  apply Qmult_le_0_compat; [exact H | apply Qlt_le_weak, pow2_pos].
Qed.

Lemma rnd_mono_pos (p q : Q) : 0 < p -> p <= q -> rnd p <= rnd q.
Proof.
  intros P L.
  assert (Np : ~ p == 0) by lra. assert (Nq : ~ q == 0) by lra.
  destruct (mag_spec p Np) as [Lp Up]. destruct (mag_spec q Nq) as [Lq Uq].
  rewrite (Qabs_pos p) in Lp, Up by lra. rewrite (Qabs_pos q) in Lq, Uq by lra.
  pose proof (mag_le p q P L) as M.
  set (kp := mag p) in *. set (kq := mag q) in *.
  unfold rnd. fold kp kq. rewrite !fexp64_eq.
  set (Ep := Z.max (kp - 53) (-1074)). set (Eq := Z.max (kq - 53) (-1074)).
  destruct (Z.eq_dec Ep Eq) as [Same | Diff].
  - rewrite Same. apply Qmult_le_r; [apply pow2_pos|]. apply inj_le, rhe_mono.
    apply Qmult_le_r; [apply pow2_pos | exact L].
  - assert (HEq : Eq = (kq - 53)%Z) by (subst Ep Eq; lia).
    assert (Kpq : (kp <= kq - 1)%Z) by (subst Ep Eq; lia).
    (* rnd q is at least 2^(kq-1) *)
    apply Qle_trans with (pow2 (kq - 1)).
    + destruct (Z_le_gt_dec Ep kp) as [Int | Sub].
      * (* rnd p <= 2^kp *)
        apply Qle_trans with (pow2 kp); [|apply pow2_le; lia].
        assert (G : pow2 kp == inject_Z (2 ^ (kp - Ep)) * pow2 Ep).
        { rewrite <- pow2_Z by lia. apply Qeq_sym, pow2_sub. }
        rewrite G. apply Qmult_le_r; [apply pow2_pos|]. apply inj_le.
        rewrite <- (rhe_Z (2 ^ (kp - Ep))). apply rhe_mono.
        rewrite <- (pow2_Z (kp - Ep)) by lia.
        apply (Qmult_le_r _ _ (pow2 Ep) (pow2_pos Ep)).
        rewrite unscale, pow2_sub. lra.
      * (* p is below half the least subnormal *)
        assert (R : round_half_even (p * pow2 (- Ep)) = 0%Z).
        { assert (T : p * pow2 (- Ep) < 1 # 2).
          { apply (Qmult_lt_r _ _ (pow2 Ep) (pow2_pos Ep)). rewrite unscale.
            apply Qlt_le_trans with (pow2 kp); [exact Up|].
            apply Qle_trans with (pow2 (Ep - 1)); [apply pow2_le; lia|].
            assert (X : pow2 Ep == 2 * pow2 (Ep - 1)).
            { rewrite <- pow2_succ. replace (Ep - 1 + 1)%Z with Ep by lia. reflexivity. }
            rewrite X. pose proof (pow2_pos (Ep - 1)). lra. }
          assert (T0 : 0 <= p * pow2 (- Ep)).
          { apply Qmult_le_0_compat; [lra | apply Qlt_le_weak, pow2_pos]. }
          rewrite (rhe_cases _ 0 (p * pow2 (- Ep))); [| change (inject_Z 0) with 0; lra | lra | lra].
          rewrite (cmp_lt _ _ T). reflexivity. }
        rewrite R. pose proof (pow2_pos (kq - 1)). change (inject_Z 0) with 0. lra.
    + assert (G : pow2 (kq - 1) == inject_Z (2 ^ 52) * pow2 Eq).
      { rewrite <- pow2_Z, <- pow2_add by lia. rewrite HEq.
        replace (52 + (kq - 53))%Z with (kq - 1)%Z by lia. reflexivity. }
      rewrite G. apply Qmult_le_r; [apply pow2_pos|]. apply inj_le.
      rewrite <- (rhe_Z (2 ^ 52)) at 1. apply rhe_mono.
      apply (Qmult_le_r _ _ (pow2 Eq) (pow2_pos Eq)).
      rewrite unscale, <- G. exact Lq.
Qed.

Lemma rnd_mono (p q : Q) : p <= q -> rnd p <= rnd q.
Proof.
  intros L.
  destruct (Qlt_le_dec 0 p) as [Pp | Np].
  - apply rnd_mono_pos; assumption.
  - destruct (Qlt_le_dec q 0) as [Nq | Pq].
    + assert (H : rnd (- q) <= rnd (- p)) by (apply rnd_mono_pos; lra).
      rewrite !rnd_opp in H. lra.
    + assert (H1 : 0 <= rnd q) by (apply rnd_nonneg; exact Pq).
      assert (H2 : 0 <= rnd (- p)) by (apply rnd_nonneg; lra).
      rewrite rnd_opp in H2. lra.
Qed.

(** The relative error of rounding in the normal range, and of rounding
    a multiple of the least subnormal anywhere. *)
Lemma rnd_rel_normal (q : Q) :
  pow2 (-1022) <= Qabs q -> Qabs (rnd q - q) <= pow2 (-53) * Qabs q.
Proof.
  intros H.
  assert (N : ~ q == 0).
  { intros E. apply Qabs_zero_iff in E. pose proof (pow2_pos (-1022)). lra. }
  destruct (mag_spec q N) as [L U]. set (k := mag q) in *.
  assert (K : (-1022 < k)%Z).
  { apply pow2_lt_inv. lra. }
  apply Qle_trans with (pow2 (fexp64 k - 1)); [apply rnd_err|].
  rewrite fexp64_eq. replace (Z.max (k - 53) (-1074) - 1)%Z with (-53 + (k - 1))%Z by lia.
  rewrite pow2_add. apply Qmult_le_l; [apply pow2_pos | exact L].
Qed.

Lemma rnd_rel_grid (q : Q) (j : Z) :
  q == inject_Z j * pow2 (-1074) -> Qabs (rnd q - q) <= pow2 (-53) * Qabs q.
Proof.
  intros G.
  destruct (Qlt_le_dec (Qabs q) (pow2 (-1022))) as [Small | Normal];
    [|apply rnd_rel_normal; exact Normal].
  assert (R : rnd q == q).
  { apply rnd_exact. exists j, (-1074)%Z. split; [lia|]. split; [|exact G].
    rewrite G, Qabs_scale in Small.
    assert (A : Qabs (inject_Z j) == inject_Z (Z.abs j)) by reflexivity.
    rewrite A in Small.
    assert (inject_Z (Z.abs j) < pow2 52).
    { apply (Qmult_lt_r _ _ (pow2 (-1074)) (pow2_pos _)).
      rewrite <- pow2_add. exact Small. }
    rewrite pow2_Z in H by lia. apply inj_lt_inv in H. lia. }
  rewrite R. setoid_replace (q - q) with 0 by ring.
  apply Qmult_le_0_compat; [apply Qlt_le_weak, pow2_pos | apply Qabs_nonneg].
Qed.

(* ================================================================ *)
(* SpecFloat: the rounding algorithm *)

(* ---------- digits *)

Lemma digits2_pos_spec (p : positive) :
  (2 ^ (Zpos (digits2_pos p) - 1) <= Zpos p < 2 ^ Zpos (digits2_pos p))%Z.
Proof.
  induction p as [p IH | p IH |]; cbn [digits2_pos].
  - rewrite Pos2Z.inj_succ.
    replace (Z.succ (Zpos (digits2_pos p)) - 1)%Z with (Z.succ (Zpos (digits2_pos p) - 1)) by lia.
    rewrite !Z.pow_succ_r by lia. lia.
  - rewrite Pos2Z.inj_succ.
    replace (Z.succ (Zpos (digits2_pos p)) - 1)%Z with (Z.succ (Zpos (digits2_pos p) - 1)) by lia.
    rewrite !Z.pow_succ_r by lia. lia.
  - cbn. lia.
Qed.

Lemma Zdigits2_spec (m : Z) :
  (0 < m)%Z -> (2 ^ (Zdigits2 m - 1) <= m < 2 ^ Zdigits2 m)%Z /\ (1 <= Zdigits2 m)%Z.
Proof.
  intros H. destruct m as [|p|p]; try lia. cbn [Zdigits2].
  split; [apply digits2_pos_spec | lia].
Qed.

Lemma Zdigits2_unique (m k : Z) :
  (0 < m)%Z -> (2 ^ (k - 1) <= m < 2 ^ k)%Z -> Zdigits2 m = k.
Proof.
  intros P [L U]. destruct (Zdigits2_spec m P) as [[L' U'] D].
  assert (K : (0 < k)%Z).
  { destruct (Z_lt_le_dec 0 k); [assumption|].
    rewrite (Z.pow_neg_r 2 (k - 1)) in L by lia.
    destruct (Z.eq_dec k 0) as [-> | N]; [cbn in U; lia|].
    rewrite (Z.pow_neg_r 2 k) in U by lia. lia. }
  assert (A : (2 ^ (k - 1) < 2 ^ Zdigits2 m)%Z) by lia.
  assert (B : (2 ^ (Zdigits2 m - 1) < 2 ^ k)%Z) by lia.
  apply Z.pow_lt_mono_r_iff in A; [|lia|lia].
  apply Z.pow_lt_mono_r_iff in B; [|lia|lia]. lia.
Qed.

Lemma Zdigits2_nonneg (m : Z) : (0 <= Zdigits2 m)%Z.
Proof. destruct m; cbn; lia. Qed.

Lemma Zdigits2_le_pow (m k : Z) :
  (0 <= m)%Z -> (0 <= k)%Z -> (m <= 2 ^ k)%Z -> (Zdigits2 m <= k + 1)%Z.
Proof.
  intros P K U. destruct (Z.eq_dec m 0) as [-> | N]; [cbn; lia|].
  destruct (Zdigits2_spec m) as [[L' U'] D]; [lia|].
  assert (A : (2 ^ (Zdigits2 m - 1) < 2 ^ (k + 1))%Z).
  { rewrite (Z.pow_add_r 2 k 1) by lia. lia. }
  apply Z.pow_lt_mono_r_iff in A; lia.
Qed.

Lemma Zdigits2_ge_pow (m k : Z) :
  (0 <= k)%Z -> (2 ^ k <= m)%Z -> (k + 1 <= Zdigits2 m)%Z.
Proof.
  intros K L. assert (P : (0 < m)%Z) by (pose proof (Z.pow_pos_nonneg 2 k); lia).
  destruct (Zdigits2_spec m P) as [[L' U'] D].
  assert (A : (2 ^ k < 2 ^ Zdigits2 m)%Z) by lia.
  apply Z.pow_lt_mono_r_iff in A; lia.
Qed.

(** [pow2 (d - 1) <= m < pow2 d] for the number of digits [d] of [m] *)
Lemma digits_Q (m : Z) :
  (0 < m)%Z ->
  pow2 (Zdigits2 m - 1) <= inject_Z m /\ inject_Z m + 1 <= pow2 (Zdigits2 m).
Proof.
  intros P. destruct (Zdigits2_spec m P) as [[L U] D].
  rewrite !pow2_Z by lia. split; [apply inj_le; exact L|].
  change 1 with (inject_Z 1). rewrite <- inject_Z_plus. apply inj_le. lia.
Qed.

(* ---------- locations *)

Lemma loc_of_record (m : Z) (l : location) :
  shr_m (shr_record_of_loc m l) = m
  /\ loc_of_shr_record (shr_record_of_loc m l) = l.
Proof. destruct l as [|[| |]]; split; reflexivity. Qed.

Lemma located_comp (mrs : shr_record) (x y : Q) :
  x == y -> located mrs x -> located mrs y.
Proof.
  intros E [P [L [U H]]]. unfold located, loc_of in *.
  split; [exact P|]. split; [lra|]. split; [lra|].
  rewrite H.
  assert (B : Qeq_bool x (inject_Z (shr_m mrs)) = Qeq_bool y (inject_Z (shr_m mrs))).
  { destruct (Qeq_bool y _) eqn:C.
    - apply Qeq_bool_iff. apply Qeq_bool_iff in C. lra.
    - destruct (Qeq_bool x _) eqn:C'; [|reflexivity].
      apply Qeq_bool_iff in C'. apply Qeq_bool_neq in C. exfalso. apply C. lra. }
  rewrite B. destruct (Qeq_bool y _); [reflexivity|]. f_equal.
  apply Qcompare_comp; [rewrite E; reflexivity | reflexivity].
Qed.

(** Deciding a location from the position of [x] after [m]. *)
Lemma loc_of_exact (m : Z) (x : Q) : x == inject_Z m -> loc_of m x = loc_Exact.
Proof.
  intros E. unfold loc_of.
  assert (B : Qeq_bool x (inject_Z m) = true) by (apply Qeq_bool_iff; exact E).
  rewrite B. reflexivity.
Qed.

Lemma loc_of_inexact (m : Z) (x : Q) (c : comparison) :
  ~ x == inject_Z m -> (x - inject_Z m ?= 1 # 2) = c -> loc_of m x = loc_Inexact c.
Proof.
  intros N C. unfold loc_of.
  destruct (Qeq_bool x (inject_Z m)) eqn:B; [apply Qeq_bool_iff in B; contradiction|].
  rewrite C. reflexivity.
Qed.

Lemma loc_of_inv (m : Z) (x : Q) :
  match loc_of m x with
  | loc_Exact => x == inject_Z m
  | loc_Inexact Lt => ~ x == inject_Z m /\ x - inject_Z m < 1 # 2
  | loc_Inexact Eq => x - inject_Z m == 1 # 2
  | loc_Inexact Gt => 1 # 2 < x - inject_Z m
  end.
Proof.
  unfold loc_of. destruct (Qeq_bool x (inject_Z m)) eqn:B.
  - apply Qeq_bool_iff in B. exact B.
  - apply Qeq_bool_neq in B.
    destruct (Qcompare_spec (x - inject_Z m) (1 # 2)) as [C | C | C].
    + exact C.
    + split; assumption.
    + exact C.
Qed.

Lemma half_Z (p : positive) :
  inject_Z (Zpos p~0) == 2 * inject_Z (Zpos p)
  /\ inject_Z (Zpos p~1) == 2 * inject_Z (Zpos p) + 1.
Proof.
  split.
  - change (Zpos p~0) with (2 * Zpos p)%Z. rewrite inject_Z_mult. reflexivity.
  - change (Zpos p~1) with (2 * Zpos p + 1)%Z. rewrite inject_Z_plus, inject_Z_mult.
    reflexivity.
Qed.

Lemma shr_1_step (m m' : Z) (r s b : bool) (x : Q) :
  inject_Z m == 2 * inject_Z m' + (if b then 1 else 0) -> (0 <= m')%Z ->
  located (Build_shr_record m r s) x ->
  located (Build_shr_record m' b (r || s)) (x * (1 # 2)).
Proof.
  intros E P' [P [L [U H]]]. cbn [shr_m] in *.
  pose proof (loc_of_inv m x) as I. rewrite <- H in I. clear H.
  unfold located. cbn [shr_m].
  split; [exact P'|].
  split; [destruct b; lra|]. split; [destruct b; lra|].
  symmetry.
  destruct b, r, s; cbn [loc_of_shr_record orb] in *;
    first [ apply loc_of_exact; lra
          | apply loc_of_inexact;
            [lra | first [apply cmp_lt; lra | apply cmp_eq; lra | apply cmp_gt; lra]] ].
Qed.

Lemma shr_1_located (mrs : shr_record) (x : Q) :
  located mrs x -> located (shr_1 mrs) (x * (1 # 2)).
Proof.
  intros H. pose proof H as [P _]. destruct mrs as [m r s]. cbn [shr_m] in P.
  destruct m as [|[p|p|]|p]; try lia; cbn [shr_1].
  - apply (shr_1_step 0 0 r s false); [reflexivity|lia|exact H].
  - apply (shr_1_step (Zpos p~1) (Zpos p) r s true); [|lia|exact H].
    apply (proj2 (half_Z p)).
  - apply (shr_1_step (Zpos p~0) (Zpos p) r s false); [|lia|exact H].
    rewrite (proj1 (half_Z p)). ring.
  - apply (shr_1_step 1 0 r s true); [reflexivity|lia|exact H].
Qed.

Lemma iter_shr_1_located (p : positive) :
  forall (mrs : shr_record) (x : Q),
    located mrs x -> located (iter_pos shr_1 p mrs) (x * pow2 (- Zpos p)).
Proof.
  induction p as [p IH | p IH |]; intros mrs x H; cbn [iter_pos].
  - apply (located_comp _ (x * (1 # 2) * pow2 (- Zpos p) * pow2 (- Zpos p))).
    + replace (- Zpos p~1)%Z with (-1 + (- Zpos p + - Zpos p))%Z by lia.
      rewrite !pow2_add. change (pow2 (-1)) with (1 # 2). ring.
    + apply IH, IH, shr_1_located, H.
  - apply (located_comp _ (x * pow2 (- Zpos p) * pow2 (- Zpos p))).
    + replace (- Zpos p~0)%Z with (- Zpos p + - Zpos p)%Z by lia.
      rewrite !pow2_add. ring.
    + apply IH, IH, H.
  - apply (located_comp _ (x * (1 # 2))); [reflexivity|].
    apply shr_1_located, H.
Qed.

Lemma shr_located (mrs : shr_record) (e n : Z) (x : Q) :
  located mrs x -> (0 <= n)%Z ->
  snd (shr mrs e n) = (e + n)%Z /\ located (fst (shr mrs e n)) (x * pow2 (- n)).
Proof.
  intros H N. destruct n as [|p|p]; try lia; cbn [shr fst snd].
  - split; [lia|]. apply (located_comp _ x); [|exact H].
    change (pow2 (- 0)) with 1. ring.
  - split; [reflexivity|]. apply iter_shr_1_located, H.
Qed.

Lemma round_located (mrs : shr_record) (x : Q) :
  located mrs x ->
  round_nearest_even (shr_m mrs) (loc_of_shr_record mrs) = round_half_even x.
Proof.
  intros [P [L [U H]]]. rewrite H.
  pose proof (loc_of_inv (shr_m mrs) x) as I.
  rewrite (rhe_cases x (shr_m mrs) (x - inject_Z (shr_m mrs))) by lra.
  destruct (loc_of (shr_m mrs) x) as [|[| |]]; cbn [round_nearest_even].
  - rewrite cmp_lt by lra. reflexivity.
  - rewrite cmp_eq by lra. reflexivity.
  - rewrite cmp_lt by lra. reflexivity.
  - rewrite cmp_gt by lra. reflexivity.
Qed.

(* ---------- binary_round_aux *)

Lemma rnd_at (a : Q) (E : Z) :
  fexp64 (mag a) = E ->
  rnd a == inject_Z (round_half_even (a * pow2 (- E))) * pow2 E.
Proof. intros <-. reflexivity. Qed.

Lemma bra_magnitude (s : bool) (mx ex : Z) (lx : location) (x : Q) :
  located (shr_record_of_loc mx lx) x -> 0 < x ->
  (ex <= fexp64 (Zdigits2 mx + ex))%Z ->
  match binary_round_aux prec emax s mx ex lx with
  | S754_zero s' => s' = s /\ rnd (x * pow2 ex) == 0
  | S754_finite s' m e =>
      s' = s /\ bounded prec emax m e = true
      /\ inject_Z (Zpos m) * pow2 e == rnd (x * pow2 ex)
  | S754_infinity s' => s' = s /\ pow2 1024 <= rnd (x * pow2 ex)
  | S754_nan => False
  end.
Proof.
  intros Hloc Xpos Hex.
  destruct (loc_of_record mx lx) as [Rm Rl].
  pose proof Hloc as [P [L [U _]]]. rewrite Rm in P, L, U.
  set (d := Zdigits2 mx) in *. set (E := fexp64 (d + ex)) in *.
  set (a := x * pow2 ex).
  assert (Apos : 0 < a) by (apply Qmult_lt_0_compat; [exact Xpos | apply pow2_pos]).
  assert (HE : E = Z.max (d + ex - 53) (-1074)) by (subst E; apply fexp64_eq).
  assert (D0 : (0 <= d)%Z) by apply Zdigits2_nonneg.
  (* x < 2^d *)
  assert (Xd : x < pow2 d /\ ((0 < mx)%Z -> pow2 (d - 1) <= x)).
  { destruct (Z.eq_dec mx 0) as [Z0 | NZ].
    - subst d. rewrite Z0 in *. cbn [Zdigits2]. change (pow2 0) with 1.
      change (inject_Z 0) with 0 in U. split; [lra | lia].
    - destruct (digits_Q mx) as [A B]; [lia|]. fold d in A, B. split; [lra | intros _; lra]. }
  destruct Xd as [Xu Xl].
  (* the exponent of the result *)
  assert (M : fexp64 (mag a) = E).
  { destruct (Z.eq_dec mx 0) as [Z0 | NZ].
    - assert (D : d = 0%Z) by (subst d; rewrite Z0; reflexivity).
      assert (Ua : a < pow2 ex).
      { unfold a. rewrite <- (Qmult_1_l (pow2 ex)) at 2.
        apply Qmult_lt_r; [apply pow2_pos|]. rewrite D in Xu. exact Xu. }
      assert (Na : ~ a == 0) by lra.
      destruct (mag_spec a Na) as [La _]. rewrite Qabs_pos in La by lra.
      assert (K : (mag a - 1 < ex)%Z) by (apply pow2_lt_inv; lra).
      rewrite fexp64_eq. lia.
    - assert (K : mag a = (d + ex)%Z).
      { apply mag_unique; rewrite Qabs_pos by lra; unfold a.
        - replace (d + ex - 1)%Z with ((d - 1) + ex)%Z by lia. rewrite pow2_add.
          apply Qmult_le_r; [apply pow2_pos | apply Xl; lia].
        - rewrite pow2_add. apply Qmult_lt_r; [apply pow2_pos | exact Xu]. }
      rewrite K. reflexivity. }
  assert (Hn : (0 <= E - ex)%Z) by lia.
  unfold binary_round_aux, shr_fexp. change (fexp prec emax) with fexp64.
  fold d. fold E.
  destruct (shr_located _ ex (E - ex) x Hloc Hn) as [He' Hloc'].
  destruct (shr (shr_record_of_loc mx lx) ex (E - ex)) as [mrs' e'].
  cbn [fst snd] in He', Hloc'. replace (ex + (E - ex))%Z with E in He' by lia. subst e'.
  rewrite (round_located _ _ Hloc').
  set (t := x * pow2 (- (E - ex))) in *.
  assert (T : t == a * pow2 (- E)).
  { unfold t, a. rewrite <- Qmult_assoc, <- pow2_add.
    replace (ex + - E)%Z with (- (E - ex))%Z by lia. reflexivity. }
  assert (R : rnd a == inject_Z (round_half_even t) * pow2 E).
  { rewrite (rnd_at a E M). rewrite (rhe_comp _ _ T). reflexivity. }
  set (m2 := round_half_even t) in *.
  assert (Tpos : 0 <= t).
  { unfold t. apply Qmult_le_0_compat; [lra | apply Qlt_le_weak, pow2_pos]. }
  assert (M2 : (0 <= m2)%Z) by (apply rhe_nonneg; exact Tpos).
  cbn [shr_record_of_loc].
  destruct (Z_le_gt_dec (-1074) (d + ex - 53)) as [Normal | Sub].
  - (* normal range *)
    assert (Mpos : (0 < mx)%Z).
    { destruct (Z.eq_dec mx 0) as [Z0 | NZ]; [|lia].
      exfalso. assert (D : d = 0%Z) by (subst d; rewrite Z0; reflexivity). lia. }
    assert (EN : E = (d + ex - 53)%Z) by lia.
    assert (Tl : pow2 52 <= t).
    { unfold t. replace (- (E - ex))%Z with (53 - d)%Z by lia.
      apply Qle_trans with (pow2 (d - 1) * pow2 (53 - d)).
      - rewrite <- pow2_add. apply pow2_le. lia.
      - apply Qmult_le_r; [apply pow2_pos | apply Xl; exact Mpos]. }
    assert (Tu : t <= pow2 53).
    { unfold t. replace (- (E - ex))%Z with (53 - d)%Z by lia.
      apply Qle_trans with (pow2 d * pow2 (53 - d)).
      - apply Qmult_le_r; [apply pow2_pos | lra].
      - rewrite <- pow2_add. apply pow2_le. lia. }
    assert (B2 : (2 ^ 52 <= m2 <= 2 ^ 53)%Z).
    { split.
      - rewrite <- (rhe_Z (2 ^ 52)). apply rhe_mono. rewrite <- pow2_Z by lia. exact Tl.
      - rewrite <- (rhe_Z (2 ^ 53)). apply rhe_mono. rewrite <- pow2_Z by lia. exact Tu. }
    destruct (Z.eq_dec m2 (2 ^ 53)) as [Carry | NoCarry].
    + (* the mantissa was rounded up to 2^53 *)
      rewrite Carry in *.
      assert (Hs : (fexp64 (Zdigits2 (2 ^ 53) + E) - E = 1)%Z).
      { change (Zdigits2 (2 ^ 53)) with 54%Z. rewrite fexp64_eq. lia. }
      rewrite Hs. cbn [shr iter_pos]. 
      change (shr_1 {| shr_m := 2 ^ 53; shr_r := false; shr_s := false |})
        with {| shr_m := 2 ^ 52; shr_r := false; shr_s := false |}.
      cbn [shr_m]. change (2 ^ 52)%Z with (Zpos (2 ^ 52)%positive).
      cbv iota.
      assert (V : inject_Z (Zpos (2 ^ 52)) * pow2 (E + 1) == rnd a).
      { rewrite R, pow2_add. change (pow2 1) with 2.
        change (inject_Z (2 ^ 53)) with (inject_Z (Zpos (2 ^ 52)) * 2). ring. }
      destruct (Z.leb_spec (E + 1) (emax - prec)) as [Fin | Inf].
      * split; [reflexivity|]. split; [|exact V].
        unfold bounded, canonical_mantissa. apply andb_true_iff. split.
        -- apply Z.eqb_eq. change (fexp prec emax) with fexp64.
           change (Zpos (digits2_pos (2 ^ 52))) with 53%Z. rewrite fexp64_eq. lia.
        -- apply Z.leb_le. exact Fin.
      * split; [reflexivity|]. rewrite <- V.
        change (emax - prec)%Z with 971%Z in Inf.
        apply Qle_trans with (pow2 52 * pow2 (E + 1)).
        -- rewrite <- pow2_add. apply pow2_le. lia.
        -- apply Qmult_le_r; [apply pow2_pos|]. rewrite pow2_Z by lia. apply Qle_refl.
    + assert (Dg : Zdigits2 m2 = 53%Z) by (apply Zdigits2_unique; lia).
      assert (Hs : (fexp64 (Zdigits2 m2 + E) - E = 0)%Z).
      { rewrite Dg, fexp64_eq. lia. }
      rewrite Hs. cbn [shr shr_m].
      destruct m2 as [|m|m] eqn:Em2; try lia.
      destruct (Z.leb_spec E (emax - prec)) as [Fin | Inf].
      * split; [reflexivity|]. split; [|symmetry; exact R].
        unfold bounded, canonical_mantissa. apply andb_true_iff. split.
        -- apply Z.eqb_eq. change (fexp prec emax) with fexp64.
           change (Zpos (digits2_pos m)) with (Zdigits2 (Zpos m)). lia.
        -- apply Z.leb_le. exact Fin.
      * split; [reflexivity|]. rewrite R.
        change (emax - prec)%Z with 971%Z in Inf.
        apply Qle_trans with (pow2 52 * pow2 E).
        -- rewrite <- pow2_add. apply pow2_le. lia.
        -- apply Qmult_le_r; [apply pow2_pos|]. rewrite pow2_Z by lia.
           apply inj_le. lia.
  - (* subnormal range *)
    assert (ES : E = (-1074)%Z) by lia.
    assert (Tu : t <= pow2 52).
    { unfold t. apply Qle_trans with (pow2 d * pow2 (- (E - ex))).
      - apply Qmult_le_r; [apply pow2_pos | lra].
      - rewrite <- pow2_add. apply pow2_le. lia. }
    assert (B2 : (m2 <= 2 ^ 52)%Z).
    { rewrite <- (rhe_Z (2 ^ 52)). apply rhe_mono. rewrite <- pow2_Z by lia. exact Tu. }
    assert (Dg : (Zdigits2 m2 <= 53)%Z).
    { apply (Zdigits2_le_pow m2 52); lia. }
    assert (Hs : (fexp64 (Zdigits2 m2 + E) - E = 0)%Z).
    { rewrite fexp64_eq. lia. }
    rewrite Hs. cbn [shr shr_m].
    destruct m2 as [|m|m] eqn:Em2; try lia.
    + split; [reflexivity|]. rewrite R. change (inject_Z 0) with 0. ring.
    + destruct (Z.leb_spec E (emax - prec)) as [Fin | Inf].
      * split; [reflexivity|]. split; [|symmetry; exact R].
        unfold bounded, canonical_mantissa. apply andb_true_iff. split.
        -- apply Z.eqb_eq. change (fexp prec emax) with fexp64.
           change (Zpos (digits2_pos m)) with (Zdigits2 (Zpos m)). lia.
        -- apply Z.leb_le. exact Fin.
      * change (emax - prec)%Z with 971%Z in Inf. lia.
Qed.

(* ---------- valid floats *)

Lemma bounded_inv (m : positive) (e : Z) :
  bounded prec emax m e = true ->
  (1 <= Zdigits2 (Zpos m) <= 53)%Z /\ (-1074 <= e <= 971)%Z
  /\ (Zdigits2 (Zpos m) = 53 \/ e = -1074)%Z.
Proof.
  unfold bounded, canonical_mantissa. intros H. apply andb_true_iff in H.
  destruct H as [C B]. apply Z.eqb_eq in C. apply Z.leb_le in B.
  change (fexp prec emax) with fexp64 in C. rewrite fexp64_eq in C.
  change (emax - prec)%Z with 971%Z in B.
  change (Zpos (digits2_pos m)) with (Zdigits2 (Zpos m)) in C.
  destruct (Zdigits2_spec (Zpos m)) as [_ D]; lia.
Qed.

Lemma bounded_lt (m : positive) (e : Z) :
  bounded prec emax m e = true -> (Zpos m < 2 ^ 53)%Z.
Proof.
  intros H. destruct (bounded_inv m e H) as [[D1 D2] _].
  destruct (Zdigits2_spec (Zpos m)) as [[_ U] _]; [lia|].
  apply Z.lt_le_trans with (2 ^ Zdigits2 (Zpos m))%Z; [exact U|].
  apply Z.pow_le_mono_r; lia.
Qed.

Lemma valid_representable (x : spec_float) :
  valid_binary x = true -> representable (SFval x).
Proof.
  destruct x as [s | s | | s m e]; intros V; cbn [SFval].
  1-3: exists 0%Z, 0%Z; split; [lia|]; split; [reflexivity|]; reflexivity.
  cbn [SpecFloat.valid_binary] in V.
  destruct (bounded_inv m e V) as [_ [[E1 E2] _]]. pose proof (bounded_lt m e V) as B.
  destruct s.
  - exists (Zneg m), e. split; [lia|]. split; [cbn [Z.abs]; exact B|].
    change (Zneg m) with (- Zpos m)%Z. rewrite inject_Z_opp. ring.
  - exists (Zpos m), e. split; [lia|]. split; [cbn [Z.abs]; exact B|]. reflexivity.
Qed.

Lemma rounded_comp (v w : Q) (r : spec_float) :
  v == w -> rounded v r -> rounded w r.
Proof.
  intros E [V H]. split; [exact V|]. destruct r; try exact H.
  - rewrite <- E. exact H.
  - rewrite <- E. exact H.
  - rewrite <- E. exact H.
Qed.

(** A valid float is what rounding its own value gives. *)
Lemma rounded_exact (x : spec_float) :
  valid_binary x = true -> SFfinite x = true -> rounded (SFval x) x.
Proof.
  intros V F. split; [exact V|].
  destruct x; try discriminate; symmetry; apply rnd_exact, valid_representable; exact V.
Qed.

Lemma rounded_zero (s : bool) (v : Q) : v == 0 -> rounded v (S754_zero s).
Proof.
  intros E. split; [reflexivity|]. cbn [SFval]. rewrite E. reflexivity.
Qed.

(** From the magnitude to the signed value. *)
Lemma rounded_signed (s : bool) (a : Q) (r : spec_float) :
  0 < a ->
  match r with
  | S754_zero s' => s' = s /\ rnd a == 0
  | S754_finite s' m e =>
      s' = s /\ bounded prec emax m e = true
      /\ inject_Z (Zpos m) * pow2 e == rnd a
  | S754_infinity s' => s' = s /\ pow2 1024 <= rnd a
  | S754_nan => False
  end ->
  rounded (if s then - a else a) r.
Proof.
  intros A H. destruct r as [s' | s' | | s' m e].
  - destruct H as [-> H]. split; [reflexivity|]. cbn [SFval].
    destruct s; [rewrite rnd_opp|]; rewrite H; reflexivity.
  - destruct H as [-> H]. split; [reflexivity|].
    assert (R : 0 <= rnd a) by (apply rnd_nonneg; lra).
    split.
    + destruct s; [rewrite rnd_opp, Qabs_opp|]; rewrite Qabs_pos by exact R; exact H.
    + destruct s; split; intros; try discriminate; try reflexivity; lra.
  - contradiction.
  - destruct H as [-> [B H]]. split; [exact B|]. cbn [SFval].
    destruct s; [rewrite rnd_opp|]; rewrite H; reflexivity.
Qed.

(* ---------- binary_round and binary_normalize *)

Lemma pos_iter_xO (m d : positive) :
  Zpos (Pos.iter xO m d) = (Zpos m * 2 ^ Zpos d)%Z.
Proof.
  rewrite (Pos.iter_swap_gen _ _ Zpos xO (Z.mul 2)) by reflexivity.
  rewrite <- Z.shiftl_mul_pow2 by lia. reflexivity.
Qed.

Lemma shl_align_spec (mx : positive) (ex ex' : Z) :
  snd (shl_align mx ex ex') = Z.min ex ex'
  /\ Zpos (fst (shl_align mx ex ex')) = (Zpos mx * 2 ^ (ex - Z.min ex ex'))%Z.
Proof.
  unfold shl_align. destruct (ex' - ex)%Z as [|d|d] eqn:D; cbn [fst snd].
  - replace (Z.min ex ex') with ex by lia. replace (ex - ex)%Z with 0%Z by lia.
    split; [reflexivity | lia].
  - replace (Z.min ex ex') with ex by lia. replace (ex - ex)%Z with 0%Z by lia.
    split; [reflexivity | lia].
  - replace (Z.min ex ex') with ex' by lia. split; [reflexivity|].
    rewrite pos_iter_xO. f_equal. f_equal. lia.
Qed.

Lemma Zdigits2_shift (m k : Z) :
  (0 < m)%Z -> (0 <= k)%Z -> Zdigits2 (m * 2 ^ k) = (Zdigits2 m + k)%Z.
Proof.
  intros P K. destruct (Zdigits2_spec m P) as [[L U] D].
  pose proof (Z.pow_pos_nonneg 2 k ltac:(lia) K) as Pk.
  apply Zdigits2_unique; [nia|].
  replace (Zdigits2 m + k - 1)%Z with ((Zdigits2 m - 1) + k)%Z by lia.
  rewrite !Z.pow_add_r by lia. nia.
Qed.

Lemma located_exact (m : Z) : (0 <= m)%Z ->
  located (shr_record_of_loc m loc_Exact) (inject_Z m).
Proof.
  intros P. unfold located. cbn [shr_record_of_loc shr_m loc_of_shr_record].
  split; [exact P|]. split; [apply Qle_refl|]. split; [lra|].
  symmetry. apply loc_of_exact. reflexivity.
Qed.

Lemma binary_round_rounded (s : bool) (mx : positive) (ex : Z) :
  rounded (if s then - (inject_Z (Zpos mx) * pow2 ex) else inject_Z (Zpos mx) * pow2 ex)
    (binary_round prec emax s mx ex).
Proof.
  unfold binary_round. change (fexp prec emax) with fexp64.
  change (Zpos (digits2_pos mx)) with (Zdigits2 (Zpos mx)).
  set (ex' := fexp64 (Zdigits2 (Zpos mx) + ex)).
  destruct (shl_align_spec mx ex ex') as [Se Sm].
  destruct (shl_align mx ex ex') as [mz ez]. cbn [fst snd] in Se, Sm.
  subst ez. set (ez := Z.min ex ex') in *.
  assert (V : inject_Z (Zpos mz) * pow2 ez == inject_Z (Zpos mx) * pow2 ex).
  { rewrite Sm, inject_Z_mult, <- pow2_Z by lia.
    rewrite <- Qmult_assoc, pow2_sub. reflexivity. }
  assert (Pz : 0 < inject_Z (Zpos mz)) by (apply (inj_lt 0); lia).
  assert (Hex : (ez <= fexp64 (Zdigits2 (Zpos mz) + ez))%Z).
  { rewrite Sm, Zdigits2_shift by lia.
    replace (Zdigits2 (Zpos mx) + (ex - ez) + ez)%Z
      with (Zdigits2 (Zpos mx) + ex)%Z by lia.
    fold ex'. apply Z.le_min_r. }
  pose proof (bra_magnitude s (Zpos mz) ez loc_Exact (inject_Z (Zpos mz))
                (located_exact (Zpos mz) (Pos2Z.is_nonneg mz)) Pz Hex) as H.
  apply (rounded_comp (if s then - (inject_Z (Zpos mz) * pow2 ez)
                       else inject_Z (Zpos mz) * pow2 ez)).
  - destruct s; rewrite V; reflexivity.
  - apply rounded_signed; [apply Qmult_lt_0_compat; [exact Pz | apply pow2_pos] | exact H].
Qed.

Lemma binary_normalize_rounded (m e : Z) (szero : bool) :
  rounded (inject_Z m * pow2 e) (binary_normalize prec emax m e szero).
Proof.
  destruct m as [|p|p]; cbn [binary_normalize].
  - apply rounded_zero. change (inject_Z 0) with 0. ring.
  - apply (binary_round_rounded false).
  - apply (rounded_comp (- (inject_Z (Zpos p) * pow2 e))).
    + change (Zneg p) with (- Zpos p)%Z. rewrite inject_Z_opp. ring.
    + apply (binary_round_rounded true).
Qed.

(* ---------- addition, subtraction, multiplication *)

Lemma aligned (m : positive) (e ez : Z) :
  (ez <= e)%Z ->
  inject_Z (Zpos (fst (shl_align m e ez))) * pow2 ez == inject_Z (Zpos m) * pow2 e.
Proof.
  intros H. destruct (shl_align_spec m e ez) as [_ S]. rewrite S.
  replace (Z.min e ez) with ez by lia.
  rewrite inject_Z_mult, <- pow2_Z by lia.
  rewrite <- Qmult_assoc, pow2_sub. reflexivity.
Qed.

Lemma cond_Zopp_Q (s : bool) (m : Z) (p : Q) :
  inject_Z (cond_Zopp s m) * p == if s then - (inject_Z m * p) else inject_Z m * p.
Proof. destruct s; cbn [cond_Zopp]; [rewrite inject_Z_opp; ring | reflexivity]. Qed.

Lemma SFadd_rounded (x y : spec_float) :
  valid_binary x = true -> valid_binary y = true ->
  SFfinite x = true -> SFfinite y = true ->
  rounded (SFval x + SFval y) (SFadd prec emax x y).
Proof.
  intros Vx Vy Fx Fy.
  destruct x as [sx | sx | | sx mx ex]; try discriminate;
    destruct y as [sy | sy | | sy my ey]; try discriminate.
  - cbn [SFadd SFval]. destruct sx, sy; apply rounded_zero; ring.
  - cbn [SFadd]. apply (rounded_comp (SFval (S754_finite sy my ey))).
    + cbn [SFval]. ring.
    + apply rounded_exact; assumption.
  - cbn [SFadd]. apply (rounded_comp (SFval (S754_finite sx mx ex))).
    + cbn [SFval]. ring.
    + apply rounded_exact; assumption.
  - cbn [SFadd]. set (ez := Z.min ex ey).
    eapply rounded_comp; [|apply binary_normalize_rounded].
    rewrite inject_Z_plus, Qmult_plus_distr_l, !cond_Zopp_Q. cbn [SFval].
    destruct sx, sy; rewrite !aligned by (unfold ez; lia); reflexivity.
Qed.

Lemma SFsub_rounded (x y : spec_float) :
  valid_binary x = true -> valid_binary y = true ->
  SFfinite x = true -> SFfinite y = true ->
  rounded (SFval x - SFval y) (SFsub prec emax x y).
Proof.
  intros Vx Vy Fx Fy.
  destruct x as [sx | sx | | sx mx ex]; try discriminate;
    destruct y as [sy | sy | | sy my ey]; try discriminate.
  - cbn [SFsub SFval]. destruct sx, sy; apply rounded_zero; ring.
  - cbn [SFsub]. apply (rounded_comp (SFval (S754_finite (negb sy) my ey))).
    + cbn [SFval]. destruct sy; cbn [negb]; ring.
    + apply rounded_exact; [exact Vy | reflexivity].
  - cbn [SFsub]. apply (rounded_comp (SFval (S754_finite sx mx ex))).
    + cbn [SFval]. ring.
    + apply rounded_exact; assumption.
  - cbn [SFsub]. set (ez := Z.min ex ey).
    eapply rounded_comp; [|apply binary_normalize_rounded].
    rewrite inject_Z_minus. unfold Qminus.
    rewrite Qmult_plus_distr_l.
    assert (O : - inject_Z (cond_Zopp sy (Zpos (fst (shl_align my ey ez)))) * pow2 ez
                == - (inject_Z (cond_Zopp sy (Zpos (fst (shl_align my ey ez)))) * pow2 ez))
      by ring.
    rewrite O, !cond_Zopp_Q. cbn [SFval].
    destruct sx, sy; rewrite !aligned by (unfold ez; lia); reflexivity.
Qed.

Lemma Zdigits2_mul (a b : Z) :
  (0 < a)%Z -> (0 < b)%Z -> (Zdigits2 a + Zdigits2 b - 1 <= Zdigits2 (a * b))%Z.
Proof.
  intros A B.
  destruct (Zdigits2_spec a A) as [[La _] Da]. destruct (Zdigits2_spec b B) as [[Lb _] Db].
  assert (P : (2 ^ (Zdigits2 a + Zdigits2 b - 2) <= a * b)%Z).
  { replace (Zdigits2 a + Zdigits2 b - 2)%Z with ((Zdigits2 a - 1) + (Zdigits2 b - 1))%Z by lia.
    rewrite Z.pow_add_r by lia.
    apply Z.mul_le_mono_nonneg; try assumption; apply Z.pow_nonneg; lia. }
  pose proof (Zdigits2_ge_pow (a * b) (Zdigits2 a + Zdigits2 b - 2) ltac:(lia) P). lia.
Qed.

Lemma SFmul_rounded (x y : spec_float) :
  valid_binary x = true -> valid_binary y = true ->
  SFfinite x = true -> SFfinite y = true ->
  rounded (SFval x * SFval y) (SFmul prec emax x y).
Proof.
  intros Vx Vy Fx Fy.
  destruct x as [sx | sx | | sx mx ex]; try discriminate;
    destruct y as [sy | sy | | sy my ey]; try discriminate;
    try (cbn [SFmul SFval]; apply rounded_zero; ring).
  cbn [SFmul]. cbn [SpecFloat.valid_binary] in Vx, Vy.
  destruct (bounded_inv mx ex Vx) as [[Dx1 Dx2] [[Ex1 Ex2] Nx]].
  destruct (bounded_inv my ey Vy) as [[Dy1 Dy2] [[Ey1 Ey2] Ny]].
  pose proof (Zdigits2_mul (Zpos mx) (Zpos my) ltac:(lia) ltac:(lia)) as Dm.
  assert (Hex : (ex + ey <= fexp64 (Zdigits2 (Zpos (mx * my)) + (ex + ey)))%Z).
  { rewrite fexp64_eq. rewrite Pos2Z.inj_mul. lia. }
  assert (Pz : 0 < inject_Z (Zpos (mx * my))) by (apply (inj_lt 0); lia).
  pose proof (bra_magnitude (xorb sx sy) (Zpos (mx * my)) (ex + ey) loc_Exact
                (inject_Z (Zpos (mx * my)))
                (located_exact _ (Pos2Z.is_nonneg _)) Pz Hex) as H.
  apply (rounded_comp (if xorb sx sy
                       then - (inject_Z (Zpos (mx * my)) * pow2 (ex + ey))
                       else inject_Z (Zpos (mx * my)) * pow2 (ex + ey))).
  - cbn [SFval].
    destruct sx, sy; cbn [xorb]; rewrite Pos2Z.inj_mul, inject_Z_mult, pow2_add; ring.
  - apply rounded_signed; [apply Qmult_lt_0_compat; [exact Pz | apply pow2_pos] | exact H].
Qed.

(* ---------- division *)

Lemma Qdiv_Z_lt (r b : Z) (c : Q) :
  (0 < b)%Z -> inject_Z r < c * inject_Z b -> inject_Z r / inject_Z b < c.
Proof.
  intros B H. apply Qlt_shift_div_r; [apply (inj_lt 0); exact B | exact H].
Qed.

Lemma Qdiv_Z_gt (r b : Z) (c : Q) :
  (0 < b)%Z -> c * inject_Z b < inject_Z r -> c < inject_Z r / inject_Z b.
Proof.
  intros B H. apply Qlt_shift_div_l; [apply (inj_lt 0); exact B | exact H].
Qed.

Lemma new_location_spec (b r q : Z) (x : Q) :
  (0 < b)%Z -> (0 <= r < b)%Z ->
  x == inject_Z q + inject_Z r / inject_Z b ->
  new_location b r = loc_of q x.
Proof.
  intros B [R0 R1] X.
  assert (Bq : 0 < inject_Z b) by (apply (inj_lt 0); exact B).
  assert (D : x - inject_Z q == inject_Z r / inject_Z b) by lra.
  assert (Half : forall c : Z, inject_Z (2 * c) == 2 * inject_Z c).
  { intros c. rewrite inject_Z_mult. reflexivity. }
  unfold new_location.
  destruct (Z.eq_dec r 0) as [-> | NZ].
  - assert (E : x == inject_Z q).
    { rewrite X. change (inject_Z 0) with 0. field. lra. }
    rewrite (loc_of_exact q x E).
    destruct (Z.even b); reflexivity.
  - assert (Rpos : 0 < inject_Z r / inject_Z b).
    { apply Qdiv_Z_gt; [exact B|]. rewrite Qmult_0_l. apply (inj_lt 0). lia. }
    assert (NE : ~ x == inject_Z q) by lra.
    symmetry. destruct (Z.even b) eqn:Ev.
    + unfold new_location_even. destruct (Z.eqb_spec r 0) as [? | _]; [contradiction|].
      apply loc_of_inexact; [exact NE|]. rewrite D.
      destruct (Z.compare_spec (2 * r) b) as [C | C | C].
      * apply cmp_eq. subst b. rewrite Half.
        field. assert (0 < inject_Z r) by (apply (inj_lt 0); lia). lra.
      * apply cmp_lt. apply Qdiv_Z_lt; [exact B|].
        apply inj_lt in C. rewrite Half in C. lra.
      * apply cmp_gt. apply Qdiv_Z_gt; [exact B|].
        apply inj_lt in C. rewrite Half in C. lra.
    + unfold new_location_odd. destruct (Z.eqb_spec r 0) as [? | _]; [contradiction|].
      assert (Od : Z.odd b = true) by (rewrite <- Z.negb_even, Ev; reflexivity).
      apply Z.odd_spec in Od. destruct Od as [k Hk].
      apply loc_of_inexact; [exact NE|]. rewrite D.
      destruct (Z.compare_spec (2 * r + 1) b) as [C | C | C].
      * apply cmp_lt. apply Qdiv_Z_lt; [exact B|].
        assert (C' : (2 * r < b)%Z) by lia.
        apply inj_lt in C'. rewrite Half in C'. lra.
      * apply cmp_lt. apply Qdiv_Z_lt; [exact B|].
        assert (C' : (2 * r < b)%Z) by lia.
        apply inj_lt in C'. rewrite Half in C'. lra.
      * apply cmp_gt. apply Qdiv_Z_gt; [exact B|].
        assert (C' : (b < 2 * r)%Z) by lia.
        apply inj_lt in C'. rewrite Half in C'. lra.
Qed.

Lemma div_digits (m1 m2 s : Z) :
  (0 < m1)%Z -> (0 < m2)%Z -> (0 <= s)%Z ->
  (0 <= Zdigits2 m1 + s - Zdigits2 m2 - 1)%Z ->
  (Zdigits2 m1 + s - Zdigits2 m2 <= Zdigits2 (m1 * 2 ^ s / m2))%Z.
Proof.
  intros P1 P2 S K.
  destruct (Zdigits2_spec m1 P1) as [[L1 _] D1].
  destruct (Zdigits2_spec m2 P2) as [[_ U2] D2].
  set (k := (Zdigits2 m1 + s - Zdigits2 m2 - 1)%Z) in *.
  assert (Q : (2 ^ k <= m1 * 2 ^ s / m2)%Z).
  { apply Z.div_le_lower_bound; [exact P2|].
    apply Z.le_trans with (2 ^ Zdigits2 m2 * 2 ^ k)%Z.
    - apply Z.mul_le_mono_nonneg_r; [apply Z.pow_nonneg; lia | lia].
    - rewrite <- Z.pow_add_r by lia.
      replace (Zdigits2 m2 + k)%Z with ((Zdigits2 m1 - 1) + s)%Z by (unfold k; lia).
      rewrite Z.pow_add_r by lia.
      apply Z.mul_le_mono_nonneg_r; [apply Z.pow_nonneg; lia | exact L1]. }
  pose proof (Zdigits2_ge_pow _ k K Q). unfold k in *. lia.
Qed.

Lemma SFdiv_rounded (x y : spec_float) :
  valid_binary x = true -> valid_binary y = true ->
  SFfinite x = true -> SFfinite y = true -> ~ SFval y == 0 ->
  rounded (SFval x / SFval y) (SFdiv prec emax x y).
Proof.
  intros Vx Vy Fx Fy NZ.
  destruct y as [sy | sy | | sy my ey]; try discriminate.
  { exfalso. apply NZ. reflexivity. }
  destruct x as [sx | sx | | sx mx ex]; try discriminate.
  { cbn [SFdiv]. apply rounded_zero. cbn [SFval]. unfold Qdiv. ring. }
  cbn [SFdiv]. cbn [SpecFloat.valid_binary] in Vx, Vy.
  destruct (bounded_inv mx ex Vx) as [[Dx1 Dx2] [[Ex1 Ex2] Nx]].
  destruct (bounded_inv my ey Vy) as [[Dy1 Dy2] [[Ey1 Ey2] Ny]].
  unfold SFdiv_core_binary. change (fexp prec emax) with fexp64.
  set (d1 := Zdigits2 (Zpos mx)) in *. set (d2 := Zdigits2 (Zpos my)) in *.
  set (e' := Z.min (fexp64 (d1 + ex - (d2 + ey))) (ex - ey)).
  set (s := (ex - ey - e')%Z).
  assert (S0 : (0 <= s)%Z) by (unfold s, e'; lia).
  set (m' := match s with
             | 0%Z => Zpos mx
             | Zpos _ => Z.shiftl (Zpos mx) s
             | Zneg _ => 0%Z
             end).
  assert (Hm' : m' = (Zpos mx * 2 ^ s)%Z).
  { unfold m'. destruct s as [|p|p] eqn:Es; try lia.
    apply Z.shiftl_mul_pow2. lia. }
  clearbody m'.
  pose proof (Z_div_mod m' (Zpos my) ltac:(lia)) as DM.
  assert (Dv : fst (Z.div_eucl m' (Zpos my)) = (m' / Zpos my)%Z) by reflexivity.
  destruct (Z.div_eucl m' (Zpos my)) as [q r]. cbn [fst] in Dv.
  destruct DM as [DM1 DM2].
  assert (Mpos : (0 < m')%Z).
  { rewrite Hm'. apply Z.mul_pos_pos; [lia | apply Z.pow_pos_nonneg; lia]. }
  assert (Q0 : (0 <= q)%Z) by (rewrite Dv; apply Z.div_pos; lia).
  set (xq := inject_Z m' / inject_Z (Zpos my)).
  assert (Bq : 0 < inject_Z (Zpos my)) by (apply (inj_lt 0); lia).
  assert (X : xq == inject_Z q + inject_Z r / inject_Z (Zpos my)).
  { unfold xq. rewrite DM1, inject_Z_plus, inject_Z_mult. field. lra. }
  assert (Xpos : 0 < xq).
  { unfold xq. apply Qdiv_Z_gt; [lia|]. rewrite Qmult_0_l. apply (inj_lt 0). exact Mpos. }
  assert (Loc : located (shr_record_of_loc q (new_location (Zpos my) r)) xq).
  { destruct (loc_of_record q (new_location (Zpos my) r)) as [Rm Rl].
    unfold located. rewrite Rm, Rl. split; [exact Q0|].
    assert (R0 : 0 <= inject_Z r / inject_Z (Zpos my)).
    { apply Qle_shift_div_l; [exact Bq|]. rewrite Qmult_0_l. apply (inj_le 0). lia. }
    assert (R1 : inject_Z r / inject_Z (Zpos my) < 1).
    { apply Qdiv_Z_lt; [lia|]. rewrite Qmult_1_l. apply inj_lt. lia. }
    split; [lra|]. split; [lra|].
    apply new_location_spec; [lia | lia | exact X]. }
  assert (Hex : (e' <= fexp64 (Zdigits2 q + e'))%Z).
  { pose proof (Zdigits2_nonneg q) as Dq.
    destruct (Z_le_gt_dec 0 (d1 + s - d2 - 1)) as [Big | Small].
    - pose proof (div_digits (Zpos mx) (Zpos my) s ltac:(lia) ltac:(lia) S0 Big) as Dg.
      rewrite <- Hm', <- Dv in Dg. fold d1 d2 in Dg.
      rewrite fexp64_eq. unfold s, e' in *. rewrite fexp64_eq in *. lia.
    - rewrite fexp64_eq. unfold s, e' in *. rewrite fexp64_eq in *. lia. }
  pose proof (bra_magnitude (xorb sx sy) q e' (new_location (Zpos my) r) xq
                Loc Xpos Hex) as H.
  assert (V : xq * pow2 e'
              == (inject_Z (Zpos mx) * pow2 ex) / (inject_Z (Zpos my) * pow2 ey)).
  { unfold xq. rewrite Hm', inject_Z_mult, <- pow2_Z by lia.
    assert (Pw : pow2 s * pow2 e' * pow2 ey == pow2 ex).
    { rewrite <- !pow2_add. replace (s + e' + ey)%Z with ex by (unfold s; lia).
      reflexivity. }
    pose proof (pow2_pos ey) as Py.
    apply (Qmult_inj_r _ _ (inject_Z (Zpos my) * pow2 ey)).
    - intros Z0. assert (0 < inject_Z (Zpos my) * pow2 ey)
        by (apply Qmult_lt_0_compat; assumption). lra.
    - rewrite <- Pw. field. split; lra. }
  apply (rounded_comp (if xorb sx sy then - (xq * pow2 e') else xq * pow2 e')).
  - cbn [SFval]. pose proof (pow2_pos ey).
    destruct sx, sy; cbn [xorb]; rewrite V; field; lra.
  - apply rounded_signed; [apply Qmult_lt_0_compat; [exact Xpos | apply pow2_pos] | exact H].
Qed.

(* ---------- comparison *)

Lemma cmp_opp (a b : Q) : (- a ?= - b) = CompOpp (a ?= b).
Proof.
  destruct (Qcompare_spec a b) as [C | C | C]; cbn [CompOpp].
  - apply cmp_eq. lra.
  - apply cmp_gt. lra.
  - apply cmp_lt. lra.
Qed.

Lemma magnitude_order (m1 m2 : positive) (e1 e2 : Z) :
  bounded prec emax m1 e1 = true -> bounded prec emax m2 e2 = true ->
  (e1 < e2)%Z ->
  inject_Z (Zpos m1) * pow2 e1 < inject_Z (Zpos m2) * pow2 e2.
Proof.
  intros B1 B2 H.
  pose proof (bounded_lt m1 e1 B1) as U1.
  destruct (bounded_inv m1 e1 B1) as [_ [[E1 _] _]].
  destruct (bounded_inv m2 e2 B2) as [[D1 D2] [_ N2]].
  assert (D : Zdigits2 (Zpos m2) = 53%Z) by lia.
  destruct (Zdigits2_spec (Zpos m2)) as [[L2 _] _]; [lia|]. rewrite D in L2.
  apply Qlt_le_trans with (pow2 53 * pow2 e1).
  - apply Qmult_lt_r; [apply pow2_pos|]. rewrite pow2_Z by lia. apply inj_lt. exact U1.
  - apply Qle_trans with (pow2 52 * pow2 e2).
    + rewrite <- !pow2_add. apply pow2_le. lia.
    + apply Qmult_le_r; [apply pow2_pos|]. rewrite pow2_Z by lia. apply inj_le. exact L2.
Qed.

Lemma magnitude_compare (m1 m2 : positive) (e1 e2 : Z) :
  bounded prec emax m1 e1 = true -> bounded prec emax m2 e2 = true ->
  match (e1 ?= e2)%Z with
  | Lt => Lt
  | Gt => Gt
  | Eq => Pos.compare_cont Eq m1 m2
  end = (inject_Z (Zpos m1) * pow2 e1 ?= inject_Z (Zpos m2) * pow2 e2).
Proof.
  intros B1 B2. symmetry. destruct (Z.compare_spec e1 e2) as [C | C | C].
  - subst e2. change (Pos.compare_cont Eq m1 m2) with (Zpos m1 ?= Zpos m2)%Z.
    destruct (Z.compare_spec (Zpos m1) (Zpos m2)) as [D | D | D].
    + apply cmp_eq. rewrite D. reflexivity.
    + apply cmp_lt. apply Qmult_lt_r; [apply pow2_pos | apply inj_lt; exact D].
    + apply cmp_gt. apply Qmult_lt_r; [apply pow2_pos | apply inj_lt; exact D].
  - apply cmp_lt. apply magnitude_order; assumption.
  - apply cmp_gt. apply magnitude_order; assumption.
Qed.

Lemma SFcompare_val (x y : spec_float) :
  valid_binary x = true -> valid_binary y = true ->
  SFfinite x = true -> SFfinite y = true ->
  SFcompare x y = Some (SFval x ?= SFval y).
Proof.
  intros Vx Vy Fx Fy.
  destruct x as [sx | sx | | sx mx ex]; try discriminate;
    destruct y as [sy | sy | | sy my ey]; try discriminate;
    cbn [SFcompare SFval].
  - reflexivity.
  - assert (P : 0 < inject_Z (Zpos my) * pow2 ey).
    { apply Qmult_lt_0_compat; [apply (inj_lt 0); lia | apply pow2_pos]. }
    f_equal. symmetry. destruct sy; [apply cmp_gt | apply cmp_lt]; lra.
  - assert (P : 0 < inject_Z (Zpos mx) * pow2 ex).
    { apply Qmult_lt_0_compat; [apply (inj_lt 0); lia | apply pow2_pos]. }
    f_equal. symmetry. destruct sx; [apply cmp_lt | apply cmp_gt]; lra.
  - cbn [SpecFloat.valid_binary] in Vx, Vy.
    assert (Px : 0 < inject_Z (Zpos mx) * pow2 ex).
    { apply Qmult_lt_0_compat; [apply (inj_lt 0); lia | apply pow2_pos]. }
    assert (Py : 0 < inject_Z (Zpos my) * pow2 ey).
    { apply Qmult_lt_0_compat; [apply (inj_lt 0); lia | apply pow2_pos]. }
    pose proof (magnitude_compare mx my ex ey Vx Vy) as M.
    f_equal. destruct sx, sy.
    + rewrite cmp_opp, <- M. destruct (ex ?= ey)%Z; reflexivity.
    + symmetry. apply cmp_lt. lra.
    + symmetry. apply cmp_gt. lra.
    + exact M.
Qed.

(* ================================================================ *)
(* Primitive floats *)

Lemma rounded_finite (v : Q) (r : spec_float) :
  rounded v r -> SFfinite r = true -> SFval r == rnd v.
Proof. intros [_ H] F. destruct r; try discriminate; exact H. Qed.

Lemma pow2_representable (k : Z) : (-1074 <= k)%Z -> representable (pow2 k).
Proof.
  intros K. exists 1%Z, k. split; [exact K|]. split; [reflexivity|].
  change (inject_Z 1) with 1. ring.
Qed.

Lemma opp_representable (f : Q) : representable f -> representable (- f).
Proof.
  intros [m [e [He [Hm Hf]]]]. exists (- m)%Z, e. split; [exact He|].
  split; [lia|]. rewrite Hf, inject_Z_opp. ring.
Qed.

Lemma rnd_bound (v : Q) (k : Z) :
  (-1074 <= k)%Z -> Qabs v <= pow2 k -> Qabs (rnd v) <= pow2 k.
Proof.
  intros K H. apply Qabs_Qle_condition in H. destruct H as [L U].
  apply Qabs_Qle_condition. split.
  - rewrite <- (rnd_exact (- pow2 k)) by (apply opp_representable, pow2_representable; exact K).
    apply rnd_mono. exact L.
  - rewrite <- (rnd_exact (pow2 k)) by (apply pow2_representable; exact K).
    apply rnd_mono. exact U.
Qed.

(** No overflow below [2^1023]. *)
Lemma rounded_no_overflow (v : Q) (r : spec_float) :
  rounded v r -> Qabs v <= pow2 1023 -> SFfinite r = true.
Proof.
  intros [_ H] B. destruct r as [| s | |]; try reflexivity; [|contradiction].
  exfalso. destruct H as [H _].
  pose proof (rnd_bound v 1023 ltac:(lia) B) as R.
  assert (pow2 1023 < pow2 1024) by (apply pow2_lt; lia). lra.
Qed.

Section Prim.

Variables x y : float.
Hypothesis Fx : finite x = true.
Hypothesis Fy : finite y = true.

Lemma add_rounded : rounded (val x + val y) (Prim2SF (x + y)).
Proof.
  rewrite FloatAxioms.add_spec. apply SFadd_rounded; try apply Prim2SF_valid; assumption.
Qed.

Lemma sub_rounded : rounded (val x - val y) (Prim2SF (x - y)).
Proof.
  rewrite FloatAxioms.sub_spec. apply SFsub_rounded; try apply Prim2SF_valid; assumption.
Qed.

Lemma mul_rounded : rounded (val x * val y) (Prim2SF (x * y)).
Proof.
  rewrite FloatAxioms.mul_spec. apply SFmul_rounded; try apply Prim2SF_valid; assumption.
Qed.

Lemma div_rounded : ~ val y == 0 -> rounded (val x / val y) (Prim2SF (x / y)).
Proof.
  intros N. rewrite FloatAxioms.div_spec. apply SFdiv_rounded; try apply Prim2SF_valid; assumption.
Qed.

Lemma ltb_val : PrimFloat.ltb x y = true <-> val x < val y.
Proof.
  rewrite FloatAxioms.ltb_spec. unfold SFltb.
  rewrite (SFcompare_val _ _ (Prim2SF_valid x) (Prim2SF_valid y) Fx Fy).
  fold (val x) (val y). destruct (Qcompare_spec (val x) (val y)) as [C | C | C];
    split; intros H; try discriminate; try reflexivity; lra.
Qed.

Lemma eqb_val : PrimFloat.eqb x y = true <-> val x == val y.
Proof.
  rewrite FloatAxioms.eqb_spec. unfold SFeqb.
  rewrite (SFcompare_val _ _ (Prim2SF_valid x) (Prim2SF_valid y) Fx Fy).
  fold (val x) (val y). destruct (Qcompare_spec (val x) (val y)) as [C | C | C];
    split; intros H; try discriminate; try reflexivity; lra.
Qed.

End Prim.

Lemma val_representable (x : float) : representable (val x).
Proof. apply valid_representable, Prim2SF_valid. Qed.

End Binary64.

(* ================================================================== *)
(** * Python floats on binary64 *)
(* ================================================================== *)

Section PythonFloats.

Local Open Scope Q_scope.

Lemma pow2_double (k : Z) : pow2 (k + 1) == pow2 k + pow2 k.
Proof. rewrite pow2_succ. ring. Qed.

(** Every float is a multiple of [2^-1074]. *)
Lemma on_grid (f : Q) :
  representable f -> exists j : Z, f == inject_Z j * pow2 (-1074).
Proof.
  intros [m [e [E [_ V]]]]. exists (m * 2 ^ (e + 1074))%Z.
  rewrite V, inject_Z_mult, <- pow2_Z by lia.
  rewrite <- Qmult_assoc, <- pow2_add.
  replace (e + 1074 + -1074)%Z with e by lia. reflexivity.
Qed.

Lemma grid_sub (a b : Q) :
  (exists j : Z, a == inject_Z j * pow2 (-1074)) ->
  (exists j : Z, b == inject_Z j * pow2 (-1074)) ->
  exists j : Z, a - b == inject_Z j * pow2 (-1074).
Proof.
  intros [i A] [j B]. exists (i - j)%Z.
  rewrite A, B, inject_Z_minus. ring.
Qed.

Lemma grid_add (a b : Q) :
  (exists j : Z, a == inject_Z j * pow2 (-1074)) ->
  (exists j : Z, b == inject_Z j * pow2 (-1074)) ->
  exists j : Z, a + b == inject_Z j * pow2 (-1074).
Proof.
  intros [i A] [j B]. exists (i + j)%Z.
  rewrite A, B, inject_Z_plus. ring.
Qed.

Lemma tenth_val : finite tenth = true /\ val tenth == 3602879701896397 # 36028797018963968.
Proof. split; vm_compute; reflexivity. Qed.

Lemma int_const_0 : finite (int_const 0) = true /\ val (int_const 0) == 0.
Proof. split; vm_compute; reflexivity. Qed.

Lemma int_const_2 : finite (int_const 2) = true /\ val (int_const 2) == 2.
Proof. split; vm_compute; reflexivity. Qed.

Lemma to_Q_val (x : float) :
  finite x = true -> exists q, B64.to_Q x = Some q /\ q == val x.
Proof.
  unfold finite, val, B64.to_Q. destruct (Prim2SF x) as [s | s | | s m e];
    intros F; try discriminate F; cbn [SFval].
  - exists 0. split; reflexivity.
  - eexists. split; [reflexivity|].
    assert (A : (if (0 <=? e)%Z then inject_Z (Zpos m * 2 ^ e)
                 else Zpos m # Z.to_pos (2 ^ (- e)))
                == inject_Z (Zpos m) * pow2 e).
    { destruct (Z.leb_spec 0 e) as [P | N].
      - rewrite inject_Z_mult, pow2_Z by lia. reflexivity.
      - rewrite Qmake_Qdiv. rewrite Z2Pos.id by (apply Z.pow_pos_nonneg; lia).
        rewrite <- pow2_Z by lia.
        assert (O : pow2 e == / pow2 (- e)).
        { unfold pow2. rewrite <- Qpower_opp. replace (- - e)%Z with e by lia.
          reflexivity. }
        rewrite O. reflexivity. }
    destruct s; rewrite A; reflexivity.
Qed.

(** [round(x)] on a float that is a number. *)
Lemma round_finite (x : float) :
  finite x = true -> B64.round x = Ret (round_half_even (val x)).
Proof.
  intros F. destruct (to_Q_val x F) as [q [Hq E]].
  unfold B64.round. rewrite Hq. unfold finite in F.
  destruct (Prim2SF x); try discriminate; rewrite (rhe_comp _ _ E); reflexivity.
Qed.

Lemma round_not_finite (x : float) :
  (forall s, Prim2SF x = S754_infinity s -> B64.round x = Uncaught OverflowError)
  /\ (Prim2SF x = S754_nan -> B64.round x = Uncaught ValueError).
Proof.
  unfold B64.round. split; [intros s H | intros H]; rewrite H; reflexivity.
Qed.

(** The largest float. *)
Lemma val_bound (x : float) :
  finite x = true -> Qabs (val x) <= pow2 1024 - pow2 971.
Proof.
  unfold finite, val. pose proof (Prim2SF_valid x) as V.
  assert (P : 0 <= pow2 1024 - pow2 971).
  { assert (pow2 971 < pow2 1024) by (apply pow2_lt; lia). lra. }
  destruct (Prim2SF x) as [s | s | | s m e]; intros F; try discriminate F; cbn [SFval].
  - rewrite Qabs_pos by apply Qle_refl. exact P.
  - cbn [SpecFloat.valid_binary] in V.
    destruct (bounded_inv m e V) as [_ [[_ E] _]]. pose proof (bounded_lt m e V) as B.
    assert (M : inject_Z (Zpos m) * pow2 e <= pow2 1024 - pow2 971).
    { apply Qle_trans with ((pow2 53 - 1) * pow2 971).
      - apply Qmult_le_compat_nonneg.
        + split; [apply (inj_le 0); lia|]. rewrite pow2_Z by lia.
          change 1 with (inject_Z 1). rewrite <- inject_Z_minus. apply inj_le. lia.
        + split; [apply Qlt_le_weak, pow2_pos | apply pow2_le; exact E].
      - assert (X : pow2 1024 == pow2 53 * pow2 971) by (rewrite <- pow2_add; reflexivity).
        rewrite X. ring_simplify. apply Qle_refl. }
    assert (M0 : 0 <= inject_Z (Zpos m) * pow2 e).
    { apply Qmult_le_0_compat; [apply (inj_le 0); lia | apply Qlt_le_weak, pow2_pos]. }
    destruct s; [rewrite Qabs_opp|]; rewrite Qabs_pos by exact M0; exact M.
Qed.

(** What [num + 0.1] is: the float nearest to the sum, which is a number
    whenever [num] is, and lies between [num] and [num + 0.2]. *)
Lemma plus_tenth (x : float) :
  finite x = true ->
  finite (x + tenth) = true
  /\ val (x + tenth) == rnd (val x + val tenth)
  /\ val x <= val (x + tenth) /\ val (x + tenth) <= val x + 2 * val tenth.
Proof.
  intros F. destruct tenth_val as [Ft Vt].
  pose proof (add_rounded x tenth F Ft) as R.
  pose proof (rnd_nearest (val x + val tenth) (val x) (val_representable x)) as N.
  assert (T : 0 < val tenth) by (rewrite Vt; reflexivity).
  setoid_replace (val x - (val x + val tenth)) with (- val tenth) in N by ring.
  rewrite Qabs_opp, (Qabs_pos (val tenth)) in N by lra.
  apply Qabs_Qle_condition in N. destruct N as [N1 N2].
  assert (Fin : finite (x + tenth) = true).
  { unfold finite. destruct R as [_ R].
    destruct (Prim2SF (x + tenth)) as [| s | |]; try reflexivity; [|contradiction].
    exfalso. destruct R as [R _].
    pose proof (val_bound x F) as B. apply Qabs_Qle_condition in B.
    assert (S : pow2 971 == 2 * pow2 970).
    { rewrite <- pow2_succ. reflexivity. }
    assert (S' : 1 <= pow2 970).
    { change 1 with (pow2 0). apply pow2_le. lia. }
    assert (Vt' : val tenth <= 1 # 2) by (rewrite Vt; discriminate).
    assert (A : Qabs (rnd (val x + val tenth)) < pow2 1024).
    { apply Qabs_Qlt_condition. split; lra. }
    lra. }
  split; [exact Fin|].
  assert (V : val (x + tenth) == rnd (val x + val tenth)).
  { apply rounded_finite; [exact R | exact Fin]. }
  split; [exact V|]. rewrite V. split; lra.
Qed.

Lemma round2_value (x : float) :
  finite x = true ->
  round2 x = Ret (round_half_even (val (x + tenth))).
Proof.
  intros F. destruct (plus_tenth x F) as [Fin _].
  unfold round2. cbn [fround fadd B64.arith]. fold tenth.
  apply round_finite. exact Fin.
Qed.

(** [round2] on a float that is a number: the integer it returns and the
    sum it rounds. *)
Lemma round2_finite (x : float) :
  finite x = true ->
  exists y : Q,
    round2 x = Ret (round_half_even y)
    /\ y == rnd (val x + val tenth)
    /\ val x <= y /\ y <= val x + (1 # 4).
Proof.
  intros F. destruct (plus_tenth x F) as [_ [V [L U]]].
  destruct tenth_val as [_ Vt].
  exists (val (x + tenth)). split; [apply round2_value; exact F|].
  split; [exact V|]. split; [exact L|].
  assert (T : 2 * val tenth <= 1 # 4) by (rewrite Vt; discriminate). lra.
Qed.

Lemma quantize_spec (v : Q) :
  inject_Z (Spec.quantize v) <= v + (1 # 2)
  /\ v + (1 # 2) < inject_Z (Spec.quantize v) + 1.
Proof.
  unfold Spec.quantize. pose proof (Qfloor_le (v + (1 # 2))) as L.
  pose proof (Qlt_floor (v + (1 # 2))) as U.
  rewrite inject_Z_plus in U. change (inject_Z 1) with 1 in U. split; assumption.
Qed.

(** [round2] on an integer and on a half. *)
Lemma round2_on_integer (x : float) (k : Z) :
  finite x = true -> val x == inject_Z k -> round2 x = Ret k.
Proof.
  intros F K. destruct (round2_finite x F) as [y [R [Y [L U]]]].
  rewrite R. f_equal.
  rewrite (rhe_cases y k (y - inject_Z k)) by lra.
  rewrite cmp_lt by lra. reflexivity.
Qed.

Lemma round2_on_half (x : float) (k : Z) :
  finite x = true -> (Z.abs k < 2 ^ 49)%Z -> val x == inject_Z k + (1 # 2) ->
  round2 x = Ret (k + 1)%Z.
Proof.
  intros F B K. destruct (round2_finite x F) as [y [R [Y [L U]]]].
  rewrite R. f_equal.
  (* the float an eighth above [x] is nearer to the sum than [x] is *)
  assert (Rp : representable (val x + (1 # 8))).
  { exists (8 * k + 5)%Z, (-3)%Z. split; [lia|]. split; [lia|].
    rewrite K, inject_Z_plus, inject_Z_mult. change (pow2 (-3)) with (1 # 8).
    change (inject_Z 8) with 8. change (inject_Z 5) with 5. ring. }
  pose proof (rnd_nearest (val x + val tenth) _ Rp) as Nr.
  destruct tenth_val as [_ Vt].
  assert (T1 : 1 # 10 < val tenth) by (rewrite Vt; reflexivity).
  assert (T2 : val tenth < 1 # 8) by (rewrite Vt; reflexivity).
  setoid_replace (val x + (1 # 8) - (val x + val tenth))
    with ((1 # 8) - val tenth) in Nr by ring.
  rewrite (Qabs_pos ((1 # 8) - val tenth)) in Nr by lra.
  apply Qabs_Qle_condition in Nr. destruct Nr as [Nr _].
  rewrite <- Y in Nr.
  rewrite (rhe_cases y k (y - inject_Z k)) by lra.
  rewrite cmp_gt by lra. reflexivity.
Qed.

Lemma frac_range (v : Q) : 0 <= frac v /\ frac v < 1.
Proof.
  unfold frac. pose proof (Qfloor_le v) as L. pose proof (Qlt_floor v) as U.
  rewrite inject_Z_plus in U. change (inject_Z 1) with 1 in U. split; lra.
Qed.

Lemma quantize_frac (v : Q) :
  (frac v < 1 # 2 -> Spec.quantize v = Qfloor v)
  /\ (1 # 2 <= frac v -> Spec.quantize v = (Qfloor v + 1)%Z).
Proof.
  destruct (frac_range v) as [F0 F1]. unfold frac in *. split; intros H.
  - unfold Spec.quantize. apply Qfloor_unique; lra.
  - unfold Spec.quantize. apply Qfloor_unique;
      rewrite inject_Z_plus; change (inject_Z 1) with 1; lra.
Qed.

(** Up to [2^32] in magnitude the float sum [num + 0.1] is within
    [2^-19] of [num + 1/10]. *)
Lemma plus_tenth_small (x : float) :
  finite x = true -> Qabs (val x) <= pow2 32 ->
  Qabs (val (x + tenth) - (val x + (1 # 10))) < pow2 (-19).
Proof.
  intros F B. destruct (plus_tenth x F) as [_ [V _]].
  destruct tenth_val as [_ Vt].
  destruct (grid_add (val x) (val tenth)) as [j G];
    try (apply on_grid, val_representable).
  pose proof (rnd_rel_grid _ j G) as E. rewrite <- V in E.
  assert (T1 : 1 # 10 < val tenth) by (rewrite Vt; reflexivity).
  assert (T2 : val tenth < (1 # 10) + pow2 (-21)) by (rewrite Vt; reflexivity).
  assert (S : Qabs (val x + val tenth) <= pow2 33).
  { apply Qabs_Qle_condition in B. apply Qabs_Qle_condition.
    assert (D : pow2 33 == pow2 32 + pow2 32) by apply (pow2_double 32).
    assert (O : 1 <= pow2 32) by (change 1 with (pow2 0); apply pow2_le; lia).
    lra. }
  assert (M : pow2 (-53) * Qabs (val x + val tenth) <= pow2 (-20)).
  { change (-20)%Z with (-53 + 33)%Z. rewrite pow2_add.
    apply Qmult_le_l; [apply pow2_pos | exact S]. }
  assert (D19 : pow2 (-19) == pow2 (-20) + pow2 (-20)) by apply (pow2_double (-20)).
  assert (D20 : pow2 (-20) == pow2 (-21) + pow2 (-21)) by apply (pow2_double (-21)).
  pose proof (pow2_pos (-21)) as P21.
  assert (E' : Qabs (val (x + tenth) - (val x + val tenth)) <= pow2 (-20)) by lra.
  apply Qabs_Qle_condition in E'. apply Qabs_Qlt_condition. split; lra.
Qed.

(** [round2] on the floats up to [2^32]: down below a fractional part of
    0.4, up above it. *)
Lemma round2_small (x : float) :
  finite x = true -> Qabs (val x) <= pow2 32 ->
  (frac (val x) <= (2 # 5) - pow2 (-19) -> round2 x = Ret (Qfloor (val x)))
  /\ ((2 # 5) + pow2 (-19) <= frac (val x) ->
      round2 x = Ret (Qfloor (val x) + 1)%Z).
Proof.
  intros F B. rewrite (round2_value x F).
  pose proof (plus_tenth_small x F B) as S. apply Qabs_Qlt_condition in S.
  destruct (frac_range (val x)) as [F0 F1]. unfold frac in *.
  assert (P : pow2 (-19) <= 1 # 10).
  { apply Qle_trans with (pow2 (-4)); [apply pow2_le; lia | discriminate]. }
  pose proof (pow2_pos (-19)) as P0.
  set (y := val (x + tenth)) in *. set (fl := Qfloor (val x)) in *.
  split; intros H; f_equal.
  - rewrite (rhe_cases y fl (y - inject_Z fl)) by lra.
    rewrite cmp_lt by lra. reflexivity.
  - destruct (Qlt_le_dec y (inject_Z fl + 1)) as [C | C].
    + rewrite (rhe_cases y fl (y - inject_Z fl)) by lra.
      rewrite cmp_gt by lra. reflexivity.
    + rewrite (rhe_cases y (fl + 1) (y - inject_Z (fl + 1)));
        rewrite ?inject_Z_plus; change (inject_Z 1) with 1; try lra.
      rewrite cmp_lt by lra. reflexivity.
Qed.

(** The integers [round2] returns are ordered as its arguments. *)
Lemma round2_order (x y : float) :
  finite x = true -> finite y = true -> val x <= val y ->
  exists a b : Z, round2 x = Ret a /\ round2 y = Ret b /\ (a <= b)%Z.
Proof.
  intros Fx Fy H.
  destruct (round2_finite x Fx) as [p [Rx [Px _]]].
  destruct (round2_finite y Fy) as [q [Ry [Qy _]]].
  exists (round_half_even p), (round_half_even q).
  split; [exact Rx|]. split; [exact Ry|].
  apply rhe_mono. rewrite Px, Qy. apply rnd_mono. lra.
Qed.

(** C3, as amended: in binary64 the quantizer is [round], which rounds a
    tie to the even integer, applied to the float sum [num + 0.1], and not
    [floor(x + 0.5)].  On every float that is a number it returns an
    integer at most 1 away from [floor(x + 0.5)]; it equals [floor(x +
    0.5)] on every integer-valued float and on every half [k + 0.5] with
    [|k| < 2^49].  Up to [2^32] in magnitude it equals [floor(x + 0.5)]
    when the fractional part of [x] is at most [0.4 - 2^-19] or at least
    [0.5], and it is [floor(x + 0.5) + 1] when the fractional part is at
    least [0.4 + 2^-19] and below [0.5]. *)
Theorem round2_in_binary64 (x : float) :
  finite x = true ->
  exists n : Z,
    round2 x = Ret n
    /\ (Spec.quantize (val x) - 1 <= n <= Spec.quantize (val x) + 1)%Z
    /\ ((exists k : Z, val x == inject_Z k) -> n = Spec.quantize (val x))
    /\ ((exists k : Z, (Z.abs k < 2 ^ 49)%Z /\ val x == inject_Z k + (1 # 2)) ->
        n = Spec.quantize (val x))
    /\ (Qabs (val x) <= pow2 32 ->
        (frac (val x) <= (2 # 5) - pow2 (-19) -> n = Spec.quantize (val x))
        /\ ((2 # 5) + pow2 (-19) <= frac (val x) -> frac (val x) < 1 # 2 ->
            n = (Spec.quantize (val x) + 1)%Z)
        /\ (1 # 2 <= frac (val x) -> n = Spec.quantize (val x))).
Proof.
  intros F. destruct (round2_finite x F) as [y [R [Y [L U]]]].
  exists (round_half_even y). split; [exact R|].
  destruct (rhe_near y) as [N1 N2].
  destruct (quantize_spec (val x)) as [Q1 Q2].
  destruct (quantize_frac (val x)) as [QL QH].
  pose proof (pow2_pos (-19)) as P0.
  split; [|split; [|split; [|intros B; split; [|split]]]].
  - set (n := round_half_even y) in *. set (f := Spec.quantize (val x)) in *.
    split.
    + assert (H : inject_Z (f - 1) <= inject_Z n).
      { rewrite inject_Z_minus. change (inject_Z 1) with 1. lra. }
      apply inj_le_inv in H. exact H.
    + assert (H : inject_Z n < inject_Z (f + 2)).
      { rewrite inject_Z_plus. change (inject_Z 2) with 2. lra. }
      apply inj_lt_inv in H. lia.
  - intros [k K]. pose proof (round2_on_integer x k F K) as E.
    rewrite R in E. injection E as ->.
    symmetry. unfold Spec.quantize. apply Qfloor_unique; lra.
  - intros [k [Bk K]]. pose proof (round2_on_half x k F Bk K) as E.
    rewrite R in E. injection E as ->.
    symmetry. unfold Spec.quantize. apply Qfloor_unique;
      rewrite inject_Z_plus; change (inject_Z 1) with 1; lra.
  - intros H. destruct (round2_small x F B) as [S _].
    specialize (S H). rewrite R in S. injection S as ->.
    symmetry. apply QL. lra.
  - intros H1 H2. destruct (round2_small x F B) as [_ S].
    specialize (S H1). rewrite R in S. injection S as ->.
    rewrite (QL H2). reflexivity.
  - intros H. destruct (round2_small x F B) as [_ S].
    assert (H' : (2 # 5) + pow2 (-19) <= frac (val x)).
    { assert (P : pow2 (-19) <= 1 # 10).
      { apply Qle_trans with (pow2 (-4)); [apply pow2_le; lia | discriminate]. }
      lra. }
    specialize (S H'). rewrite R in S. injection S as ->.
    symmetry. apply QH. exact H.
Qed.

(** X1: on a float that is a number [round2] never raises and returns
    an integer at most 0.5 below and 0.75 above its argument; on an
    infinity it raises [OverflowError] and on a NaN [ValueError], as
    [round] does. *)
Theorem round2_error_bound (x : float) :
  (finite x = true ->
   exists n : Z, round2 x = Ret n
     /\ val x - (1 # 2) <= inject_Z n /\ inject_Z n <= val x + (3 # 4))
  /\ (forall s, Prim2SF x = S754_infinity s -> round2 x = Uncaught OverflowError)
  /\ (Prim2SF x = S754_nan -> round2 x = Uncaught ValueError).
Proof.
  split; [|split].
  - intros F. destruct (round2_finite x F) as [y [R [_ [L U]]]].
    exists (round_half_even y). split; [exact R|].
    destruct (rhe_near y) as [N1 N2]. split; lra.
  - intros s H. unfold round2. cbn [fround fadd B64.arith].
    apply (proj1 (round_not_finite _) s).
    rewrite FloatAxioms.add_spec, H. fold tenth.
    assert (T : exists st mt et, Prim2SF tenth = S754_finite st mt et)
      by (vm_compute; eauto).
    destruct T as [st [mt [et ->]]]. reflexivity.
  - intros H. unfold round2. cbn [fround fadd B64.arith].
    apply (proj2 (round_not_finite _)).
    rewrite FloatAxioms.add_spec, H. reflexivity.
Qed.

(** X2: [round2] is monotone on the floats that are numbers: a larger
    argument never gets a smaller integer.  The bounds checks of lines
    249-252 compare integers obtained this way. *)
Theorem round2_monotone (x y : float) :
  finite x = true -> finite y = true -> val x <= val y ->
  exists a b : Z, round2 x = Ret a /\ round2 y = Ret b /\ (a <= b)%Z.
Proof. apply round2_order. Qed.

(** X3: [round2] returns every integer-valued float unchanged, whatever
    its size, and rounds every half [k + 0.5] with [|k| < 2^49] up to
    [k + 1], also where [round] alone would go down to an even [k]. *)
Theorem round2_integers_and_halves (x : float) (k : Z) :
  finite x = true ->
  (val x == inject_Z k -> round2 x = Ret k)
  /\ ((Z.abs k < 2 ^ 49)%Z -> val x == inject_Z k + (1 # 2) ->
      round2 x = Ret (k + 1)%Z).
Proof.
  intros F. split.
  - apply round2_on_integer, F.
  - apply round2_on_half, F.
Qed.

End PythonFloats.

Lemma round2_in_binary64_witness :
  finite 2812.5%float = true
  /\ exists n : Z,
       round2 2812.5%float = Ret n
       /\ Spec.quantize (val 2812.5%float) - 1 <= n
          <= Spec.quantize (val 2812.5%float) + 1
       /\ ((exists k : Z, (val 2812.5%float == inject_Z k)%Q) ->
           n = Spec.quantize (val 2812.5%float))
       /\ ((exists k : Z,
              Z.abs k < 2 ^ 49 /\ (val 2812.5%float == inject_Z k + (1 # 2))%Q) ->
           n = Spec.quantize (val 2812.5%float))
       /\ ((Qabs (val 2812.5%float) <= pow2 32)%Q ->
           ((frac (val 2812.5%float) <= (2 # 5) - pow2 (-19))%Q ->
            n = Spec.quantize (val 2812.5%float))
           /\ (((2 # 5) + pow2 (-19) <= frac (val 2812.5%float))%Q ->
               (frac (val 2812.5%float) < 1 # 2)%Q ->
               n = Spec.quantize (val 2812.5%float) + 1)
           /\ ((1 # 2 <= frac (val 2812.5%float))%Q ->
               n = Spec.quantize (val 2812.5%float))).
Proof.
  split; [reflexivity|]. apply (round2_in_binary64 2812.5%float). reflexivity.
Defined.

Lemma round2_integers_and_halves_witness :
  finite 2812.5%float = true
  /\ ((val 2812.5%float == inject_Z 2812)%Q -> round2 2812.5%float = Ret 2812)
  /\ (Z.abs 2812 < 2 ^ 49 -> (val 2812.5%float == inject_Z 2812 + (1 # 2))%Q ->
      round2 2812.5%float = Ret (2812 + 1)).
Proof.
  split; [reflexivity|].
  apply (round2_integers_and_halves 2812.5%float 2812). reflexivity.
Defined.

Lemma round2_monotone_witness :
  (finite 0.25%float = true /\ finite 0.75%float = true
   /\ (val 0.25%float <= val 0.75%float)%Q)
  /\ exists a b : Z,
       round2 0.25%float = Ret a /\ round2 0.75%float = Ret b /\ a <= b.
Proof.
  split; [split; [reflexivity | split; [reflexivity | vm_compute; discriminate]]|].
  apply (round2_monotone 0.25%float 0.75%float);
    [reflexivity | reflexivity | vm_compute; discriminate].
Defined.

(** C3 fails: at [x = 0.4375] the quantizer returns 1 where
    [floor(x + 0.5)] is 0, and at [x = 2^51 + 0.5] it returns [2^51] where
    [floor(x + 0.5)] is [2^51 + 1].  Around a fractional part of 0.4 it
    goes either way: [round2 1.4] is 2 and [round2 0.4] is 0. *)
Lemma round2_rounds_up_below_half :
  round2 0.4375%float = Ret 1
  /\ (val 0.4375%float == 7 # 16)%Q
  /\ Spec.quantize (val 0.4375%float) = 0
  /\ round2 2251799813685248.5%float = Ret 2251799813685248
  /\ (val 2251799813685248.5%float == inject_Z 2251799813685248 + (1 # 2))%Q
  /\ Spec.quantize (val 2251799813685248.5%float) = 2251799813685249
  /\ round2 1.4%float = Ret 2
  /\ Spec.quantize (val 1.4%float) = 1
  /\ round2 0.4%float = Ret 0
  /\ Spec.quantize (val 0.4%float) = 0.
Proof. vm_compute. repeat split. Qed.

(* ================================================================== *)
(** * What a run does to the device *)
(* ================================================================== *)

Create HintDb quiet.

Section Effects.

Context {F : Type} {arith : PyFloat F}.
Variable W : Type.
Variable tool_exists : W -> bool.
Variable tool_run : list string -> W -> string * W.

Local Abbreviation M := (M W).

Lemma bind_ret {A B} (a : A) (k : A -> M B) (s : pstate W) :
  bind W (ret W a) k s = k a s.
Proof. reflexivity. Qed.

Lemma bind_lift_ret {A B} (a : A) (k : A -> M B) (s : pstate W) :
  bind W (lift W (Ret a)) k s = k a s.
Proof. reflexivity. Qed.

Lemma bind_print {B} (line : string) (k : unit -> M B) (s : pstate W) :
  bind W (print W line) k s =
  k tt {| world := world s; trace := trace s;
          printed := (printed s ++ [line])%list |}.
Proof. reflexivity. Qed.

Lemma quiet_ret {A} (a : A) : quiet (ret W a).
Proof. intros s. reflexivity. Qed.

Lemma quiet_lift {A} (o : outcome A) : quiet (lift W o).
Proof. intros s. reflexivity. Qed.

Lemma quiet_print (line : string) : quiet (print W line).
Proof. intros s. reflexivity. Qed.

Lemma writes_app (l1 l2 : list (list string)) :
  writes (l1 ++ l2) = (writes l1 ++ writes l2)%list.
Proof. apply filter_app. Qed.

Lemma run_trace (command : list string) (s : pstate W) :
  trace (snd (subprocess_run W tool_run command s)) = (trace s ++ [command])%list.
Proof. unfold subprocess_run. destruct (tool_run command (world s)). reflexivity. Qed.

Lemma run_returns (command : list string) (s : pstate W) :
  exists out, fst (subprocess_run W tool_run command s) = Ret out.
Proof.
  unfold subprocess_run. destruct (tool_run command (world s)) as [out w].
  exists out. reflexivity.
Qed.

Lemma quiet_read (command : list string) :
  is_write command = false -> quiet (subprocess_run W tool_run command).
Proof.
  intros H s. rewrite run_trace, writes_app. cbn [writes filter].
  rewrite H. apply app_nil_r.
Qed.

Lemma quiet_bind {A B} (c : M A) (k : A -> M B) :
  quiet c -> (forall a, quiet (k a)) -> quiet (bind W c k).
Proof.
  intros Hc Hk s. unfold bind. specialize (Hc s).
  destruct (c s) as [[a | code msg | e] s']; cbn [snd] in *;
    [rewrite Hk|..]; exact Hc.
Qed.

#[local] Hint Resolve quiet_ret quiet_lift quiet_print quiet_bind : quiet.

Lemma quiet_get_devices : quiet (get_devices W tool_run).
Proof.
  unfold get_devices. apply quiet_bind; [apply quiet_read; reflexivity|].
  intros stdout. destruct (_ <? _)%nat; auto with quiet.
Qed.

Lemma quiet_device_has_area (device : string) :
  quiet (device_has_area W tool_run device).
Proof.
  unfold device_has_area. apply quiet_bind; [apply quiet_read; reflexivity|].
  intros stdout. destruct (endswith _ _); auto with quiet.
Qed.

Lemma quiet_first_of_type (type : string) (devices : list (string * device_info)) :
  quiet (first_of_type W tool_run type devices).
Proof.
  induction devices as [| [device info] rest IH]; cbn [first_of_type].
  - apply quiet_ret.
  - destruct (String.eqb _ _); [|exact IH].
    apply quiet_bind; [apply quiet_device_has_area|].
    intros has. destruct has; [apply quiet_ret | exact IH].
Qed.

Lemma quiet_find_first_tablet : quiet (find_first_tablet W tool_run).
Proof.
  unfold find_first_tablet. apply quiet_bind; [apply quiet_get_devices|].
  intros [devices|]; [|apply quiet_lift].
  apply quiet_bind; [apply quiet_first_of_type|].
  intros [device|]; [apply quiet_ret | apply quiet_first_of_type].
Qed.

Lemma quiet_select_device (args : Args F) : quiet (select_device W tool_run args).
Proof.
  unfold select_device. apply quiet_bind.
  - destruct (args_device args); [apply quiet_ret | apply quiet_find_first_tablet].
  - intros [device|]; [|apply quiet_lift].
    apply quiet_bind; [apply quiet_device_has_area|].
    intros has. destruct (negb has); auto with quiet.
Qed.

(** A computation that adds the writes [l], followed by a quiet one, adds
    [l], however the first one ends. *)
Lemma writes_then_quiet {A B} (c : M A) (k : A -> M B) (l : list (list string)) :
  (forall s, writes (trace (snd (c s))) = (writes (trace s) ++ l)%list) ->
  (forall a, quiet (k a)) ->
  forall s, writes (trace (snd (bind W c k s))) = (writes (trace s) ++ l)%list.
Proof.
  intros Hc Hk s. unfold bind. specialize (Hc s).
  destruct (c s) as [[a | code msg | e] s1]; cbn [snd] in *;
    [rewrite Hk|..]; exact Hc.
Qed.

(** A quiet computation followed by one that adds writes with the property
    [Q]: the whole adds writes with [Q], also when the first part ends the
    run, provided adding nothing has [Q]. *)
Lemma quiet_then {A B} (c : M A) (k : A -> M B) (Q : list (list string) -> Prop) :
  quiet c -> Q [] ->
  (forall a s, exists l,
      writes (trace (snd (k a s))) = (writes (trace s) ++ l)%list /\ Q l) ->
  forall s, exists l,
    writes (trace (snd (bind W c k s))) = (writes (trace s) ++ l)%list /\ Q l.
Proof.
  intros Hc Q0 Hk s. unfold bind. specialize (Hc s).
  destruct (c s) as [[a | code msg | e] s1]; cbn [snd] in *.
  - destruct (Hk a s1) as [l [Hl HQ]]. exists l. rewrite Hl, Hc. auto.
  - exists []. rewrite app_nil_r. auto.
  - exists []. rewrite app_nil_r. auto.
Qed.

(** The reset of line 79 is the one write of [get_tablet_max_area], and a
    dry run leaves it out. *)
Lemma get_tablet_max_area_writes (device : string) (dry_run : bool) (s : pstate W) :
  writes (trace (snd (get_tablet_max_area W tool_run device dry_run s))) =
  (writes (trace s) ++ if dry_run then [] else [reset_command device])%list.
Proof.
  unfold get_tablet_max_area. revert s. apply writes_then_quiet.
  - intros s. destruct dry_run; cbn [negb].
    + rewrite app_nil_r; reflexivity.
    + unfold bind. fold (reset_command device).
      destruct (run_returns (reset_command device) s) as [out Hout].
      pose proof (run_trace (reset_command device) s) as Htr.
      destruct (subprocess_run W tool_run (reset_command device) s) as [r s1].
      cbn [fst snd] in *. subst r. cbn [ret fst snd].
      rewrite Htr, writes_app. reflexivity.
  - intros _. apply quiet_bind; [apply quiet_read; reflexivity|].
    intros stdout. destruct (split_ws _) as [|x1 [|y1 [|x2 [|y2 [|]]]]];
      try apply quiet_lift.
    apply quiet_bind; [|intros; apply quiet_ret].
    destruct dry_run; auto with quiet.
Qed.

Lemma select_device_area_writes (args : Args F) (device : string) (s : pstate W) :
  writes (trace (snd (select_device_area W tool_run args device s))) =
  (writes (trace s) ++
   match args_device_area args with
   | Some _ => []
   | None => if args_dry_run args then [] else [reset_command device]
   end)%list.
Proof.
  unfold select_device_area. destruct (args_device_area args) as [device_area|].
  - rewrite app_nil_r. destruct (device_area_valid device_area); reflexivity.
  - unfold bind.
    pose proof (get_tablet_max_area_writes device (args_dry_run args) s) as H.
    destruct (get_tablet_max_area W tool_run device (args_dry_run args) s)
      as [[xy | code msg | e] s1]; exact H.
Qed.

Lemma set_area_writes (device : string) (x1 y1 x2 y2 : Z) (verbose dry_run : bool)
    (s : pstate W) :
  fst (set_area W tool_run device x1 y1 x2 y2 verbose dry_run s) = Ret tt
  /\ writes (trace (snd (set_area W tool_run device x1 y1 x2 y2 verbose dry_run s))) =
     (writes (trace s) ++
      if dry_run then [] else [area_command device (x1, y1, x2, y2)])%list.
Proof.
  unfold set_area. fold (area_command device (x1, y1, x2, y2)).
  set (command := area_command device (x1, y1, x2, y2)).
  assert (Run : forall s0 : pstate W,
             fst (bind W (subprocess_run W tool_run command)
                    (fun _ => ret W tt) s0) = Ret tt
             /\ writes (trace (snd (bind W (subprocess_run W tool_run command)
                                      (fun _ => ret W tt) s0)))
                = (writes (trace s0) ++ [command])%list).
  { intros s0. unfold bind.
    destruct (run_returns command s0) as [out Hout].
    pose proof (run_trace command s0) as Htr.
    destruct (subprocess_run W tool_run command s0) as [r s2].
    cbn [fst snd] in *. subst r. cbn [ret fst snd]. split; [reflexivity|].
    rewrite Htr, writes_app. reflexivity. }
  destruct verbose, dry_run; cbn [negb];
    rewrite ?bind_print, ?bind_ret;
    first [ match goal with
            | |- context [bind W (subprocess_run W tool_run command) _ ?s0] =>
                exact (Run s0)
            end
          | split; [reflexivity | cbn [ret snd trace]; rewrite app_nil_r; reflexivity] ].
Qed.

Lemma prepare_writes (args : Args F) (s : pstate W) :
  exists l,
    writes (trace (snd (prepare W tool_exists tool_run args s))) =
      (writes (trace s) ++ l)%list
    /\ reset_only args l.
Proof.
  unfold prepare. revert s.
  apply quiet_then; [apply quiet_lift | left; reflexivity |]. intros _.
  apply quiet_then; [intros s; reflexivity | left; reflexivity |]. intros exists_.
  destruct (negb exists_).
  { intros s. exists []. rewrite app_nil_r. split; [reflexivity | left; reflexivity]. }
  apply quiet_then; [apply quiet_lift | left; reflexivity |]. intros _.
  apply quiet_then; [apply quiet_select_device | left; reflexivity |]. intros device.
  apply quiet_then; [destruct (aspect_valid _); auto with quiet | left; reflexivity |].
  intros _ s.
  exists (match args_device_area args with
          | Some _ => []
          | None => if args_dry_run args then [] else [reset_command device]
          end).
  split.
  - revert s. apply writes_then_quiet; [apply select_device_area_writes|].
    intros device_area. auto 6 with quiet.
  - unfold reset_only. destruct (args_device_area args); [left; reflexivity|].
    destruct (args_dry_run args) eqn:D; [left; reflexivity|].
    right. exists device. auto.
Qed.

(** A [bind] that returns went through both of its parts. *)
Lemma bind_returns {A B} (c : M A) (k : A -> M B) (s : pstate W) (b : B) :
  fst (bind W c k s) = Ret b ->
  exists a s', c s = (Ret a, s') /\ fst (k a s') = Ret b.
Proof.
  unfold bind. destruct (c s) as [[a | code msg | e] s']; cbn [fst];
    [eauto | discriminate | discriminate].
Qed.

(** An area that [checked_area] returns passed both bounds checks of lines
    249-252: its far corner, rounded, is not beyond the rounded tablet. *)
Lemma checked_area_sound (tw th w h ox oy : F) (x1 y1 x2 y2 : Z) :
  checked_area tw th w h ox oy = Ret (x1, y1, x2, y2) ->
  exists rtw rth,
    round2 tw = Ret rtw /\ round2 th = Ret rth
    /\ round2 ox = Ret x1 /\ round2 oy = Ret y1
    /\ round2 (fadd ox w) = Ret x2 /\ round2 (fadd oy h) = Ret y2
    /\ (x2 <= rtw)%Z /\ (y2 <= rth)%Z.
Proof.
  unfold checked_area.
  destruct (round2 (fadd ox w)) as [rx2 | |]; cbn [obind]; try discriminate.
  destruct (round2 tw) as [rtw | |]; cbn [obind]; try discriminate.
  destruct (Z.ltb_spec rtw rx2); [discriminate|].
  destruct (round2 (fadd oy h)) as [ry2 | |]; cbn [obind]; try discriminate.
  destruct (round2 th) as [rth | |]; cbn [obind]; try discriminate.
  destruct (Z.ltb_spec rth ry2); [discriminate|].
  destruct (round2 ox) as [rx1 | |]; cbn [obind]; try discriminate.
  destruct (round2 oy) as [ry1 | |]; cbn [obind]; try discriminate.
  intros [= <- <- <- <-]. exists rtw, rth. auto 10.
Qed.

(** What [prepare] returns is an area that [calculate_area] returned: the
    conversions, the size, the offset and the bounds checks all went
    through. *)
Lemma prepare_validated (args : Args F) (s : pstate W) (device : string)
    (area : Z * Z * Z * Z) :
  fst (prepare W tool_exists tool_run args s) = Ret (device, area) ->
  exists (device_area : string) (size : option F * option F),
    convert_units args = Ret size
    /\ calculate_area (args_aspect args) device_area (args_full args)
         (fst size) (snd size) (args_align args) = Ret area.
Proof.
  unfold prepare. intros H.
  apply bind_returns in H. destruct H as [_ [s1 [_ H]]].
  apply bind_returns in H. destruct H as [exists_ [s2 [_ H]]].
  destruct (negb exists_); [discriminate|].
  apply bind_returns in H. destruct H as [_ [s3 [_ H]]].
  apply bind_returns in H. destruct H as [device' [s4 [_ H]]].
  apply bind_returns in H. destruct H as [_ [s5 [_ H]]].
  apply bind_returns in H. destruct H as [device_area [s6 [_ H]]].
  apply bind_returns in H. destruct H as [size [s7 [Hsize H]]].
  apply bind_returns in H. destruct H as [area' [s8 [Harea H]]].
  cbn [ret fst] in H. injection H as _ <-.
  exists device_area, size. unfold lift in Hsize, Harea.
  injection Hsize as -> _. injection Harea as -> _. split; reflexivity.
Qed.

(** C5, as amended: in every run the device writes are, in order, at most
    one reset to the full area (line 79) and at most one assignment of the
    computed area (line 118).  The reset happens before any validation of the
    geometry, and only when no [--device-area] is given outside a dry run.
    The assignment happens only when everything before it returned, the
    bounds checks included, and then the run succeeds; so a run that fails
    assigns no area, and with [--device-area] or in a dry run it writes
    nothing at all. *)
Theorem device_written_after_validation (args : Args F) (s : pstate W) :
  exists pre fin,
    writes (trace (snd (main W tool_exists tool_run args s))) =
      (writes (trace s) ++ pre ++ fin)%list
    /\ reset_only args pre
    /\ (fin = [] \/
        exists device area,
          fin = [area_command device area]
          /\ fst (prepare W tool_exists tool_run args s) = Ret (device, area)
          /\ fst (main W tool_exists tool_run args s) = Ret tt
          /\ args_dry_run args = false)
    /\ (fst (main W tool_exists tool_run args s) <> Ret tt -> fin = [])
    /\ (args_device_area args <> None \/ args_dry_run args = true -> pre = []).
Proof.
  destruct (prepare_writes args s) as [pre [Hpre Rpre]].
  assert (Pre : args_device_area args <> None \/ args_dry_run args = true ->
                pre = []).
  { intros H. destruct Rpre as [E | [device [_ [Ha Hd]]]]; [exact E|].
    destruct H as [H | H]; congruence. }
  exists pre. unfold main, bind.
  destruct (prepare W tool_exists tool_run args s)
    as [[[device [[[x1 y1] x2] y2]] | code msg | e] s1]; cbn [fst snd] in *.
  - destruct (set_area_writes device x1 y1 x2 y2 (args_v args) (args_dry_run args) s1)
      as [Hr Hw].
    exists (if args_dry_run args then [] else [area_command device (x1, y1, x2, y2)]).
    rewrite Hw, Hpre, <- app_assoc. split; [reflexivity|]. split; [exact Rpre|].
    split; [|split; [intros N; contradiction | exact Pre]].
    destruct (args_dry_run args); [left; reflexivity|].
    right. exists device, (x1, y1, x2, y2). auto.
  - exists []. rewrite app_nil_r. auto 6.
  - exists []. rewrite app_nil_r. auto 6.
Qed.

Lemma parse_args_cases (args : Args F) :
  parse_args args = Ret tt \/ exists msg, parse_args args = Exit 2 msg.
Proof.
  unfold parse_args. destruct (negb _); [right; eexists; reflexivity|].
  destruct (negb _); [right; eexists; reflexivity | left; reflexivity].
Qed.

(** When [prepare] ends the run, so does [main], in the same state. *)
Lemma main_of_prepare_exit (args : Args F) (s s' : pstate W) (code : Z) (msg : string) :
  prepare W tool_exists tool_run args s = (Exit code msg, s') ->
  main W tool_exists tool_run args s = (Exit code msg, s').
Proof. intros H. unfold main, bind. rewrite H. reflexivity. Qed.

Lemma verify_arguments_conflict (args : Args F) :
  (args_width args <> None /\ args_height args <> None)
  \/ (args_width args = None /\ args_height args = None /\ args_full args = false) ->
  verify_arguments args =
  Exit 1 (if is_some (args_width args) then used_together else exactly_one).
Proof.
  intros H. unfold verify_arguments. cbn [scan_group].
  unfold arg_found. cbn [String.eqb Ascii.eqb Bool.eqb].
  destruct H as [[Hw Hh] | [Hw [Hh Hf]]].
  - destruct (args_width args); [|congruence].
    destruct (args_height args); [|congruence]. reflexivity.
  - rewrite Hw, Hh, Hf. reflexivity.
Qed.

(** C8: a command line that gives both [--width] and [--height], or none of
    [--width], [--height] and [--full], is rejected with a status that is
    not zero and before the tool is run or anything is printed: the state,
    trace included, is the one the run started in.  When [argparse] accepted
    the command line and the tool is installed, the status is 1 and the
    message is the one of line 148, respectively line 150. *)
Theorem conflicting_size_arguments_rejected (args : Args F) (s : pstate W) :
  (args_width args <> None /\ args_height args <> None)
  \/ (args_width args = None /\ args_height args = None /\ args_full args = false) ->
  exists code msg,
    main W tool_exists tool_run args s = (Exit code msg, s)
    /\ code <> 0%Z
    /\ (parse_args args = Ret tt -> tool_exists (world s) = true ->
        code = 1%Z
        /\ msg = if is_some (args_width args) then used_together else exactly_one).
Proof.
  intros H.
  destruct (parse_args_cases args) as [P | [m P]].
  2:{ exists 2%Z, m. split; [|split; [discriminate | rewrite P; discriminate]].
      apply main_of_prepare_exit. unfold prepare. rewrite P. reflexivity. }
  destruct (tool_exists (world s)) eqn:T.
  2:{ exists 1%Z, (xsetwacom ++ " not found").
      split; [|split; [discriminate | discriminate]].
      apply main_of_prepare_exit. unfold prepare. rewrite P, bind_lift_ret.
      unfold bind at 1. rewrite T. reflexivity. }
  exists 1%Z, (if is_some (args_width args) then used_together else exactly_one).
  split; [|split; [discriminate | intros _ _; split; reflexivity]].
  apply main_of_prepare_exit. unfold prepare. rewrite P, bind_lift_ret.
  unfold bind at 1. rewrite T. cbn [negb].
  rewrite (verify_arguments_conflict args H). reflexivity.
Qed.

End Effects.

(* ================================================================== *)
(** * The alignments *)
(* ================================================================== *)

Lemma parse_args_bad_align {F} (args : Args F) :
  member (args_align args) align_choices = false ->
  exists msg, parse_args args = Exit 2 msg.
Proof.
  intros H. unfold parse_args. destruct (negb (member (args_unit args) _)).
  - eexists; reflexivity.
  - rewrite H. eexists; reflexivity.
Qed.

(* ================================================================== *)
(** * The offsets in binary64 *)
(* ================================================================== *)

Section Offsets.

Local Open Scope Q_scope.

Lemma leb_val (x y : float) :
  finite x = true -> finite y = true ->
  (PrimFloat.leb x y = true <-> val x <= val y).
Proof.
  intros Fx Fy. rewrite FloatAxioms.leb_spec. unfold SFleb.
  rewrite (SFcompare_val _ _ (Prim2SF_valid x) (Prim2SF_valid y) Fx Fy).
  fold (val x) (val y). destruct (Qcompare_spec (val x) (val y)) as [C | C | C];
    split; intros H; try discriminate; try reflexivity; lra.
Qed.

(** What [ordinary] says. *)
Lemma ordinary_inv (x : float) :
  ordinary x = true ->
  finite x = true
  /\ (val x == 0 \/ pow2 (-1021) <= Qabs (val x))
  /\ Qabs (val x) <= pow2 1022.
Proof.
  unfold ordinary. intros H.
  apply andb_true_iff in H. destruct H as [H B].
  apply andb_true_iff in H. destruct H as [F Z].
  apply Qle_bool_iff in B. split; [exact F|]. split; [|exact B].
  apply orb_true_iff in Z. destruct Z as [Z | Z].
  - left. apply Qeq_bool_iff. exact Z.
  - right. apply Qle_bool_iff. exact Z.
Qed.

(** Half an ordinary float is a float. *)
Lemma half_representable (x : float) :
  ordinary x = true -> representable (val x * (1 # 2)).
Proof.
  intros O. destruct (ordinary_inv x O) as [F [Z _]].
  unfold val, finite in *. pose proof (Prim2SF_valid x) as V.
  destruct (Prim2SF x) as [s | s | | s m e]; try discriminate; cbn [SFval] in *.
  - exists 0%Z, 0%Z. split; [lia|]. split; [reflexivity|]. reflexivity.
  - cbn [SpecFloat.valid_binary] in V. pose proof (bounded_lt m e V) as B.
    destruct (bounded_inv m e V) as [_ [[E1 _] _]].
    assert (P : 0 < inject_Z (Zpos m) * pow2 e).
    { apply Qmult_lt_0_compat; [apply (inj_lt 0); lia | apply pow2_pos]. }
    assert (A : pow2 (-1021) <= inject_Z (Zpos m) * pow2 e).
    { destruct Z as [Z | Z].
      - exfalso. destruct s; lra.
      - destruct s; [rewrite Qabs_opp in Z|]; rewrite Qabs_pos in Z by lra; exact Z. }
    assert (E : (-1074 < e)%Z).
    { assert (Lt : pow2 (-1021) < pow2 (53 + e)).
      { apply Qle_lt_trans with (inject_Z (Zpos m) * pow2 e); [exact A|].
        rewrite pow2_add. apply Qmult_lt_r; [apply pow2_pos|].
        rewrite pow2_Z by lia. apply inj_lt. exact B. }
      apply pow2_lt_inv in Lt. lia. }
    assert (H : pow2 e * (1 # 2) == pow2 (e - 1)).
    { replace e with ((e - 1) + 1)%Z at 1 by lia. rewrite pow2_succ. field. }
    destruct s.
    + exists (Zneg m), (e - 1)%Z. split; [lia|]. split; [exact B|].
      change (Zneg m) with (- Zpos m)%Z. rewrite inject_Z_opp, <- H. ring.
    + exists (Zpos m), (e - 1)%Z. split; [lia|]. split; [exact B|].
      rewrite <- H. ring.
Qed.

(** [x / 2] is exact on an ordinary float. *)
Lemma half_exact (x : float) :
  ordinary x = true ->
  finite (x / int_const 2) = true
  /\ val (x / int_const 2) == val x * (1 # 2)
  /\ Qabs (val x * (1 # 2)) <= pow2 1021.
Proof.
  intros O. destruct (ordinary_inv x O) as [F [_ B]].
  destruct int_const_2 as [F2 V2].
  assert (N2 : ~ val (int_const 2) == 0) by (rewrite V2; discriminate).
  pose proof (div_rounded x (int_const 2) F F2 N2) as R.
  assert (E : val x / val (int_const 2) == val x * (1 # 2)) by (rewrite V2; field).
  apply (rounded_comp _ _ _ E) in R.
  assert (Bh : Qabs (val x * (1 # 2)) <= pow2 1021).
  { rewrite Qabs_Qmult. change (Qabs (1 # 2)) with (1 # 2).
    assert (D : pow2 1022 == pow2 1021 + pow2 1021) by apply (pow2_double 1021).
    lra. }
  assert (Fin : finite (x / int_const 2) = true).
  { apply (rounded_no_overflow _ _ R).
    apply Qle_trans with (pow2 1021); [exact Bh | apply pow2_le; lia]. }
  split; [exact Fin|]. split; [|exact Bh].
  rewrite (rounded_finite _ _ R Fin). apply rnd_exact, half_representable, O.
Qed.

(** The same with finiteness: the difference of two floats below
    [2^1022] is a float, the nearest to the exact difference. *)
Lemma sub_finite (a b : float) :
  finite a = true -> finite b = true ->
  Qabs (val a) <= pow2 1022 -> Qabs (val b) <= pow2 1022 ->
  finite (a - b) = true /\ val (a - b) == rnd (val a - val b).
Proof.
  intros Fa Fb Ba Bb. pose proof (sub_rounded a b Fa Fb) as R.
  assert (B : Qabs (val a - val b) <= pow2 1023).
  { apply Qabs_Qle_condition in Ba, Bb. apply Qabs_Qle_condition.
    pose proof (pow2_double 1022) as D. change (1022 + 1)%Z with 1023%Z in D. lra. }
  assert (Fin : finite (a - b) = true) by (apply (rounded_no_overflow _ _ R B)).
  split; [exact Fin | apply (rounded_finite _ _ R Fin)].
Qed.

Lemma add_finite (a b : float) :
  finite a = true -> finite b = true ->
  Qabs (val a + val b) <= pow2 1023 ->
  finite (a + b) = true /\ val (a + b) == rnd (val a + val b).
Proof.
  intros Fa Fb B. pose proof (add_rounded a b Fa Fb) as R.
  assert (Fin : finite (a + b) = true) by (apply (rounded_no_overflow _ _ R B)).
  split; [exact Fin | apply (rounded_finite _ _ R Fin)].
Qed.

(** The three offsets of an axis. *)
Lemma zero_offset :
  finite (int_const 0) = true /\ val (int_const 0) == rnd 0.
Proof. destruct int_const_0 as [F V]. split; [exact F | rewrite V; reflexivity]. Qed.

Lemma full_offset (t s : float) :
  ordinary t = true -> ordinary s = true ->
  finite (t - s) = true /\ val (t - s) == rnd (val t - val s).
Proof.
  intros Ot Os. destruct (ordinary_inv t Ot) as [Ft [_ Bt]].
  destruct (ordinary_inv s Os) as [Fs [_ Bs]].
  apply sub_finite; assumption.
Qed.

Lemma centre_offset (t s : float) :
  ordinary t = true -> ordinary s = true ->
  finite (t / int_const 2 - s / int_const 2) = true
  /\ val (t / int_const 2 - s / int_const 2) == rnd ((val t - val s) / 2).
Proof.
  intros Ot Os.
  destruct (half_exact t Ot) as [Ft [Vt Bt]]. destruct (half_exact s Os) as [Fs [Vs Bs]].
  rewrite <- Vt in Bt. rewrite <- Vs in Bs.
  assert (L : pow2 1021 <= pow2 1022) by (apply pow2_le; lia).
  destruct (sub_finite _ _ Ft Fs) as [F V]; try lra.
  split; [exact F|]. rewrite V. apply rnd_comp. rewrite Vt, Vs. field.
Qed.

Lemma agrees_of (o : float) (X : Q) :
  finite o = true -> val o == rnd X ->
  (exists j : Z, X == inject_Z j * pow2 (-1074)) ->
  agrees o X.
Proof.
  intros F V [j G]. split; [exact F|]. split; [exact V|]. split.
  - rewrite V. apply (rnd_rel_grid X j G).
  - intros R. rewrite V. apply rnd_exact, R.
Qed.

Lemma agrees_zero : agrees (int_const 0) 0.
Proof.
  destruct zero_offset as [F V].
  apply agrees_of; [exact F | exact V | exists 0%Z; reflexivity].
Qed.

Lemma agrees_full (t s : float) :
  ordinary t = true -> ordinary s = true ->
  agrees (t - s) (val t - val s).
Proof.
  intros Ot Os. destruct (full_offset t s Ot Os) as [F V].
  apply agrees_of; [exact F | exact V |].
  apply grid_sub; apply on_grid, val_representable.
Qed.

Lemma agrees_centre (t s : float) :
  ordinary t = true -> ordinary s = true ->
  agrees (t / int_const 2 - s / int_const 2) ((val t - val s) / 2).
Proof.
  intros Ot Os. destruct (centre_offset t s Ot Os) as [F V].
  apply agrees_of; [exact F | exact V |].
  destruct (grid_sub (val t * (1 # 2)) (val s * (1 # 2))) as [j G].
  - apply on_grid, half_representable, Ot.
  - apply on_grid, half_representable, Os.
  - exists j. rewrite <- G. field.
Qed.

Lemma table_domain (align : string) (tw th w h : Q) :
  is_some (Spec.alignment_table align tw th w h) = member align align_choices.
Proof.
  unfold Spec.alignment_table, member, align_choices. cbn [existsb].
  repeat match goal with
         | |- context [String.eqb align ?lit] => destruct (String.eqb align lit)
         end; reflexivity.
Qed.

(** The offsets of lines 218-244 against the table of section 4.3. *)
Lemma calculate_offset_agrees (align : string) (tw th w h : float) :
  ordinary tw = true -> ordinary th = true ->
  ordinary w = true -> ordinary h = true ->
  match Spec.alignment_table align (val tw) (val th) (val w) (val h) with
  | Some (X, Y) =>
      agrees (fst (calculate_offset align tw th w h)) X
      /\ agrees (snd (calculate_offset align tw th w h)) Y
  | None => True
  end.
Proof.
  intros Otw Oth Ow Oh.
  pose proof agrees_zero as Z.
  pose proof (agrees_full tw w Otw Ow) as FX.
  pose proof (agrees_full th h Oth Oh) as FY.
  pose proof (agrees_centre tw w Otw Ow) as CX.
  pose proof (agrees_centre th h Oth Oh) as CY.
  unfold calculate_offset, Spec.alignment_table.
  cbn [fsub fquot B64.arith].
  repeat match goal with
         | |- context [String.eqb align ?lit] => destruct (String.eqb align lit)
         end; cbn [fst snd]; try exact I; split; assumption.
Qed.

Section Alignments.

Variable W : Type.
Variable tool_exists : W -> bool.
Variable tool_run : list string -> W -> string * W.


End Alignments.

End Offsets.

(* ================================================================== *)
(** * The area stays on the tablet *)
(* ================================================================== *)

Section Inside.

Local Open Scope Q_scope.

Lemma ulp_small : 0 < pow2 (-53) /\ pow2 (-53) <= 1 # 2.
Proof.
  split; [apply pow2_pos|].
  apply Qle_trans with (pow2 (-1)); [apply pow2_le; lia | discriminate].
Qed.

Lemma ordinary_bounds (x : float) :
  ordinary x = true ->
  finite x = true /\ - pow2 1022 <= val x /\ val x <= pow2 1022.
Proof.
  intros O. destruct (ordinary_inv x O) as [F [_ B]].
  apply Qabs_Qle_condition in B. split; [exact F | exact B].
Qed.

Lemma big_double : pow2 1023 == pow2 1022 + pow2 1022.
Proof. apply (pow2_double 1022). Qed.

(** An area at the left or the top edge ends where its size says. *)
Lemma zero_stays (s : float) :
  ordinary s = true ->
  finite (int_const 0 + s) = true /\ val (int_const 0 + s) == val s.
Proof.
  intros Os. destruct (ordinary_bounds s Os) as [Fs [Ls Us]].
  destruct int_const_0 as [F0 V0]. pose proof big_double as D.
  pose proof (pow2_pos 1022) as P.
  destruct (add_finite (int_const 0) s F0 Fs) as [F V].
  { rewrite V0. apply Qabs_Qle_condition. lra. }
  split; [exact F|]. rewrite V, V0.
  setoid_replace (0 + val s) with (val s) by ring.
  apply rnd_exact, val_representable.
Qed.

(** A centred area ends inside the tablet. *)
Lemma centre_stays (t s : float) :
  ordinary t = true -> ordinary s = true -> val s <= val t ->
  finite (t / int_const 2 - s / int_const 2 + s) = true
  /\ val (t / int_const 2 - s / int_const 2 + s) <= val t.
Proof.
  intros Ot Os L.
  destruct (ordinary_bounds t Ot) as [Ft [Lt Ut]].
  destruct (ordinary_bounds s Os) as [Fs [Ls Us]].
  destruct (agrees_centre t s Ot Os) as [Fc [Vc [Ec _]]].
  pose proof big_double as D. destruct ulp_small as [U0 U1].
  set (c := (t / int_const 2 - s / int_const 2)%float) in *.
  set (a := (val t - val s) / 2) in *.
  assert (A : a == (val t - val s) * (1 # 2)) by (unfold a; field).
  assert (A0 : 0 <= a) by lra.
  assert (C0 : 0 <= val c) by (rewrite Vc; apply rnd_nonneg, A0).
  rewrite (Qabs_pos a A0) in Ec.
  assert (S : pow2 (-53) * a <= (1 # 2) * a).
  { apply Qmult_le_compat_r; assumption. }
  apply Qabs_Qle_condition in Ec.
  assert (B : val c + val s <= val t) by lra.
  destruct (add_finite c s Fc Fs) as [F V].
  { apply Qabs_Qle_condition. lra. }
  split; [exact F|]. rewrite V.
  rewrite <- (rnd_exact (val t) (val_representable t)). apply rnd_mono, B.
Qed.

(** An area pushed to the right or the bottom edge ends within one
    rounding of the subtraction and one of the addition of it. *)
Lemma full_stays (t s : float) :
  ordinary t = true -> ordinary s = true -> val s <= val t ->
  finite (t - s + s) = true
  /\ Qabs (val (t - s + s) - val t) <= pow2 (-52) * (val t - val s)
  /\ (representable (val t - val s) -> val (t - s + s) == val t).
Proof.
  intros Ot Os L.
  destruct (ordinary_bounds t Ot) as [Ft [Lt Ut]].
  destruct (ordinary_bounds s Os) as [Fs [Ls Us]].
  destruct (agrees_full t s Ot Os) as [Fc [Vc [Ec Xc]]].
  pose proof big_double as D. destruct ulp_small as [U0 U1].
  set (c := (t - s)%float) in *.
  set (a := val t - val s) in *.
  assert (A0 : 0 <= a) by (unfold a; lra).
  assert (C0 : 0 <= val c) by (rewrite Vc; apply rnd_nonneg, A0).
  rewrite (Qabs_pos a A0) in Ec.
  assert (S : pow2 (-53) * a <= (1 # 2) * a).
  { apply Qmult_le_compat_r; assumption. }
  assert (H52 : pow2 (-52) * a == pow2 (-53) * a + pow2 (-53) * a).
  { change (-52)%Z with (-53 + 1)%Z. rewrite pow2_double. ring. }
  set (d := pow2 (-53) * a) in *.
  pose proof Ec as Ec'. apply Qabs_Qle_condition in Ec'.
  assert (B : val c + val s <= pow2 1023) by (unfold a in *; lra).
  destruct (add_finite c s Fc Fs) as [F V].
  { apply Qabs_Qle_condition. lra. }
  split; [exact F|]. split.
  - pose proof (rnd_nearest (val c + val s) (val t) (val_representable t)) as N.
    rewrite <- V in N.
    assert (E : Qabs (val t - (val c + val s)) <= d).
    { setoid_replace (val t - (val c + val s)) with (- (val c - a))
        by (unfold a; ring).
      rewrite Qabs_opp. exact Ec. }
    assert (N' : Qabs (val (c + s) - (val c + val s)) <= d) by lra.
    apply Qabs_Qle_condition in E, N'. apply Qabs_Qle_condition.
    rewrite H52. lra.
  - intros R. rewrite V. rewrite (Xc R).
    setoid_replace (a + val s) with (val t) by (unfold a; ring).
    apply rnd_exact, val_representable.
Qed.


End Inside.

(* ================================================================== *)
(** * The full area *)
(* ================================================================== *)

Section FullArea.

Local Open Scope Q_scope.

Lemma within_inv (lo hi : Z) (x : float) :
  within lo hi x = true ->
  finite x = true /\ pow2 lo <= val x /\ val x <= pow2 hi.
Proof.
  unfold within. intros H.
  apply andb_true_iff in H. destruct H as [H B].
  apply andb_true_iff in H. destruct H as [F A].
  apply Qle_bool_iff in A, B. auto.
Qed.

Lemma within_intro (lo hi : Z) (x : float) :
  finite x = true -> pow2 lo <= val x -> val x <= pow2 hi ->
  within lo hi x = true.
Proof.
  intros F A B. unfold within. rewrite F.
  apply Qle_bool_iff in A, B. rewrite A, B. reflexivity.
Qed.

Lemma within_pos (lo hi : Z) (x : float) :
  within lo hi x = true -> finite x = true /\ 0 < val x.
Proof.
  intros H. destruct (within_inv lo hi x H) as [F [A _]].
  split; [exact F|]. pose proof (pow2_pos lo). lra.
Qed.

Lemma fzero_pos (x : float) : finite x = true -> 0 < val x -> fzero x = false.
Proof.
  intros F P. cbn [fzero B64.arith].
  destruct (PrimFloat.eqb x 0) eqn:E; [|reflexivity].
  apply (eqb_val x 0%float F eq_refl) in E.
  change (val 0%float) with 0 in E. lra.
Qed.

Lemma fdiv_pos (a b : float) :
  finite b = true -> 0 < val b -> fdiv a b = Ret (a / b)%float.
Proof. intros F P. unfold fdiv. rewrite (fzero_pos b F P). reflexivity. Qed.

Lemma rnd_range (v : Q) (lo hi : Z) :
  (-1074 <= lo)%Z -> (-1074 <= hi)%Z -> pow2 lo <= v -> v <= pow2 hi ->
  pow2 lo <= rnd v /\ rnd v <= pow2 hi.
Proof.
  intros L H A B. split.
  - rewrite <- (rnd_exact (pow2 lo) (pow2_representable lo L)). apply rnd_mono, A.
  - rewrite <- (rnd_exact (pow2 hi) (pow2_representable hi H)). apply rnd_mono, B.
Qed.

Lemma mul_range (x y l1 h1 l2 h2 : Q) :
  0 < l1 -> 0 < l2 -> l1 <= x -> x <= h1 -> l2 <= y -> y <= h2 ->
  l1 * l2 <= x * y /\ x * y <= h1 * h2.
Proof. intros. split; nra. Qed.

Lemma inv_range (lo hi : Z) (y : Q) :
  pow2 lo <= y -> y <= pow2 hi -> pow2 (- hi) <= / y /\ / y <= pow2 (- lo).
Proof.
  intros A B. pose proof (pow2_pos lo) as P. pose proof (pow2_pos hi) as P'.
  assert (Y : 0 < y) by lra.
  assert (I : 0 < / y) by (apply Qinv_lt_0_compat, Y).
  assert (E : y * / y == 1) by (apply Qmult_inv_r; lra).
  assert (Eh : pow2 hi * pow2 (- hi) == 1).
  { rewrite <- pow2_add. replace (hi + - hi)%Z with 0%Z by lia. apply pow2_0. }
  assert (El : pow2 lo * pow2 (- lo) == 1).
  { rewrite <- pow2_add. replace (lo + - lo)%Z with 0%Z by lia. apply pow2_0. }
  pose proof (pow2_pos (- hi)) as Q1. pose proof (pow2_pos (- lo)) as Q2.
  split; nra.
Qed.

(** A product or a quotient of two positive floats that stays in the
    normal range is a float within [2^-53] of the exact one. *)
Lemma rounded_within (v : Q) (r : float) (lo hi : Z) :
  rounded v (Prim2SF r) ->
  (-1022 <= lo)%Z -> (hi <= 1023)%Z -> pow2 lo <= v -> v <= pow2 hi ->
  within lo hi r = true
  /\ val r == rnd v
  /\ Qabs (val r - v) <= pow2 (-53) * v.
Proof.
  intros R L H A B. pose proof (pow2_pos lo) as P.
  assert (LH : (lo <= hi)%Z).
  { apply pow2_le_inv. lra. }
  assert (V0 : 0 < v) by lra.
  assert (F : finite r = true).
  { apply (rounded_no_overflow _ _ R). rewrite Qabs_pos by lra.
    apply Qle_trans with (pow2 hi); [exact B | apply pow2_le; lia]. }
  pose proof (rounded_finite _ _ R F) as E. fold (val r) in E.
  destruct (rnd_range v lo hi) as [A' B']; try lia; try assumption.
  split; [|split].
  - apply within_intro; [exact F | rewrite E; exact A' | rewrite E; exact B'].
  - exact E.
  - rewrite E.
    assert (N : pow2 (-1022) <= Qabs v).
    { rewrite Qabs_pos by lra.
      apply Qle_trans with (pow2 lo); [apply pow2_le; lia | exact A]. }
    pose proof (rnd_rel_normal v N) as T. rewrite (Qabs_pos v) in T by lra.
    exact T.
Qed.

Lemma quot_within (a b : float) (la ha lb hb : Z) :
  within la ha a = true -> within lb hb b = true ->
  (-1022 <= la - hb)%Z -> (ha - lb <= 1023)%Z ->
  within (la - hb) (ha - lb) (a / b) = true
  /\ val (a / b) == rnd (val a / val b)
  /\ Qabs (val (a / b) - val a / val b) <= pow2 (-53) * (val a / val b).
Proof.
  intros Wa Wb L H.
  destruct (within_inv _ _ _ Wa) as [Fa [A1 A2]].
  destruct (within_inv _ _ _ Wb) as [Fb [B1 B2]].
  destruct (within_pos _ _ _ Wb) as [_ Pb].
  destruct (inv_range lb hb (val b) B1 B2) as [I1 I2].
  destruct (mul_range (val a) (/ val b) (pow2 la) (pow2 ha)
              (pow2 (- hb)) (pow2 (- lb))) as [M1 M2];
    try apply pow2_pos; try assumption.
  rewrite <- pow2_add in M1, M2.
  apply rounded_within; try assumption.
  apply div_rounded; try assumption. lra.
Qed.

Lemma prod_within (a b : float) (la ha lb hb : Z) :
  within la ha a = true -> within lb hb b = true ->
  (-1022 <= la + lb)%Z -> (ha + hb <= 1023)%Z ->
  within (la + lb) (ha + hb) (a * b) = true
  /\ val (a * b) == rnd (val a * val b)
  /\ Qabs (val (a * b) - val a * val b) <= pow2 (-53) * (val a * val b).
Proof.
  intros Wa Wb L H.
  destruct (within_inv _ _ _ Wa) as [Fa [A1 A2]].
  destruct (within_inv _ _ _ Wb) as [Fb [B1 B2]].
  destruct (mul_range (val a) (val b) (pow2 la) (pow2 ha)
              (pow2 lb) (pow2 hb)) as [M1 M2];
    try apply pow2_pos; try assumption.
  rewrite <- pow2_add in M1, M2.
  apply rounded_within; try assumption.
  apply mul_rounded; assumption.
Qed.

Lemma ratio_bound (e x y s : Q) :
  0 < y -> Qabs (x - s * y) <= e * (s * y) -> Qabs (x / y - s) <= e * s.
Proof.
  intros Y H.
  setoid_replace (x / y - s) with ((x - s * y) / y) by (field; lra).
  unfold Qdiv. rewrite Qabs_Qmult.
  rewrite (Qabs_pos (/ y)) by (apply Qlt_le_weak, Qinv_lt_0_compat, Y).
  apply Qle_shift_div_r; [exact Y|].
  setoid_replace (e * s * y) with (e * (s * y)) by ring. exact H.
Qed.

(** Two roundings in a row, each within [u] in relative terms. *)
Lemma rel_chain (u t p r h : Q) :
  0 < u -> u <= 1 # 16 -> 0 < t -> 0 < p ->
  Qabs (r - p) <= u * p -> Qabs (h - t * r) <= u * (t * r) ->
  0 < h
  /\ Qabs (h - t * p) <= 4 * u * (t * p)
  /\ Qabs (t * p - h) <= 4 * u * h.
Proof.
  intros U0 U1 T0 P0 A B.
  apply Qabs_Qle_condition in A, B.
  assert (TP : 0 < t * p) by nra.
  assert (A' : - (u * (t * p)) <= t * r - t * p <= u * (t * p)) by (split; nra).
  set (P := t * p) in *. set (R := t * r) in *.
  assert (H3 : - (3 * u * P) <= h - P <= 3 * u * P) by (split; nra).
  assert (H0 : 0 < h) by nra.
  split; [exact H0|]. split; apply Qabs_Qle_condition; split; nra.
Qed.

(** Two ratios that round to the same float. *)
Lemma same_rounding (u s t m : Q) :
  0 < u -> u <= 1 # 16 -> 0 < s -> 0 < t ->
  Qabs (m - s) <= u * s -> Qabs (m - t) <= u * t ->
  Qabs (t - s) <= 4 * u * s.
Proof.
  intros U0 U1 S0 T0 A B.
  apply Qabs_Qle_condition in A, B. apply Qabs_Qle_condition.
  split; nra.
Qed.

Lemma tolerance : 0 < pow2 (-53) /\ pow2 (-53) <= 1 # 16
                  /\ pow2 (-51) == 4 * pow2 (-53).
Proof.
  split; [apply pow2_pos|]. split.
  - apply Qle_trans with (pow2 (-4)); [apply pow2_le; lia | discriminate].
  - change (-51)%Z with (-53 + 1 + 1)%Z. rewrite !pow2_double. ring.
Qed.

(** C1, as amended: for a tablet and an aspect whose four numbers are
    floats between [2^-340] and [2^340], full-area mode returns a size of
    two positive floats; its width over its height is the screen's
    horizontal over vertical within [2^-51] in relative terms; one of its
    sides is the tablet's: the width when the screen is wider than the
    tablet, the height when it is narrower, both when the two aspects are
    equal; and the other side is within [2^-51], in relative terms, of the
    tablet's side times the inverse aspect, resp. the aspect. *)
Theorem full_size_keeps_aspect (tw th sw sh : float) :
  within (-340) 340 tw = true -> within (-340) 340 th = true ->
  within (-340) 340 sw = true -> within (-340) 340 sh = true ->
  exists w h : float,
    full_size sw sh tw th = Ret (w, h)
    /\ finite w = true /\ finite h = true /\ 0 < val w /\ 0 < val h
    /\ Qabs (val w / val h - val sw / val sh) <= pow2 (-51) * (val sw / val sh)
    /\ (w = tw \/ h = th)
    /\ (val tw / val th < val sw / val sh ->
        w = tw
        /\ Qabs (val h - val tw * (val sh / val sw))
           <= pow2 (-51) * (val tw * (val sh / val sw)))
    /\ (val sw / val sh < val tw / val th ->
        h = th
        /\ Qabs (val w - val th * (val sw / val sh))
           <= pow2 (-51) * (val th * (val sw / val sh)))
    /\ (val sw / val sh == val tw / val th -> w = tw /\ h = th).
Proof.
  intros Wtw Wth Wsw Wsh.
  destruct (within_pos _ _ _ Wtw) as [Ftw Ptw].
  destruct (within_pos _ _ _ Wth) as [Fth Pth].
  destruct (within_pos _ _ _ Wsw) as [Fsw Psw].
  destruct (within_pos _ _ _ Wsh) as [Fsh Psh].
  destruct (quot_within sw sh _ _ _ _ Wsw Wsh) as [Wsc [Vsc Esc]]; [lia | lia |].
  destruct (quot_within tw th _ _ _ _ Wtw Wth) as [Wta [Vta Eta]]; [lia | lia |].
  destruct (quot_within sh sw _ _ _ _ Wsh Wsw) as [Wr [_ Er]]; [lia | lia |].
  destruct (within_pos _ _ _ Wsc) as [Fsc Psc].
  destruct (within_pos _ _ _ Wta) as [Fta Pta].
  destruct (prod_within tw (sh / sw) _ _ _ _ Wtw Wr) as [Wh [_ Eh]]; [lia | lia |].
  destruct (prod_within th (sw / sh) _ _ _ _ Wth Wsc) as [Ww [_ Ew]]; [lia | lia |].
  destruct (within_pos _ _ _ Wh) as [Fh _].
  destruct (within_pos _ _ _ Ww) as [Fw _].
  destruct tolerance as [U0 [U1 U4]].
  assert (Ps : 0 < val sw / val sh) by (apply Qlt_shift_div_l; lra).
  assert (Pt : 0 < val tw / val th) by (apply Qlt_shift_div_l; lra).
  assert (Pr : 0 < val sh / val sw) by (apply Qlt_shift_div_l; lra).
  assert (SR : val sw / val sh * (val sh / val sw) == 1) by (field; lra).
  assert (TT : val tw / val th * val th == val tw) by (field; lra).
  unfold full_size. rewrite (fdiv_pos sw sh Fsh Psh), (fdiv_pos tw th Fth Pth).
  cbn [obind]. unfold fgt. cbn [flt fmul B64.arith].
  destruct (PrimFloat.ltb (tw / th) (sw / sh)) eqn:Wide.
  - (* the screen is wider *)
    apply (ltb_val _ _ Fta Fsc) in Wide.
    assert (Real : val tw / val th < val sw / val sh).
    { apply Qnot_le_lt. intros C. apply rnd_mono in C.
      rewrite <- Vsc, <- Vta in C. lra. }
    rewrite (fdiv_pos sh sw Fsw Psw). cbn [obind].
    destruct (rel_chain _ _ _ _ _ U0 U1 Ptw Pr Er Eh) as [H0 [H1 H2]].
    exists tw, (tw * (sh / sw))%float.
    split; [reflexivity|]. split; [exact Ftw|]. split; [exact Fh|].
    split; [exact Ptw|]. split; [exact H0|]. split.
    { rewrite U4. apply ratio_bound; [exact H0|].
      set (h := val (tw * (sh / sw))) in *.
      setoid_replace (val tw - val sw / val sh * h)
        with (val sw / val sh * (val tw * (val sh / val sw) - h))
        by (field; lra).
      rewrite Qabs_Qmult, (Qabs_pos (val sw / val sh)) by lra.
      setoid_replace (4 * pow2 (-53) * (val sw / val sh * h))
        with (val sw / val sh * (4 * pow2 (-53) * h)) by ring.
      apply Qmult_le_l; [exact Ps | exact H2]. }
    split; [left; reflexivity|].
    split; [intros _; split; [reflexivity | rewrite U4; exact H1]|].
    split; intros C; exfalso; lra.
  - assert (NW : ~ val (tw / th) < val (sw / sh)).
    { intros C. apply (ltb_val _ _ Fta Fsc) in C. congruence. }
    destruct (PrimFloat.ltb (sw / sh) (tw / th)) eqn:Narrow.
    + (* the screen is narrower *)
      apply (ltb_val _ _ Fsc Fta) in Narrow.
      assert (Real : val sw / val sh < val tw / val th).
      { apply Qnot_le_lt. intros C. apply rnd_mono in C.
        rewrite <- Vsc, <- Vta in C. lra. }
      cbn [obind].
      destruct (rel_chain _ _ _ _ _ U0 U1 Pth Ps Esc Ew) as [H0 [H1 H2]].
      exists (th * (sw / sh))%float, th.
      split; [reflexivity|]. split; [exact Fw|]. split; [exact Fth|].
      split; [exact H0|]. split; [exact Pth|]. split.
      { rewrite U4. apply ratio_bound; [exact Pth|].
        setoid_replace (val sw / val sh * val th)
          with (val th * (val sw / val sh)) by ring.
        exact H1. }
      split; [right; reflexivity|].
      split; [intros C; exfalso; lra|].
      split; [intros _; split; [reflexivity | rewrite U4; exact H1]|].
      intros C; exfalso; lra.
    + (* the two aspects round to the same float *)
      assert (NN : ~ val (sw / sh) < val (tw / th)).
      { intros C. apply (ltb_val _ _ Fsc Fta) in C. congruence. }
      assert (Same : val (tw / th) == val (sw / sh)) by lra.
      rewrite Same in Eta.
      pose proof (same_rounding _ _ _ _ U0 U1 Ps Pt Esc Eta) as D1.
      pose proof (same_rounding _ _ _ _ U0 U1 Pt Ps Eta Esc) as D2.
      exists tw, th.
      split; [reflexivity|]. split; [exact Ftw|]. split; [exact Fth|].
      split; [exact Ptw|]. split; [exact Pth|].
      split; [rewrite U4; exact D1|].
      split; [left; reflexivity|].
      split; [|split].
      * intros _. split; [reflexivity|]. rewrite U4.
        setoid_replace (val th - val tw * (val sh / val sw))
          with ((val sw / val sh - val tw / val th) * (val th * (val sh / val sw)))
          by (field; lra).
        setoid_replace (4 * pow2 (-53) * (val tw * (val sh / val sw)))
          with (4 * pow2 (-53) * (val tw / val th) * (val th * (val sh / val sw)))
          by (field; lra).
        rewrite Qabs_Qmult.
        rewrite (Qabs_pos (val th * (val sh / val sw)))
          by (apply Qlt_le_weak, Qmult_lt_0_compat; assumption).
        apply Qmult_le_compat_r; [exact D2|].
        apply Qlt_le_weak, Qmult_lt_0_compat; assumption.
      * intros _. split; [reflexivity|]. rewrite U4.
        setoid_replace (val tw - val th * (val sw / val sh))
          with ((val tw / val th - val sw / val sh) * val th) by (field; lra).
        setoid_replace (4 * pow2 (-53) * (val th * (val sw / val sh)))
          with (4 * pow2 (-53) * (val sw / val sh) * val th) by ring.
        rewrite Qabs_Qmult, (Qabs_pos (val th)) by lra.
        apply Qmult_le_compat_r; [exact D1 | lra].
      * intros _. split; reflexivity.
Qed.

End FullArea.

(* ================================================================== *)
(** * Instances and counterexamples of the geometry *)
(* ================================================================== *)

Lemma full_size_keeps_aspect_witness :
  (within (-340) 340 10000%float = true /\ within (-340) 340 6000%float = true
   /\ within (-340) 340 16%float = true /\ within (-340) 340 9%float = true)
  /\ exists w h : float,
       full_size 16%float 9%float 10000%float 6000%float = Ret (w, h)
       /\ finite w = true /\ finite h = true
       /\ (0 < val w)%Q /\ (0 < val h)%Q
       /\ (Qabs (val w / val h - val 16%float / val 9%float)
           <= pow2 (-51) * (val 16%float / val 9%float))%Q
       /\ (w = 10000%float \/ h = 6000%float)
       /\ ((val 10000%float / val 6000%float < val 16%float / val 9%float)%Q ->
           w = 10000%float
           /\ (Qabs (val h - val 10000%float * (val 9%float / val 16%float))
               <= pow2 (-51) * (val 10000%float * (val 9%float / val 16%float)))%Q)
       /\ ((val 16%float / val 9%float < val 10000%float / val 6000%float)%Q ->
           h = 6000%float
           /\ (Qabs (val w - val 6000%float * (val 16%float / val 9%float))
               <= pow2 (-51) * (val 6000%float * (val 16%float / val 9%float)))%Q)
       /\ ((val 16%float / val 9%float == val 10000%float / val 6000%float)%Q ->
           w = 10000%float /\ h = 6000%float).
Proof.
  split; [repeat split; vm_compute; reflexivity|].
  apply (full_size_keeps_aspect 10000%float 6000%float 16%float 9%float);
    vm_compute; reflexivity.
Defined.

(** C1 fails beyond the range of [float]: the aspect [10^400:1] passes the
    check of lines 161-166, its horizontal part becomes the float
    infinity, and the full area of a 10000 by 6000 tablet comes out as
    10000 by 0: the run assigns an area without height. *)
Lemma huge_aspect_flattens_area :
  aspect_valid (Cases.huge ++ ":1") = true
  /\ convert_aspect (F := float) (Cases.huge ++ ":1") = Ret (infinity, 1%float)
  /\ full_size (F := float) infinity 1%float 10000%float 6000%float
     = Ret (10000%float, 0%float)
  /\ fst (Sim.run_main Cases.huge_aspect Sim.intuos) = Ret tt
  /\ writes (trace (snd (Sim.run_main Cases.huge_aspect Sim.intuos)))
     = [area_command "10" (0, 3000, 10000, 3000)].
Proof. vm_compute. repeat split. Qed.





(** The nine alignments in binary64, on a tablet of 10000 by 6000 and a
    size of 5000 by 2812.5. *)
Example offsets_in_binary64 :
  map (fun align => calculate_offset (F := float) align
                      10000%float 6000%float 5000%float 2812.5%float)
      align_choices
  = [ (0, 0); (2500, 0); (5000, 0);
      (0, 1593.75); (2500, 1593.75); (5000, 1593.75);
      (0, 3187.5); (2500, 3187.5); (5000, 3187.5) ]%float.
Proof. vm_compute. reflexivity. Qed.

(* ================================================================== *)
(** * Runs in binary64 against the stand-in *)
(* ================================================================== *)

(** Section 8's examples: the full area of a 10000 by 6000 tablet at 16:9
    is 10000 by 5625, and a width of 5000 lines gives the height 2812.5. *)
Example full_size_example :
  full_size (F := float) 16%float 9%float 10000%float 6000%float
  = Ret (10000, 5625)%float.
Proof. vm_compute. reflexivity. Qed.

Example explicit_size_example :
  explicit_size (F := float) 16%float 9%float (Some 5000%float) None
  = Ret (5000, 2812.5)%float.
Proof. vm_compute. reflexivity. Qed.

(** The script on section 8's second example: one write, after the two
    area queries of [device_has_area]. *)
Example spec_example_run :
  Sim.run_main Sim.spec_example Sim.intuos =
  (Ret tt,
   {| world := {| Sim.installed := true; Sim.full_area := (15200, 9500);
                  Sim.area := (2500, 1594, 7500, 4406) |};
      trace := [ [xsetwacom; "--list"; "devices"];
                 [xsetwacom; "--get"; "10"; "Area"];
                 [xsetwacom; "--get"; "10"; "Area"];
                 area_command "10" (2500, 1594, 7500, 4406) ];
      printed := [] |}).
Proof. vm_compute. reflexivity. Qed.

(** Without [--device-area] the tablet is reset before it is asked. *)
Example hundred_mm_run :
  fst (Sim.run_main Sim.hundred_mm Sim.intuos) = Ret tt
  /\ writes (trace (snd (Sim.run_main Sim.hundred_mm Sim.intuos)))
     = [ reset_command "10"; area_command "10" (2600, 1938, 12600, 7563) ].
Proof. vm_compute. split; reflexivity. Qed.

(** The quantizer on halves, in binary64: up, not to the even neighbour. *)
Example round2_on_halves :
  map (round2 (F := float))
      [0.5%float; 1.5%float; 2.5%float; 2812.5%float; 4406.25%float; 7%float]
  = [Ret 1; Ret 2; Ret 3; Ret 2813; Ret 4406; Ret 7].
Proof. vm_compute. reflexivity. Qed.

(** C4: a width of 20000 lines on a tablet 10000 lines wide, aligned
    [bottomright], is not refused: the run succeeds and assigns an area
    whose left and top edges are negative. *)
Theorem wide_area_is_written :
  Sim.run_main Sim.wide_right Sim.intuos =
  (Ret tt,
   {| world := {| Sim.installed := true; Sim.full_area := (15200, 9500);
                  Sim.area := (-10000, -5250, 10000, 6000) |};
      trace := [ [xsetwacom; "--list"; "devices"];
                 [xsetwacom; "--get"; "10"; "Area"];
                 [xsetwacom; "--get"; "10"; "Area"];
                 area_command "10" (-10000, -5250, 10000, 6000) ];
      printed := [] |}).
Proof. vm_compute. reflexivity. Qed.

(** C5 fails: a run that ends with the geometry error has already reset
    the tablet, whose area was 7600 by 4275 and is 15200 by 9500 after the
    failed run; and a run that succeeds writes twice. *)
Lemma failed_run_resets_device :
  fst (Sim.run_main Sim.too_wide Sim.intuos)
    = Exit 1 "area width is greater than tablet size!"
  /\ writes (trace (snd (Sim.run_main Sim.too_wide Sim.intuos)))
     = [reset_command "10"]
  /\ Sim.area Sim.intuos = (0, 0, 7600, 4275)
  /\ Sim.area (world (snd (Sim.run_main Sim.too_wide Sim.intuos)))
     = (0, 0, 15200, 9500)
  /\ length (writes (trace (snd (Sim.run_main Sim.hundred_mm Sim.intuos))))
     = 2%nat.
Proof. vm_compute. repeat split. Qed.

(** C6: on a tablet area of height 0 the comparison of line 202 divides by
    zero and the exception is not caught; on a tablet area of width 0
    nothing is reported at all and an empty area is assigned. *)
Theorem zero_height_raises :
  fst (Sim.run_main Sim.zero_height Sim.intuos) = Uncaught ZeroDivisionError
  /\ fst (Sim.run_main Sim.zero_width Sim.intuos) = Ret tt
  /\ writes (trace (snd (Sim.run_main Sim.zero_width Sim.intuos)))
     = [area_command "10" (0, 3000, 0, 3000)].
Proof. vm_compute. repeat split. Qed.

(** In any arithmetic, a tablet height that is zero ends [full_size] with
    [ZeroDivisionError] as soon as the screen's aspect could be formed. *)
Lemma full_size_zero_height {F} {arith : PyFloat F} (sw sh tw th : F) :
  fzero sh = false -> fzero th = true ->
  full_size sw sh tw th = Uncaught ZeroDivisionError.
Proof.
  intros Hs Ht. unfold full_size, fdiv. rewrite Hs, Ht. reflexivity.
Qed.

Lemma conflicting_size_arguments_rejected_witness :
  ((args_width Sim.both_sides <> None /\ args_height Sim.both_sides <> None)
   \/ (args_width Sim.both_sides = None /\ args_height Sim.both_sides = None
       /\ args_full Sim.both_sides = false))
  /\ exists code msg,
       Sim.run_main Sim.both_sides Sim.intuos
         = (Exit code msg, Sim.start Sim.intuos)
       /\ code <> 0
       /\ (parse_args Sim.both_sides = Ret tt ->
           Sim.installed (world (Sim.start Sim.intuos)) = true ->
           code = 1
           /\ msg = if is_some (args_width Sim.both_sides)
                    then used_together else exactly_one).
Proof.
  assert (H : (args_width Sim.both_sides <> None
               /\ args_height Sim.both_sides <> None)
              \/ (args_width Sim.both_sides = None
                  /\ args_height Sim.both_sides = None
                  /\ args_full Sim.both_sides = false)).
  { left. split; simpl; discriminate. }
  split; [exact H|].
  exact (conflicting_size_arguments_rejected Sim.tablet Sim.installed Sim.run
           Sim.both_sides (Sim.start Sim.intuos) H).
Defined.

(** C9: the check of lines 161-166 does not reject an aspect with a
    negative or a zero part: it accepts [-16:9] and [16:0].  With the first
    the run goes on to assign an area whose right edge is left of its left
    edge; with the second it ends in an uncaught [ZeroDivisionError], where
    a malformed aspect is refused with a message and status 1. *)
Theorem nonpositive_aspect_accepted :
  aspect_valid "-16:9" = true
  /\ convert_aspect (F := float) "-16:9" = Ret (-16, 9)%float
  /\ fst (Sim.run_main Sim.negative_aspect Sim.intuos) = Ret tt
  /\ writes (trace (snd (Sim.run_main Sim.negative_aspect Sim.intuos)))
     = [area_command "10" (10333, 0, -333, 6000)]
  /\ aspect_valid "16:0" = true
  /\ convert_aspect (F := float) "16:0" = Ret (16, 0)%float
  /\ fst (Sim.run_main Sim.zero_aspect Sim.intuos) = Uncaught ZeroDivisionError
  /\ aspect_valid "16/9" = false
  /\ fst (Sim.run_main Cases.slash_aspect Sim.intuos)
     = Exit 1 "invalid screen aspect ratio: 16/9".
Proof. vm_compute. repeat split. Qed.

(** A device area whose number of parts is not two never converts. *)
Lemma convert_size_needs_two_parts {F} {arith : PyFloat F} (size : string) :
  length (split_on "x" size) <> 2%nat ->
  convert_size size = Uncaught ValueError.
Proof.
  unfold convert_size.
  destruct (split_on "x" size) as [|a [|b [|c l]]]; cbn [length]; intros H;
    try reflexivity.
  contradiction H. reflexivity.
Qed.

(** C10: the device areas [8000] and [1x2x3] pass the check of lines
    170-174, every part being an integer, and [convert_size], which unpacks
    exactly two parts, then raises [ValueError], which nothing catches: the
    run ends with the exception and without a write. *)
Theorem device_area_count_unchecked :
  device_area_valid "8000" = true
  /\ convert_size (F := float) "8000" = Uncaught ValueError
  /\ fst (Sim.run_main Sim.one_number Sim.intuos) = Uncaught ValueError
  /\ device_area_valid "1x2x3" = true
  /\ convert_size (F := float) "1x2x3" = Uncaught ValueError
  /\ fst (Sim.run_main Sim.three_numbers Sim.intuos) = Uncaught ValueError
  /\ writes (trace (snd (Sim.run_main Sim.one_number Sim.intuos))) = []
  /\ writes (trace (snd (Sim.run_main Sim.three_numbers Sim.intuos))) = [].
Proof. vm_compute. repeat split. Qed.

(* ================================================================== *)

(* ================================================================== *)
(** * Splitting, joining and the device dictionary *)
(* ================================================================== *)

Lemma occurs_app (c : ascii) (a b : string) :
  occurs c (a ++ b) = occurs c a || occurs c b.
Proof.
  induction a as [|x a IH]; cbn [append occurs]; [reflexivity|].
  rewrite IH, orb_assoc. reflexivity.
Qed.

Lemma split_on_whole (sep : ascii) (s : string) :
  occurs sep s = false -> split_on sep s = [s].
Proof.
  induction s as [|c s IH]; cbn [occurs split_on]; [reflexivity|].
  intros H. apply orb_false_iff in H. destruct H as [Hc Hs].
  rewrite Hc, (IH Hs). reflexivity.
Qed.

Lemma split_on_first (sep : ascii) (a b : string) :
  occurs sep a = false ->
  split_on sep (a ++ String sep b) = a :: split_on sep b.
Proof.
  induction a as [|c a IH]; cbn [occurs append split_on].
  - intros _. rewrite Ascii.eqb_refl. reflexivity.
  - intros H. apply orb_false_iff in H. destruct H as [Hc Ha].
    rewrite Hc, (IH Ha). reflexivity.
Qed.

Lemma split_on_nonempty (sep : ascii) (s : string) : split_on sep s <> [].
Proof.
  destruct s as [|c s]; cbn [split_on]; [discriminate|].
  destruct (Ascii.eqb c sep); [discriminate|].
  destruct (split_on sep s); discriminate.
Qed.

Lemma split_on_length_app (sep : ascii) (a b : string) :
  length (split_on sep (a ++ String sep b))
  = (length (split_on sep a) + length (split_on sep b))%nat.
Proof.
  induction a as [|c a IH]; cbn [append split_on].
  - rewrite Ascii.eqb_refl. reflexivity.
  - destruct (Ascii.eqb c sep).
    + cbn [length]. rewrite IH. reflexivity.
    + pose proof (split_on_nonempty sep (a ++ String sep b)) as N1.
      pose proof (split_on_nonempty sep a) as N2.
      destruct (split_on sep (a ++ String sep b)); [contradiction|].
      destruct (split_on sep a); [contradiction|]. exact IH.
Qed.

Lemma split_on_length_occurs (sep : ascii) (s : string) :
  occurs sep s = true -> (2 <= length (split_on sep s))%nat.
Proof.
  induction s as [|c s IH]; cbn [occurs split_on]; [discriminate|].
  destruct (Ascii.eqb c sep); cbn [orb].
  - intros _. pose proof (split_on_nonempty sep s).
    destruct (split_on sep s); [contradiction | cbn [length]; lia].
  - intros H. specialize (IH H).
    destruct (split_on sep s); cbn [length] in *; lia.
Qed.

Lemma dict_set_keys {V} (k : string) (v : V) (d : list (string * V)) :
  forall k', In k' (map fst (dict_set k v d)) <-> k' = k \/ In k' (map fst d).
Proof.
  induction d as [|[k0 v0] d IH]; intros k'; cbn [dict_set map fst In].
  - intuition congruence.
  - destruct (String.eqb_spec k0 k) as [-> | N]; cbn [map fst In].
    + intuition congruence.
    + rewrite IH. intuition congruence.
Qed.

Lemma dict_set_nodup {V} (k : string) (v : V) (d : list (string * V)) :
  NoDup (map fst d) -> NoDup (map fst (dict_set k v d)).
Proof.
  induction d as [|[k0 v0] d IH]; cbn [dict_set map fst]; intros H.
  - constructor; [intros []|constructor].
  - inversion H as [|? ? Hn Hd]; subst.
    destruct (String.eqb_spec k0 k) as [-> | N]; cbn [map fst].
    + constructor; assumption.
    + constructor; [|apply IH; exact Hd].
      rewrite dict_set_keys. intros [E | I]; [congruence | contradiction].
Qed.

Lemma dict_get_in {V} (d : list (string * V)) :
  NoDup (map fst d) ->
  forall k v, In (k, v) d <-> dict_get k d = Some v.
Proof.
  induction d as [|[k0 v0] d IH]; cbn [map fst In dict_get]; intros H k v.
  - split; [intros [] | discriminate].
  - inversion H as [|? ? Hn Hd]; subst.
    destruct (String.eqb_spec k0 k) as [-> | N].
    + split.
      * intros [[= ->] | I]; [reflexivity|].
        exfalso. apply Hn. apply (in_map fst) in I. exact I.
      * intros [= ->]. left. reflexivity.
    + rewrite <- (IH Hd). split; [intros [[= E _] | I]; [congruence | exact I] | tauto].
Qed.

Lemma dict_get_set_same {V} (k : string) (v : V) (d : list (string * V)) :
  dict_get k (dict_set k v d) = Some v.
Proof.
  induction d as [|[k0 v0] d IH]; cbn [dict_set dict_get].
  - rewrite String.eqb_refl. reflexivity.
  - destruct (String.eqb k0 k) eqn:E; cbn [dict_get].
    + rewrite String.eqb_refl. reflexivity.
    + rewrite E. exact IH.
Qed.

Lemma dict_get_set_other {V} (k k' : string) (v : V) (d : list (string * V)) :
  k' <> k -> dict_get k' (dict_set k v d) = dict_get k' d.
Proof.
  intros N. induction d as [|[k0 v0] d IH]; cbn [dict_set dict_get].
  - destruct (String.eqb_spec k k'); [congruence | reflexivity].
  - destruct (String.eqb_spec k0 k) as [-> | N0]; cbn [dict_get].
    + destruct (String.eqb_spec k k'); [congruence | reflexivity].
    + destruct (String.eqb k0 k'); [reflexivity | exact IH].
Qed.

(** X4: the assignment [devices[device_id] = ...] of lines 35-38 on the
    ordered dictionary: the id then maps to the new entry and every other
    id to what it mapped to before; an id already present keeps its place
    in the order, a new id goes to the end. *)
Theorem dict_set_get {V} (k : string) (v : V) (d : list (string * V)) :
  dict_get k (dict_set k v d) = Some v
  /\ (forall k', k' <> k -> dict_get k' (dict_set k v d) = dict_get k' d)
  /\ (dict_get k d <> None -> map fst (dict_set k v d) = map fst d)
  /\ (dict_get k d = None -> map fst (dict_set k v d) = (map fst d ++ [k])%list).
Proof.
  induction d as [|[k0 v0] d IH]; cbn [dict_set dict_get map fst app].
  - rewrite String.eqb_refl. repeat split; try reflexivity.
    + intros k' N. destruct (String.eqb_spec k k'); [congruence | reflexivity].
    + intros H. contradiction.
  - destruct IH as [I1 [I2 [I3 I4]]].
    destruct (String.eqb_spec k0 k) as [-> | N]; cbn [dict_get map fst].
    + rewrite String.eqb_refl. repeat split; try reflexivity.
      * intros k' N'. destruct (String.eqb_spec k k'); [congruence | reflexivity].
      * discriminate.
    + destruct (String.eqb_spec k0 k) as [E | _]; [congruence|].
      split; [exact I1|]. split; [|split].
      * intros k' N'. destruct (String.eqb k0 k'); [reflexivity | apply I2; exact N'].
      * intros H. rewrite (I3 H). reflexivity.
      * intros H. rewrite (I4 H). reflexivity.
Qed.

(** X5: a line of [xsetwacom --list devices] of the form
    [name TAB "id: " id TAB "type: " type], with no TAB inside the three
    fields, is entered under the stripped id with the stripped name and
    type (lines 31-38). *)
Theorem add_device_reads_line (devices : list (string * device_info))
    (name id type : string) :
  occurs TAB name = false -> occurs TAB id = false -> occurs TAB type = false ->
  add_device devices
    (name ++ String TAB (("id: " ++ id) ++ String TAB ("type: " ++ type)))
  = Ret (dict_set (strip id)
           {| dev_name := strip name; dev_type := strip type |} devices).
Proof.
  intros Hn Hi Ht. unfold add_device.
  rewrite (split_on_first TAB name _ Hn).
  rewrite (split_on_first TAB ("id: " ++ id) _) by (rewrite occurs_app; exact Hi).
  rewrite (split_on_whole TAB ("type: " ++ type)) by exact Ht.
  reflexivity.
Qed.

Lemma add_device_reads_line_witness :
  (occurs TAB "Wacom Intuos S Pen stylus   " = false
   /\ occurs TAB "10" = false /\ occurs TAB "STYLUS    " = false)
  /\ add_device []
       ("Wacom Intuos S Pen stylus   "
          ++ String TAB (("id: " ++ "10") ++ String TAB ("type: " ++ "STYLUS    ")))
     = Ret (dict_set (strip "10")
              {| dev_name := strip "Wacom Intuos S Pen stylus   ";
                 dev_type := strip "STYLUS    " |} []).
Proof.
  split; [repeat split|].
  apply (add_device_reads_line [] "Wacom Intuos S Pen stylus   " "10" "STYLUS    ");
    reflexivity.
Defined.

(** X6: a line of the device list with fewer than two TABs has no
    [parts[1]] or [parts[2]]: the loop of [get_devices] raises
    [IndexError] (lines 31-34). *)
Theorem add_device_short_line (devices : list (string * device_info))
    (device : string) :
  (length (split_on TAB device) < 3)%nat ->
  add_device devices device = Uncaught IndexError.
Proof.
  intros H. unfold add_device.
  pose proof (split_on_nonempty TAB device) as NE.
  destruct (split_on TAB device) as [|p0 [|p1 [|p2 l]]]; cbn [length] in H;
    try contradiction; try reflexivity.
  lia.
Qed.

Lemma add_device_short_line_witness :
  (length (split_on TAB "no devices found") < 3)%nat
  /\ add_device [] "no devices found" = Uncaught IndexError.
Proof.
  split; [simpl; lia|].
  apply (add_device_short_line [] "no devices found"). simpl. lia.
Defined.

Section Devices.

Variable W : Type.
Variable tool_run : list string -> W -> string * W.

(** [get_devices] on the answer of the tool. *)
Lemma get_devices_run (s : pstate W) :
  get_devices W tool_run s =
  let (out, w') := tool_run [xsetwacom; "--list"; "devices"] (world s) in
  let s' := {| world := w';
               trace := (trace s ++ [[xsetwacom; "--list"; "devices"]])%list;
               printed := printed s |} in
  let output := removelast (split_on LF out) in
  if (length output <? 1)%nat then (Ret None, s')
  else match fold_left (fun acc device => obind acc (fun d => add_device d device))
               output (Ret []) with
       | Ret d => (Ret (Some d), s')
       | Exit c m => (Exit c m, s')
       | Uncaught e => (Uncaught e, s')
       end.
Proof.
  unfold get_devices, bind, subprocess_run.
  destruct (tool_run _ (world s)) as [out w']. cbv zeta.
  destruct (length _ <? 1)%nat; [reflexivity|].
  unfold lift. destruct (fold_left _ _ _); reflexivity.
Qed.

Lemma get_devices_fold (s : pstate W) (devices : list (string * device_info)) :
  fst (get_devices W tool_run s) = Ret (Some devices) ->
  fold_left (fun acc device => obind acc (fun d => add_device d device))
    (removelast
       (split_on LF (fst (tool_run [xsetwacom; "--list"; "devices"] (world s)))))
    (Ret []) = Ret devices.
Proof.
  rewrite get_devices_run. destruct (tool_run _ (world s)) as [out w']. cbv zeta.
  destruct (length _ <? 1)%nat; [discriminate|]. cbn [fst].
  destruct (fold_left _ _ _) as [d | |]; cbn [fst]; try discriminate.
  intros [= <-]. reflexivity.
Qed.

(** Once a line has failed, the loop has failed. *)
Lemma fold_add_device_stuck (lines : list string) :
  forall (o : outcome (list (string * device_info))) d,
    (forall d0, o <> Ret d0) ->
    fold_left (fun acc device => obind acc (fun d => add_device d device))
      lines o <> Ret d.
Proof.
  induction lines as [|line lines IH]; cbn [fold_left]; intros o d H.
  - apply H.
  - apply IH. intros d0. destruct o as [d1 | c m | e]; cbn [obind];
      [exfalso; apply (H d1); reflexivity | discriminate | discriminate].
Qed.

(** A line is entered under the id and with the entry it would get in the
    empty dictionary. *)
Lemma add_device_entry (d d' : list (string * device_info)) (line : string) :
  add_device d line = Ret d' ->
  exists device info,
    add_device [] line = Ret [(device, info)] /\ d' = dict_set device info d.
Proof.
  unfold add_device.
  destruct (item _ 0) as [p0| |]; cbn [obind]; try discriminate.
  destruct (item _ 1) as [p1| |]; cbn [obind]; try discriminate.
  destruct (item _ 2) as [p2| |]; cbn [obind]; try discriminate.
  intros [= <-]. eexists _, _. split; reflexivity.
Qed.

Lemma add_device_at (d : list (string * device_info)) (line device : string)
    (info : device_info) :
  add_device [] line = Ret [(device, info)] ->
  add_device d line = Ret (dict_set device info d).
Proof.
  unfold add_device.
  destruct (item _ 0) as [p0| |]; cbn [obind]; try discriminate.
  destruct (item _ 1) as [p1| |]; cbn [obind]; try discriminate.
  destruct (item _ 2) as [p2| |]; cbn [obind]; try discriminate.
  cbn [dict_set]. intros [= <- <-]. reflexivity.
Qed.

Lemma fold_add_device_nodup (lines : list string) :
  forall d0 d,
    NoDup (map fst d0) ->
    fold_left (fun acc device => obind acc (fun d => add_device d device))
      lines (Ret d0) = Ret d ->
    NoDup (map fst d).
Proof.
  induction lines as [|line lines IH]; cbn [fold_left obind]; intros d0 d H0.
  - intros [= <-]. exact H0.
  - destruct (add_device d0 line) as [d1 | c m | e] eqn:E.
    + apply IH. destruct (add_device_entry _ _ _ E) as [k [v [_ ->]]].
      apply dict_set_nodup. exact H0.
    + intros H. exfalso. revert H. apply fold_add_device_stuck. discriminate.
    + intros H. exfalso. revert H. apply fold_add_device_stuck. discriminate.
Qed.

(** The lines after the last one of an id leave its entry alone. *)
Lemma fold_add_device_keeps (device : string) (lines : list string) :
  forall d0 d,
    fold_left (fun acc line => obind acc (fun d => add_device d line))
      lines (Ret d0) = Ret d ->
    (forall later, In later lines ->
       forall info', add_device [] later <> Ret [(device, info')]) ->
    dict_get device d = dict_get device d0.
Proof.
  induction lines as [|line lines IH]; cbn [fold_left obind]; intros d0 d H N.
  - injection H as <-. reflexivity.
  - destruct (add_device d0 line) as [d1 | c m | e] eqn:E.
    + rewrite (IH d1 d H) by (intros later I; apply N; right; exact I).
      destruct (add_device_entry _ _ _ E) as [k [v [A ->]]].
      apply dict_get_set_other. intros ->.
      apply (N line (or_introl eq_refl) v). exact A.
    + exfalso. revert H. apply fold_add_device_stuck. discriminate.
    + exfalso. revert H. apply fold_add_device_stuck. discriminate.
Qed.

(** The entry of an id is the one of the last line that carries it. *)
Lemma fold_add_device_last (before after : list string) (line device : string)
    (info : device_info) (d : list (string * device_info)) :
  fold_left (fun acc line => obind acc (fun d => add_device d line))
    (before ++ line :: after) (Ret []) = Ret d ->
  add_device [] line = Ret [(device, info)] ->
  (forall later, In later after ->
     forall info', add_device [] later <> Ret [(device, info')]) ->
  dict_get device d = Some info.
Proof.
  rewrite fold_left_app. cbn [fold_left]. intros H A N.
  destruct (fold_left _ before (Ret [])) as [d0 | c m | e]; cbn [obind] in H.
  - rewrite (add_device_at d0 line device info A) in H.
    rewrite (fold_add_device_keeps device after _ d H N).
    apply dict_get_set_same.
  - exfalso. revert H. apply fold_add_device_stuck. discriminate.
  - exfalso. revert H. apply fold_add_device_stuck. discriminate.
Qed.

Lemma get_devices_nodup (s : pstate W) (devices : list (string * device_info)) :
  fst (get_devices W tool_run s) = Ret (Some devices) ->
  NoDup (map fst devices).
Proof.
  intros H. apply get_devices_fold in H.
  exact (fold_add_device_nodup _ [] devices (NoDup_nil _) H).
Qed.

(** X7: in the dictionary [get_devices] returns every device id occurs
    once, whatever the tool printed, so that looking an id up
    ([devices[device]], lines 63 and 67) gives exactly the entries of the
    dictionary in its order; and the entry of an id is the one of the last
    line of the listing that carries this id: a later line with the same
    id overwrites the earlier one. *)
Theorem get_devices_unique_ids (s : pstate W) (devices : list (string * device_info)) :
  fst (get_devices W tool_run s) = Ret (Some devices) ->
  NoDup (map fst devices)
  /\ (forall device info,
        In (device, info) devices <-> dict_get device devices = Some info)
  /\ (forall before line after device info,
        removelast
          (split_on LF (fst (tool_run [xsetwacom; "--list"; "devices"] (world s))))
        = (before ++ line :: after)%list ->
        add_device [] line = Ret [(device, info)] ->
        (forall later, In later after ->
           forall info', add_device [] later <> Ret [(device, info')]) ->
        dict_get device devices = Some info).
Proof.
  intros H. pose proof (get_devices_nodup s devices H) as N.
  split; [exact N|]. split; [apply dict_get_in; exact N|].
  intros before line after device info L A Later.
  apply get_devices_fold in H. rewrite L in H.
  exact (fold_add_device_last before after line device info devices H A Later).
Qed.

Lemma first_of_type_found (type : string) (devices : list (string * device_info)) :
  forall (s : pstate W) (device : string),
    fst (first_of_type W tool_run type devices s) = Ret (Some device) ->
    exists info, In (device, info) devices /\ dev_type info = type.
Proof.
  induction devices as [|[d info] rest IH]; intros s device; cbn [first_of_type].
  - discriminate.
  - destruct (String.eqb_spec (dev_type info) type) as [E | N].
    + unfold bind.
      destruct (device_has_area W tool_run d s) as [[has | c m | e] s1];
        cbn [fst]; try discriminate.
      destruct has.
      * intros [= <-]. exists info. split; [left; reflexivity | exact E].
      * intros H. destruct (IH s1 device H) as [i [I T]]. exists i.
        split; [right|]; assumption.
    + intros H. destruct (IH s device H) as [i [I T]]. exists i.
      split; [right|]; assumption.
Qed.

(** X9: a device that [find_first_tablet] returns is an id of the
    dictionary of [get_devices] whose type is [STYLUS] or [PAD]; devices of
    any other type ([ERASER], [TOUCH], [CURSOR]) are never chosen. *)
Theorem find_first_tablet_is_stylus_or_pad (s : pstate W) (device : string) :
  fst (find_first_tablet W tool_run s) = Ret (Some device) ->
  exists devices info,
    fst (get_devices W tool_run s) = Ret (Some devices)
    /\ dict_get device devices = Some info
    /\ (dev_type info = "STYLUS" \/ dev_type info = "PAD").
Proof.
  unfold find_first_tablet, bind.
  pose proof (get_devices_nodup s) as U.
  destruct (get_devices W tool_run s) as [[[devices|] | c m | e] s1]; cbn [fst] in *;
    try discriminate.
  pose proof (dict_get_in devices (U devices eq_refl)) as L.
  pose proof (first_of_type_found "STYLUS" devices s1) as S1.
  destruct (first_of_type W tool_run "STYLUS" devices s1) as [[[d|] | c m | e] s2];
    cbn [fst] in *; try discriminate.
  - intros [= <-]. destruct (S1 d eq_refl) as [info [I T]].
    exists devices, info. rewrite <- L. auto.
  - intros H. destruct (first_of_type_found "PAD" devices s2 device H) as [info [I T]].
    exists devices, info. rewrite <- L. auto.
Qed.

End Devices.

Lemma get_devices_unique_ids_witness :
  fst (get_devices unit Cases.relisting {| world := tt; trace := []; printed := [] |})
    = Ret (Some [("10", {| dev_name := "Pen eraser"; dev_type := "ERASER" |});
                 ("11", {| dev_name := "Pad"; dev_type := "PAD" |})])
  /\ NoDup (map fst [("10", {| dev_name := "Pen eraser"; dev_type := "ERASER" |});
                     ("11", {| dev_name := "Pad"; dev_type := "PAD" |})])
  /\ (forall device info,
        In (device, info)
          [("10", {| dev_name := "Pen eraser"; dev_type := "ERASER" |});
           ("11", {| dev_name := "Pad"; dev_type := "PAD" |})]
        <-> dict_get device
              [("10", {| dev_name := "Pen eraser"; dev_type := "ERASER" |});
               ("11", {| dev_name := "Pad"; dev_type := "PAD" |})] = Some info)
  /\ (forall before line after device info,
        removelast
          (split_on LF
             (fst (Cases.relisting [xsetwacom; "--list"; "devices"]
                     (world {| world := tt; trace := []; printed := [] |}))))
        = (before ++ line :: after)%list ->
        add_device [] line = Ret [(device, info)] ->
        (forall later, In later after ->
           forall info', add_device [] later <> Ret [(device, info')]) ->
        dict_get device
          [("10", {| dev_name := "Pen eraser"; dev_type := "ERASER" |});
           ("11", {| dev_name := "Pad"; dev_type := "PAD" |})] = Some info).
Proof.
  split; [reflexivity|].
  apply (get_devices_unique_ids unit Cases.relisting
           {| world := tt; trace := []; printed := [] |}).
  reflexivity.
Defined.

(** The listing of [Cases.relisting] names the id 10 on its first and on
    its third line: the dictionary has the entry of the third, at the
    place of the first. *)
Example repeated_id_overwritten :
  removelast (split_on LF Cases.listing_twice)
  = [ "Pen stylus" ++ String TAB "id: 10" ++ String TAB "type: STYLUS";
      "Pad" ++ String TAB "id: 11" ++ String TAB "type: PAD";
      "Pen eraser" ++ String TAB "id: 10" ++ String TAB "type: ERASER" ]
  /\ fst (get_devices unit Cases.relisting
            {| world := tt; trace := []; printed := [] |})
     = Ret (Some [("10", {| dev_name := "Pen eraser"; dev_type := "ERASER" |});
                  ("11", {| dev_name := "Pad"; dev_type := "PAD" |})]).
Proof. split; reflexivity. Qed.

Lemma find_first_tablet_is_stylus_or_pad_witness :
  fst (find_first_tablet Sim.tablet Sim.run (Sim.start Sim.intuos))
    = Ret (Some "10")
  /\ exists devices info,
       fst (get_devices Sim.tablet Sim.run (Sim.start Sim.intuos))
         = Ret (Some devices)
       /\ dict_get "10" devices = Some info
       /\ (dev_type info = "STYLUS" \/ dev_type info = "PAD").
Proof.
  split; [reflexivity|].
  apply (find_first_tablet_is_stylus_or_pad Sim.tablet Sim.run
           (Sim.start Sim.intuos) "10").
  reflexivity.
Defined.

(* ================================================================== *)
(** * The error paths of a run *)
(* ================================================================== *)

Section Runs.

Context {F : Type} {arith : PyFloat F}.
Variable W : Type.
Variable tool_exists : W -> bool.
Variable tool_run : list string -> W -> string * W.

(** [prepare] once [argparse], the check for the tool and the check of the
    size arguments have passed: it goes on with the device. *)
Lemma prepare_checked (args : Args F) (s : pstate W) :
  parse_args args = Ret tt -> tool_exists (world s) = true ->
  verify_arguments args = Ret tt ->
  prepare W tool_exists tool_run args s =
  bind W (select_device W tool_run args) (fun device =>
    bind W (if aspect_valid (args_aspect args) then ret W tt
            else lift W (sys_exit ("invalid screen aspect ratio: "
                                   ++ args_aspect args)))
      (fun _ =>
    bind W (select_device_area W tool_run args device) (fun device_area =>
    bind W (lift W (convert_units args)) (fun size =>
    bind W (lift W (calculate_area (args_aspect args) device_area (args_full args)
                      (fst size) (snd size) (args_align args))) (fun area =>
    ret W (device, area)))))) s.
Proof.
  intros P T V. unfold prepare. rewrite P, bind_lift_ret.
  unfold bind at 1. rewrite T. cbn [negb]. rewrite V, bind_lift_ret. reflexivity.
Qed.

(** X15: when [/usr/bin/xsetwacom] does not exist, a command line that
    [argparse] accepts ends with status 1 and the message
    [/usr/bin/xsetwacom not found], before the size arguments are checked
    and with nothing run or printed (lines 135-137). *)
Theorem missing_tool_reported (args : Args F) (s : pstate W) :
  parse_args args = Ret tt -> tool_exists (world s) = false ->
  main W tool_exists tool_run args s
  = (Exit 1 "/usr/bin/xsetwacom not found", s).
Proof.
  intros P T. apply main_of_prepare_exit. unfold prepare.
  rewrite P, bind_lift_ret. unfold bind at 1. rewrite T. reflexivity.
Qed.

(** X8: when no [--device] is given and the device list the tool prints
    has no line, [get_devices] returns [None], the loop of
    [find_first_tablet] over it raises [TypeError], and the run ends with
    that exception: the message [could not find tablet] of line 156 is not
    reached. *)
Theorem empty_device_list_raises (args : Args F) (s : pstate W)
    (out : string) (w' : W) :
  parse_args args = Ret tt -> tool_exists (world s) = true ->
  verify_arguments args = Ret tt -> args_device args = None ->
  tool_run [xsetwacom; "--list"; "devices"] (world s) = (out, w') ->
  occurs LF out = false ->
  main W tool_exists tool_run args s =
  (Uncaught TypeError,
   {| world := w'; trace := (trace s ++ [[xsetwacom; "--list"; "devices"]])%list;
      printed := printed s |}).
Proof.
  intros P T V D R H.
  assert (G : get_devices W tool_run s =
              (Ret None, {| world := w';
                            trace := (trace s ++ [[xsetwacom; "--list"; "devices"]])%list;
                            printed := printed s |})).
  { rewrite get_devices_run, R. cbv zeta.
    rewrite (split_on_whole LF out H). reflexivity. }
  unfold main. unfold bind at 1. rewrite (prepare_checked args s P T V).
  unfold bind at 1. unfold select_device. rewrite D. unfold bind at 1.
  unfold find_first_tablet. unfold bind at 1. rewrite G. reflexivity.
Qed.

(** X10: a [--device] for which the area query answers that the property
    does not exist, or answers with a part that is not an integer, is
    rejected after that one query with status 1 and the message
    [invalid tablet device id: <device>] (lines 42-58 and 157-158). *)
Theorem device_without_area_rejected (args : Args F) (s : pstate W)
    (device out : string) (w' : W) :
  parse_args args = Ret tt -> tool_exists (world s) = true ->
  verify_arguments args = Ret tt -> args_device args = Some device ->
  tool_run [xsetwacom; "--get"; device; "Area"] (world s) = (out, w') ->
  endswith out ("does not exist on device." ++ String LF "") = true
  \/ existsb (fun coord => negb (is_some (py_int coord)))
       (split_on " " (drop_last out)) = true ->
  main W tool_exists tool_run args s =
  (Exit 1 ("invalid tablet device id: " ++ device),
   {| world := w';
      trace := (trace s ++ [[xsetwacom; "--get"; device; "Area"]])%list;
      printed := printed s |}).
Proof.
  intros P T V D R H.
  apply main_of_prepare_exit. rewrite (prepare_checked args s P T V).
  unfold bind at 1. unfold select_device. rewrite D. rewrite bind_ret.
  unfold bind at 1. unfold device_has_area. unfold bind at 1.
  unfold subprocess_run. rewrite R.
  destruct (endswith out _) eqn:E; [reflexivity|].
  destruct H as [H | H]; [discriminate|].
  assert (A : forallb (fun coord => is_some (py_int coord))
                (split_on " " (drop_last out)) = false).
  { clear -H. induction (split_on " " (drop_last out)) as [|c l IH];
      cbn [existsb forallb] in *; [discriminate|].
    destruct (is_some (py_int c)); cbn [negb orb andb] in *; [auto | reflexivity]. }
  cbn [ret]. rewrite A. reflexivity.
Qed.

Lemma aborts_quietly_lift {A} (o : outcome A) :
  (forall a, o <> Ret a) -> aborts_quietly (lift W o).
Proof. intros H s. split; [cbn; intros a; apply H | reflexivity]. Qed.

Lemma aborts_quietly_bind {A B} (c : M W A) (k : A -> M W B) :
  quiet c -> (forall a, aborts_quietly (k a)) -> aborts_quietly (bind W c k).
Proof.
  intros Hc Hk s. unfold bind. specialize (Hc s).
  destruct (c s) as [[a | code msg | e] s1]; cbn [fst snd] in *.
  - destruct (Hk a s1) as [N Q]. split; [exact N | rewrite Q; exact Hc].
  - split; [discriminate | exact Hc].
  - split; [discriminate | exact Hc].
Qed.

Lemma aborts_quietly_first {A B} (c : M W A) (k : A -> M W B) :
  aborts_quietly c -> aborts_quietly (bind W c k).
Proof.
  intros Hc s. unfold bind. destruct (Hc s) as [N Q].
  destruct (c s) as [[a | code msg | e] s1]; cbn [fst snd] in *.
  - exfalso. apply (N a). reflexivity.
  - split; [discriminate | exact Q].
  - split; [discriminate | exact Q].
Qed.

Lemma prepare_invalid_aspect (args : Args F) :
  aspect_valid (args_aspect args) = false ->
  aborts_quietly (prepare W tool_exists tool_run args).
Proof.
  intros A. unfold prepare.
  apply aborts_quietly_bind; [apply quiet_lift|]. intros _.
  apply aborts_quietly_bind; [intros s; reflexivity|]. intros exists_.
  destruct (negb exists_); [apply aborts_quietly_lift; discriminate|].
  apply aborts_quietly_bind; [apply quiet_lift|]. intros _.
  apply aborts_quietly_bind; [apply quiet_select_device|]. intros device.
  rewrite A. apply aborts_quietly_first. apply aborts_quietly_lift. discriminate.
Qed.

(** X17: an aspect string that fails the check of lines 161-166 never
    lets the run succeed or write to the device, the reset of the area
    query included, since the check comes before the query; once the
    earlier checks have passed and a device is selected, the run ends with
    status 1 and [invalid screen aspect ratio: <aspect>]. *)
Theorem invalid_aspect_never_writes (args : Args F) (s : pstate W) :
  aspect_valid (args_aspect args) = false ->
  fst (main W tool_exists tool_run args s) <> Ret tt
  /\ writes (trace (snd (main W tool_exists tool_run args s))) = writes (trace s)
  /\ (parse_args args = Ret tt -> tool_exists (world s) = true ->
      verify_arguments args = Ret tt ->
      forall device, fst (select_device W tool_run args s) = Ret device ->
      fst (main W tool_exists tool_run args s)
      = Exit 1 ("invalid screen aspect ratio: " ++ args_aspect args)).
Proof.
  intros A.
  destruct (aborts_quietly_first _
              (fun prepared : string * (Z * Z * Z * Z) =>
                 let '(device, (x1, y1, x2, y2)) := prepared in
                 set_area W tool_run device x1 y1 x2 y2 (args_v args)
                   (args_dry_run args))
              (prepare_invalid_aspect args A) s) as [N Q].
  split; [exact (N tt)|]. split; [exact Q|].
  intros P T V device Hd.
  unfold main. unfold bind at 1. rewrite (prepare_checked args s P T V).
  unfold bind at 1.
  destruct (select_device W tool_run args s) as [[d | c m | e] s1]; cbn [fst] in Hd;
    try discriminate.
  rewrite A. reflexivity.
Qed.

(** X23: with [--dry-run] no [xsetwacom --set] is ever run, whatever the
    other arguments and whatever the tool answers: neither the reset of
    line 79 nor the assignment of line 118. *)
Theorem dry_run_never_writes (args : Args F) (s : pstate W) :
  args_dry_run args = true ->
  writes (trace (snd (main W tool_exists tool_run args s))) = writes (trace s).
Proof.
  intros D. unfold main, bind.
  destruct (prepare_writes W tool_exists tool_run args s) as [l [Hl Rl]].
  assert (E : l = []).
  { destruct Rl as [E | [device [_ [_ N]]]]; [exact E | congruence]. }
  subst l. rewrite app_nil_r in Hl.
  destruct (prepare W tool_exists tool_run args s)
    as [[[device [[[x1 y1] x2] y2]] | c m | e] s1];
    cbn [snd] in *; try exact Hl.
  destruct (set_area_writes W tool_run device x1 y1 x2 y2 (args_v args)
              (args_dry_run args) s1) as [_ Hw].
  rewrite Hw, D, app_nil_r. exact Hl.
Qed.

(** X22: the far corner of every area [main] is about to assign is within
    the rounded size of the tablet: [x2 <= round2(tablet_width)] and [y2 <=
    round2(tablet_height)], where the tablet size is [convert_size] of the
    device area of this run: the [--device-area] when one is given, and
    otherwise the two numbers that [get_tablet_max_area] read from the
    chosen device, in the state [select_device] left, joined by [x].  This
    holds in every arithmetic, binary64 included. *)
Theorem assigned_area_within_tablet (args : Args F) (s : pstate W)
    (device : string) (x1 y1 x2 y2 : Z) :
  fst (prepare W tool_exists tool_run args s) = Ret (device, (x1, y1, x2, y2)) ->
  exists (s1 s2 : pstate W) (device_area : string) (tw th : F) (rtw rth : Z),
    select_device W tool_run args s = (Ret device, s1)
    /\ match args_device_area args with
       | Some given => device_area = given /\ s2 = s1
       | None =>
           exists xy,
             get_tablet_max_area W tool_run device (args_dry_run args) s1
               = (Ret xy, s2)
             /\ device_area = join "x" [fst xy; snd xy]
       end
    /\ convert_size device_area = Ret (tw, th)
    /\ round2 tw = Ret rtw /\ round2 th = Ret rth
    /\ x2 <= rtw /\ y2 <= rth.
Proof.
  unfold prepare. intros H.
  apply bind_returns in H. destruct H as [u1 [s1 [E1 H]]].
  unfold lift in E1. injection E1 as _ <-.
  apply bind_returns in H. destruct H as [exists_ [s2 [E2 H]]].
  injection E2 as _ <-.
  destruct (negb exists_); [discriminate|].
  apply bind_returns in H. destruct H as [u3 [s3 [E3 H]]].
  unfold lift in E3. injection E3 as _ <-.
  apply bind_returns in H. destruct H as [device' [s4 [Hdev H]]].
  apply bind_returns in H. destruct H as [u5 [s5 [E5 H]]].
  assert (S5 : s5 = s4).
  { destruct (aspect_valid (args_aspect args)); [|discriminate].
    unfold ret in E5. injection E5 as _ <-. reflexivity. }
  subst s5.
  apply bind_returns in H. destruct H as [device_area [s6 [Hda H]]].
  apply bind_returns in H. destruct H as [size [s7 [_ H]]].
  apply bind_returns in H. destruct H as [area' [s8 [Harea H]]].
  cbn [ret fst] in H. injection H as -> ->.
  unfold lift in Harea. injection Harea as Harea _.
  unfold calculate_area in Harea.
  destruct (convert_aspect (args_aspect args)) as [[sw sh] | |]; cbn [obind] in Harea;
    try discriminate.
  destruct (convert_size device_area) as [[tw th] | |] eqn:Cs; cbn [obind] in Harea;
    try discriminate.
  destruct (if args_full args then _ else _) as [[w h] | |]; cbn [obind] in Harea;
    try discriminate.
  destruct (calculate_offset _ tw th w h) as [ox oy].
  destruct (checked_area_sound tw th w h ox oy x1 y1 x2 y2 Harea)
    as [rtw [rth [Rw [Rh [_ [_ [_ [_ [Bx By]]]]]]]]].
  exists s4, s6, device_area, tw, th, rtw, rth.
  split; [exact Hdev|]. split.
  - unfold select_device_area in Hda.
    destruct (args_device_area args) as [given|].
    + destruct (device_area_valid given); [|discriminate].
      unfold ret in Hda. injection Hda as <- <-. split; reflexivity.
    + unfold bind in Hda.
      destruct (get_tablet_max_area W tool_run device (args_dry_run args) s4)
        as [[xy | c m | e] sq]; try discriminate.
      unfold ret in Hda. injection Hda as <- <-.
      exists xy. split; reflexivity.
  - split; [exact Cs|]. split; [exact Rw|]. split; [exact Rh|].
    split; [exact Bx | exact By].
Qed.

(** X12: in a dry run the area query goes without the reset and, when the
    answer has four fields, returns the third and the fourth and prints the
    two warnings and the two [ERROR] lines of lines 95-96, whatever the
    first two fields are: also when they are [0] and [0], because line 94
    compares the strings with the integer 0. *)
Theorem dry_run_query_always_complains (device out : string) (w' : W)
    (s : pstate W) (x1 y1 x2 y2 : string) :
  tool_run [xsetwacom; "--get"; device; "Area"] (world s) = (out, w') ->
  split_ws (drop_last out) = [x1; y1; x2; y2] ->
  get_tablet_max_area W tool_run device true s =
  (Ret (x2, y2),
   {| world := w';
      trace := (trace s ++ [[xsetwacom; "--get"; device; "Area"]])%list;
      printed := (printed s ++ dry_run_lines)%list |}).
Proof.
  intros R Sp. unfold get_tablet_max_area, bind, print, ret, subprocess_run.
  cbn [negb world trace printed]. rewrite R, Sp.
  cbn [world trace printed]. unfold dry_run_lines.
  rewrite <- !app_assoc. reflexivity.
Qed.

(** X13: outside a dry run [get_tablet_max_area] first resets the area,
    then asks for it, and returns the third and fourth of the
    whitespace-separated fields of the answer; an answer that does not have
    exactly four fields raises [ValueError] (line 92), after the reset. *)
Theorem area_query_needs_four_fields (device out reset_out : string) (w1 w2 : W)
    (s : pstate W) :
  tool_run (reset_command device) (world s) = (reset_out, w1) ->
  tool_run [xsetwacom; "--get"; device; "Area"] w1 = (out, w2) ->
  get_tablet_max_area W tool_run device false s =
  (match split_ws (drop_last out) with
   | [x1; y1; x2; y2] => Ret (x2, y2)
   | _ => Uncaught ValueError
   end,
   {| world := w2;
      trace := (trace s ++ [reset_command device;
                            [xsetwacom; "--get"; device; "Area"]])%list;
      printed := printed s |}).
Proof.
  intros R1 R2. unfold get_tablet_max_area, bind, ret, subprocess_run.
  cbn [negb world trace printed]. fold (reset_command device). rewrite R1.
  cbn [world trace printed]. rewrite R2. rewrite <- app_assoc. cbn [app].
  destruct (split_ws (drop_last out)) as [|x1 [|y1 [|x2 [|y2 [|]]]]]; reflexivity.
Qed.

End Runs.

Lemma missing_tool_reported_witness :
  (parse_args Sim.defaults = Ret tt
   /\ Sim.installed (world (Sim.start Cases.no_tool)) = false)
  /\ main Sim.tablet Sim.installed Sim.run Sim.defaults (Sim.start Cases.no_tool)
     = (Exit 1 "/usr/bin/xsetwacom not found", Sim.start Cases.no_tool).
Proof.
  split; [split; reflexivity|].
  apply (missing_tool_reported Sim.tablet Sim.installed Sim.run Sim.defaults
           (Sim.start Cases.no_tool)); reflexivity.
Defined.

Lemma empty_device_list_raises_witness :
  (parse_args Sim.one_number = Ret tt
   /\ verify_arguments Sim.one_number = Ret tt
   /\ args_device Sim.one_number = None
   /\ Cases.silent [xsetwacom; "--list"; "devices"] tt = ("", tt)
   /\ occurs LF "" = false)
  /\ main unit (fun _ => true) Cases.silent Sim.one_number
       {| world := tt; trace := []; printed := [] |}
     = (Uncaught TypeError,
        {| world := tt; trace := [[xsetwacom; "--list"; "devices"]];
           printed := [] |}).
Proof.
  split; [repeat split|].
  apply (empty_device_list_raises unit (fun _ => true) Cases.silent Sim.one_number
           {| world := tt; trace := []; printed := [] |} "" tt); reflexivity.
Defined.

Lemma device_without_area_rejected_witness :
  (parse_args Cases.unknown_device = Ret tt
   /\ verify_arguments Cases.unknown_device = Ret tt
   /\ args_device Cases.unknown_device = Some "11"
   /\ Sim.run [xsetwacom; "--get"; "11"; "Area"] Sim.intuos = ("", Sim.intuos)
   /\ existsb (fun coord => negb (is_some (py_int coord)))
        (split_on " " (drop_last "")) = true)
  /\ main Sim.tablet Sim.installed Sim.run Cases.unknown_device
       (Sim.start Sim.intuos)
     = (Exit 1 ("invalid tablet device id: " ++ "11"),
        {| world := Sim.intuos;
           trace := ([] ++ [[xsetwacom; "--get"; "11"; "Area"]])%list;
           printed := [] |}).
Proof.
  split; [repeat split|].
  apply (device_without_area_rejected Sim.tablet Sim.installed Sim.run
           Cases.unknown_device (Sim.start Sim.intuos) "11" "" Sim.intuos);
    try reflexivity.
  right. reflexivity.
Defined.

Lemma invalid_aspect_never_writes_witness :
  aspect_valid (args_aspect Cases.slash_aspect) = false
  /\ fst (Sim.run_main Cases.slash_aspect Sim.intuos) <> Ret tt
  /\ writes (trace (snd (Sim.run_main Cases.slash_aspect Sim.intuos)))
     = writes (trace (Sim.start Sim.intuos))
  /\ (parse_args Cases.slash_aspect = Ret tt ->
      Sim.installed (world (Sim.start Sim.intuos)) = true ->
      verify_arguments Cases.slash_aspect = Ret tt ->
      forall device,
        fst (select_device Sim.tablet Sim.run Cases.slash_aspect
               (Sim.start Sim.intuos)) = Ret device ->
        fst (Sim.run_main Cases.slash_aspect Sim.intuos)
        = Exit 1 ("invalid screen aspect ratio: "
                  ++ args_aspect Cases.slash_aspect)).
Proof.
  split; [reflexivity|].
  apply (invalid_aspect_never_writes Sim.tablet Sim.installed Sim.run
           Cases.slash_aspect (Sim.start Sim.intuos)).
  reflexivity.
Defined.

Lemma dry_run_never_writes_witness :
  args_dry_run Cases.dry_run_full = true
  /\ writes (trace (snd (Sim.run_main Cases.dry_run_full Sim.intuos)))
     = writes (trace (Sim.start Sim.intuos)).
Proof.
  split; [reflexivity|].
  apply (dry_run_never_writes Sim.tablet Sim.installed Sim.run
           Cases.dry_run_full (Sim.start Sim.intuos)).
  reflexivity.
Defined.

Lemma assigned_area_within_tablet_witness :
  fst (prepare Sim.tablet Sim.installed Sim.run Sim.hundred_mm
         (Sim.start Sim.intuos))
    = Ret ("10", (2600, 1938, 12600, 7563))
  /\ exists (s1 s2 : pstate Sim.tablet) (device_area : string) (tw th : float)
            (rtw rth : Z),
       select_device Sim.tablet Sim.run Sim.hundred_mm (Sim.start Sim.intuos)
         = (Ret "10", s1)
       /\ match args_device_area Sim.hundred_mm with
          | Some given => device_area = given /\ s2 = s1
          | None =>
              exists xy,
                get_tablet_max_area Sim.tablet Sim.run "10"
                  (args_dry_run Sim.hundred_mm) s1 = (Ret xy, s2)
                /\ device_area = join "x" [fst xy; snd xy]
          end
       /\ convert_size device_area = Ret (tw, th)
       /\ round2 tw = Ret rtw /\ round2 th = Ret rth
       /\ 12600 <= rtw /\ 7563 <= rth.
Proof.
  assert (H : fst (prepare Sim.tablet Sim.installed Sim.run Sim.hundred_mm
                     (Sim.start Sim.intuos))
              = Ret ("10", (2600, 1938, 12600, 7563))) by (vm_compute; reflexivity).
  split; [exact H|].
  exact (assigned_area_within_tablet Sim.tablet Sim.installed Sim.run
           Sim.hundred_mm (Sim.start Sim.intuos) "10" 2600 1938 12600 7563 H).
Defined.

(** The run of [assigned_area_within_tablet_witness]: the device answers
    its full area, 15200 by 9500, and the far corner is within it. *)
Example queried_area_bounds_run :
  fst (get_tablet_max_area Sim.tablet Sim.run "10" false
         (snd (select_device Sim.tablet Sim.run Sim.hundred_mm
                 (Sim.start Sim.intuos))))
    = Ret ("15200", "9500")
  /\ convert_size (F := float) (join "x" ["15200"; "9500"])
     = Ret (15200%float, 9500%float)
  /\ round2 15200%float = Ret 15200 /\ round2 9500%float = Ret 9500.
Proof. vm_compute. repeat split. Qed.

Lemma dry_run_query_always_complains_witness :
  (Sim.run [xsetwacom; "--get"; "10"; "Area"] (world (Sim.start Sim.intuos))
     = (Sim.show_area (0, 0, 7600, 4275), Sim.intuos)
   /\ split_ws (drop_last (Sim.show_area (0, 0, 7600, 4275)))
      = ["0"; "0"; "7600"; "4275"])
  /\ get_tablet_max_area Sim.tablet Sim.run "10" true (Sim.start Sim.intuos)
     = (Ret ("7600", "4275"),
        {| world := Sim.intuos;
           trace := ([] ++ [[xsetwacom; "--get"; "10"; "Area"]])%list;
           printed := ([] ++ dry_run_lines)%list |}).
Proof.
  split; [split; reflexivity|].
  apply (dry_run_query_always_complains Sim.tablet Sim.run "10"
           (Sim.show_area (0, 0, 7600, 4275)) Sim.intuos (Sim.start Sim.intuos)
           "0" "0" "7600" "4275"); reflexivity.
Defined.

Lemma area_query_needs_four_fields_witness :
  (Cases.silent (reset_command "10") tt = ("", tt)
   /\ Cases.silent [xsetwacom; "--get"; "10"; "Area"] tt = ("", tt))
  /\ get_tablet_max_area unit Cases.silent "10" false
       {| world := tt; trace := []; printed := [] |}
     = (match split_ws (drop_last "") with
        | [x1; y1; x2; y2] => Ret (x2, y2)
        | _ => Uncaught ValueError
        end,
        {| world := tt;
           trace := ([] ++ [reset_command "10";
                            [xsetwacom; "--get"; "10"; "Area"]])%list;
           printed := [] |}).
Proof.
  split; [split; reflexivity|].
  apply (area_query_needs_four_fields unit Cases.silent "10" "" "" tt tt
           {| world := tt; trace := []; printed := [] |}); reflexivity.
Defined.

(* ================================================================== *)
(** * Arguments, device areas and the written command *)
(* ================================================================== *)

(** X16: the check of lines 140-150 lets a command line through exactly
    when one of [--width], [--height] and [--full] is given; any two of
    them end the run with status 1, and [--width] together with [--height]
    with the message that names those two, also when [--full] is given as
    well, since the loop exits before it reaches [full]. *)
Theorem verify_arguments_exactly_one {F} (args : Args F) :
  (verify_arguments args = Ret tt <->
   length (filter (arg_found args) ["width"; "height"; "full"]) = 1%nat)
  /\ (verify_arguments args = Ret tt
      \/ exists msg, verify_arguments args = Exit 1 msg)
  /\ (args_width args <> None -> args_height args <> None ->
      verify_arguments args = Exit 1 used_together).
Proof.
  unfold verify_arguments. cbn [scan_group filter].
  unfold arg_found. cbn [String.eqb Ascii.eqb Bool.eqb].
  destruct (args_width args), (args_height args), (args_full args);
    cbn; repeat split; intros; try discriminate; try reflexivity; try lia;
    try congruence; try (left; reflexivity); try (right; eexists; reflexivity).
Qed.

(** X18: a device area that passes the check of lines 170-174 converts
    exactly when it has two parts: then [convert_size] returns the floats
    nearest to the two integers, which may be zero or negative; with any
    other number of parts it raises [ValueError]. *)
Theorem valid_device_area_converts {F} {arith : PyFloat F} (device_area : string) :
  device_area_valid device_area = true ->
  (length (split_on "x" device_area) = 2%nat ->
   exists (width height : string) (nw nh : bool) (mw mh : Z),
     split_on "x" device_area = [width; height]
     /\ 0 <= mw /\ 0 <= mh
     /\ py_int width = Some (if nw then - mw else mw)
     /\ py_int height = Some (if nh then - mh else mh)
     /\ convert_size device_area = Ret (of_decimal nw mw 0, of_decimal nh mh 0))
  /\ (length (split_on "x" device_area) <> 2%nat ->
      convert_size device_area = Uncaught ValueError).
Proof.
  intros V. split; [|apply convert_size_needs_two_parts].
  unfold device_area_valid, convert_size in *.
  destruct (split_on "x" device_area) as [|width [|height [|]]]; try discriminate.
  intros _. cbn [forallb] in V.
  apply andb_true_iff in V. destruct V as [Hw V].
  apply andb_true_iff in V. destruct V as [Hh _].
  destruct (py_int_parts width Hw) as [nw [mw [Pw Iw]]].
  destruct (py_int_parts height Hh) as [nh [mh [Ph Ih]]].
  exists width, height, nw, nh, mw, mh.
  split; [reflexivity|].
  split; [exact (int_parts_nonneg _ _ _ Pw)|].
  split; [exact (int_parts_nonneg _ _ _ Ph)|].
  split; [exact Iw|]. split; [exact Ih|].
  rewrite (py_float_of_int width nw mw Pw), (py_float_of_int height nh mh Ph).
  reflexivity.
Qed.

Lemma valid_device_area_converts_witness :
  device_area_valid "10000x6000" = true
  /\ (length (split_on "x" "10000x6000") = 2%nat ->
      exists (width height : string) (nw nh : bool) (mw mh : Z),
        split_on "x" "10000x6000" = [width; height]
        /\ 0 <= mw /\ 0 <= mh
        /\ py_int width = Some (if nw then - mw else mw)
        /\ py_int height = Some (if nh then - mh else mh)
        /\ convert_size (F := float) "10000x6000"
           = Ret (of_decimal nw mw 0, of_decimal nh mh 0))
  /\ (length (split_on "x" "10000x6000") <> 2%nat ->
      convert_size (F := float) "10000x6000" = Uncaught ValueError).
Proof.
  split; [reflexivity|].
  apply (valid_device_area_converts (F := float) "10000x6000"). reflexivity.
Defined.

(** X14: the area asked from the device reaches [convert_size] as the
    third and fourth field joined by ["x"] (lines 97, 176 and 200):
    when neither field contains an ["x"] the split gives the two fields back
    and the result is [float] of each; when one of them does, there are more
    than two parts and [convert_size] raises [ValueError]. *)
Theorem queried_area_converts {F} {arith : PyFloat F} (x2 y2 : string) :
  (occurs "x" x2 = false -> occurs "x" y2 = false ->
   convert_size (join "x" [x2; y2])
   = obind (py_float x2) (fun w => obind (py_float y2) (fun h => Ret (w, h))))
  /\ (occurs "x" x2 = true \/ occurs "x" y2 = true ->
      convert_size (join "x" [x2; y2]) = Uncaught ValueError).
Proof.
  unfold join. cbn [String.concat].
  change (x2 ++ "x" ++ y2) with (x2 ++ String "x" y2). split.
  - intros H2 Hy. unfold convert_size.
    rewrite (split_on_first "x" x2 y2 H2), (split_on_whole "x" y2 Hy). reflexivity.
  - intros H. apply convert_size_needs_two_parts.
    rewrite split_on_length_app.
    pose proof (split_on_nonempty "x" x2) as N2.
    pose proof (split_on_nonempty "x" y2) as Ny.
    destruct H as [H | H]; apply split_on_length_occurs in H;
      destruct (split_on "x" x2), (split_on "x" y2); cbn [length] in *;
      try contradiction; lia.
Qed.

(** ** What [set_area] writes, the script reads back *)

Lemma digit_not_blank (c : ascii) (d : Z) : digit_of c = Some d -> is_blank c = false.
Proof.
  unfold digit_of, is_blank. destruct (_ && _)%bool eqn:E; [|discriminate].
  intros _. apply andb_true_iff in E. destruct E as [L U].
  apply N.leb_le in L, U.
  apply orb_false_iff. split; [apply andb_false_iff | apply N.eqb_neq].
  - right. apply N.leb_gt. lia.
  - lia.
Qed.

Lemma sign_of_digit (c : ascii) (s : string) (d : Z) :
  digit_of c = Some d -> sign (String c s) = (false, String c s).
Proof.
  destruct c as [[] [] [] [] [] [] [] []]; cbn; intros H;
    try discriminate; reflexivity.
Qed.

(** The characters of a decimal numeral are digits. *)
Lemma uint_chars (u : Decimal.uint) (c : ascii) :
  occurs c (NilEmpty.string_of_uint u) = true -> exists d, digit_of c = Some d.
Proof.
  induction u; cbn [NilEmpty.string_of_uint occurs]; try discriminate;
    intros H; apply orb_true_iff in H; destruct H as [H | H]; auto;
    apply Ascii.eqb_eq in H; subst c; eexists; reflexivity.
Qed.

Lemma uint_string_head (u : Decimal.uint) :
  u <> Decimal.Nil ->
  exists c s d, NilEmpty.string_of_uint u = String c s /\ digit_of c = Some d.
Proof.
  destruct u; [congruence|..]; intros _; cbn [NilEmpty.string_of_uint];
    eexists _, _, _; split; reflexivity.
Qed.

Lemma trim_no_blank (s : string) :
  (forall c, occurs c s = true -> is_blank c = false) -> trim s = s.
Proof.
  intros H. unfold trim.
  assert (L : lskip s = s).
  { destruct s as [|c s]; [reflexivity|]. cbn [lskip].
    rewrite (H c); [reflexivity|]. cbn [occurs]. rewrite Ascii.eqb_refl. reflexivity. }
  rewrite L. clear L. induction s as [|c s IH]; [reflexivity|].
  cbn [rskip]. rewrite IH.
  - destruct s; [|reflexivity].
    rewrite (H c); [reflexivity|]. cbn [occurs]. rewrite Ascii.eqb_refl. reflexivity.
  - intros c' Hc'. apply H. cbn [occurs]. rewrite Hc'. apply orb_true_r.
Qed.

(** Every digit character is read as its value. *)
Ltac read_digit :=
  change (digit_of "0") with (Some 0); change (digit_of "1") with (Some 1);
  change (digit_of "2") with (Some 2); change (digit_of "3") with (Some 3);
  change (digit_of "4") with (Some 4); change (digit_of "5") with (Some 5);
  change (digit_of "6") with (Some 6); change (digit_of "7") with (Some 7);
  change (digit_of "8") with (Some 8); change (digit_of "9") with (Some 9);
  cbv iota.

Lemma digits_of_uint_acc (u : Decimal.uint) :
  forall (acc : positive) (n : nat),
  exists k, digits (Zpos acc) n (NilEmpty.string_of_uint u)
            = (Zpos (Pos.of_uint_acc u acc), (n + k)%nat, "").
Proof.
  induction u; intros acc n; cbn [NilEmpty.string_of_uint digits Pos.of_uint_acc];
    try (exists 0%nat; rewrite Nat.add_0_r; reflexivity);
    read_digit;
    match goal with
    | |- context [digits ?a (S n) _] =>
        match goal with
        | |- context [Pos.of_uint_acc u ?p] =>
            replace a with (Zpos p) by lia;
            destruct (IHu p (S n)) as [k Hk]; exists (S k); rewrite Hk;
            f_equal; f_equal; lia
        end
    end.
Qed.

(** The first digit [p] that is not a leading zero. *)
Ltac first_digit u n p :=
  read_digit;
  match goal with
  | |- context [digits ?a (S n) _] => change a with (Zpos p)
  end;
  let k := fresh "k" in
  let Hk := fresh "Hk" in
  destruct (digits_of_uint_acc u p (S n)) as [k Hk];
  exists (S k); rewrite Hk; split; [f_equal; f_equal; lia | lia].

Lemma digits_of_uint (u : Decimal.uint) :
  forall n : nat,
  exists k, digits 0 n (NilEmpty.string_of_uint u)
            = (Z.of_N (Pos.of_uint u), (n + k)%nat, "")
            /\ (u <> Decimal.Nil -> (1 <= k)%nat).
Proof.
  induction u; intros n; cbn [NilEmpty.string_of_uint digits Pos.of_uint].
  - exists 0%nat. rewrite Nat.add_0_r. split; [reflexivity | congruence].
  - read_digit. change (10 * 0 + 0) with 0.
    destruct (IHu (S n)) as [k [Hk _]]. exists (S k). rewrite Hk.
    split; [f_equal; f_equal; lia | lia].
  - first_digit u n 1%positive.
  - first_digit u n 2%positive.
  - first_digit u n 3%positive.
  - first_digit u n 4%positive.
  - first_digit u n 5%positive.
  - first_digit u n 6%positive.
  - first_digit u n 7%positive.
  - first_digit u n 8%positive.
  - first_digit u n 9%positive.
Qed.

Lemma int_parts_of_uint (u : Decimal.uint) (neg : bool) :
  u <> Decimal.Nil ->
  int_parts ((if neg then "-" else "") ++ NilEmpty.string_of_uint u)
  = Some (neg, Z.of_N (Pos.of_uint u)).
Proof.
  intros N. unfold int_parts.
  destruct (uint_string_head u N) as [c [s [d [E D]]]].
  destruct (digits_of_uint u 0) as [k [Hk K]]. specialize (K N).
  rewrite trim_no_blank.
  - destruct neg; cbn [append].
    + cbn [sign]. rewrite Hk. destruct k; [lia | reflexivity].
    + rewrite E, (sign_of_digit c s d D), <- E, Hk. destruct k; [lia | reflexivity].
  - intros c' H. destruct neg; cbn [append occurs] in H.
    + apply orb_true_iff in H. destruct H as [H | H].
      * apply Ascii.eqb_eq in H. subst c'. reflexivity.
      * destruct (uint_chars u c' H) as [d' D']. exact (digit_not_blank c' d' D').
    + destruct (uint_chars u c' H) as [d' D']. exact (digit_not_blank c' d' D').
Qed.

Lemma str_of_int_cases (z : Z) :
  z = 0 /\ str_of_int z = "0"
  \/ exists (p : positive) (neg : bool),
       z = (if neg then Zneg p else Zpos p)
       /\ Pos.to_uint p <> Decimal.Nil
       /\ str_of_int z
          = (if neg then "-" else "") ++ NilEmpty.string_of_uint (Pos.to_uint p).
Proof.
  destruct z as [|p|p]; [left; split; reflexivity|..]; right.
  - exists p, false. split; [reflexivity|].
    pose proof (Unsigned.to_uint_nonnil p) as N. split; [exact N|].
    unfold str_of_int. cbn [Z.to_int NilZero.string_of_int].
    unfold NilZero.string_of_uint. destruct (Pos.to_uint p); [congruence|..]; reflexivity.
  - exists p, true. split; [reflexivity|].
    pose proof (Unsigned.to_uint_nonnil p) as N. split; [exact N|].
    unfold str_of_int. cbn [Z.to_int NilZero.string_of_int].
    unfold NilZero.string_of_uint. destruct (Pos.to_uint p); [congruence|..]; reflexivity.
Qed.

(** [int(str(n)) == n]. *)
Lemma int_of_str_of_int (z : Z) : py_int (str_of_int z) = Some z.
Proof.
  destruct (str_of_int_cases z) as [[-> ->] | [p [neg [-> [N ->]]]]]; [reflexivity|].
  unfold py_int. rewrite (int_parts_of_uint _ neg N), Unsigned.of_to.
  destruct neg; reflexivity.
Qed.

Lemma str_of_int_no_space (z : Z) : occurs " " (str_of_int z) = false.
Proof.
  destruct (str_of_int_cases z) as [[-> ->] | [p [neg [-> [N ->]]]]]; [reflexivity|].
  destruct (occurs " " _) eqn:O; [|reflexivity]. exfalso.
  destruct neg; cbn [append occurs Ascii.eqb Bool.eqb orb] in O;
    destruct (uint_chars _ _ O) as [d D]; discriminate.
Qed.

(** X11: the area string that [set_area] puts in its command (line 113)
    is one the script's own reader accepts (lines 52-55): split at the
    spaces it has four parts, and [int] reads each part back as the number
    that was written, negative numbers included. *)
Theorem written_area_reads_back (x1 y1 x2 y2 : Z) :
  map py_int
    (split_on " " (str_of_int x1 ++ " " ++ str_of_int y1 ++ " "
                     ++ str_of_int x2 ++ " " ++ str_of_int y2))
  = [Some x1; Some y1; Some x2; Some y2].
Proof.
  change (str_of_int x1 ++ " " ++ str_of_int y1 ++ " "
            ++ str_of_int x2 ++ " " ++ str_of_int y2)
    with (str_of_int x1 ++ String " " (str_of_int y1 ++ String " "
            (str_of_int x2 ++ String " " (str_of_int y2)))).
  rewrite !split_on_first by apply str_of_int_no_space.
  rewrite split_on_whole by apply str_of_int_no_space.
  cbn [map]. rewrite !int_of_str_of_int. reflexivity.
Qed.

